(** * StartupCouncilAI: the debate orchestration engine

    A shallow embedding of [CouncilOrchestrator] (lib/agents/council.ts), the
    types of lib/agents/types.ts, the persona table of lib/agents/personas.ts,
    [getSafeErrorMessage], the rate limiter, [sanitizeInput] and
    [secureCompare] (lib/utils/security.ts), the token counts of
    [estimateDebateCost] (lib/utils/cost-calculator.ts), the background
    task of the [/api/council] route and the handler of the stream in the
    store of the client (lib/stores/debate-store.ts), followed by the
    properties of the debate protocol, of these utilities and of the
    client fed with the stream of the server.

    Conventions of the embedding.
    - JavaScript strings are [string]s of ASCII characters; [\s], [trim] and
      [toLowerCase] are modelled on that range.
    - [Date.now()] timestamps are left out of messages and events, and so is
      what is only logged to the console.
    - [async] methods become computations of the monad [M]: they read the
      replies of the external services from an [Oracle], count the external
      calls made so far, write a trace of the emitted events and of the
      requests sent, and end in a value or in a thrown exception.
    - The [onEvent] callback is the one the route installs: it appends the
      event to the stream.
    - [checkForClarification] is never called (its call is commented out
      in [runCouncilDebate]) and is left out.
    - [agentResponses] is shared by the copies of a state that
      [runDebateRound] makes; the methods thread the state, so that the
      responses pushed so far are the ones of the state in hand.
    - [rateLimitStore], the store of the rate limiter, is passed to
      [checkRateLimit] and returned by it, with the time and the random
      draw that the call reads.
    - The transport between the route and the browser (the encoding as
      server-sent events in the route, [parseStream] in
      lib/services/council-service.ts) is not modelled: the store is fed
      with the events as the route wrote them.

    The file has three parts: the embedding of the code, the vocabulary of
    the properties with some sample sessions, and the lemmas and theorems. *)

From Stdlib Require Import String Ascii List Bool Arith ZArith QArith Lia.
From Stdlib Require Import DecimalString DecimalNat Qround.
From stdpp Require Import gmap.
Import ListNotations.

Open Scope string_scope.
Open Scope list_scope.
Open Scope nat_scope.

Infix "+++" := String.append (at level 60, right associativity).

(** ** JavaScript strings *)

Module Js.

Definition NL : string := String "010"%char EmptyString.
Definition DQ : string := String "034"%char EmptyString.

(** The white space of [\s] and of [String.prototype.trim], ASCII part. *)
Definition isWhiteSpace (c : ascii) : bool :=
  match nat_of_ascii c with
  | 9 | 10 | 11 | 12 | 13 | 32 => true
  | _ => false
  end.

(** [\d] *)
Definition isDigit (c : ascii) : bool :=
  let n := nat_of_ascii c in (48 <=? n) && (n <=? 57).

Definition digitValue (c : ascii) : N := N.of_nat (nat_of_ascii c - 48).

Definition upperChar (c : ascii) : ascii :=
  let n := nat_of_ascii c in
  if (97 <=? n) && (n <=? 122) then ascii_of_nat (n - 32) else c.

Definition lowerChar (c : ascii) : ascii :=
  let n := nat_of_ascii c in
  if (65 <=? n) && (n <=? 90) then ascii_of_nat (n + 32) else c.

Fixpoint mapChars (f : ascii -> ascii) (s : string) : string :=
  match s with
  | EmptyString => EmptyString
  | String c s' => String (f c) (mapChars f s')
  end.

Definition toUpperCase : string -> string := mapChars upperChar.
Definition toLowerCase : string -> string := mapChars lowerChar.

(** [s.startsWith(p)], with the comparison of characters as a parameter
    (equality, or equality up to case for a regular expression with the
    [i] flag). *)
Fixpoint startsWithBy (eqc : ascii -> ascii -> bool) (s p : string) {struct p} : bool :=
  match p, s with
  | EmptyString, _ => true
  | String a p', String b s' => eqc a b && startsWithBy eqc s' p'
  | String _ _, EmptyString => false
  end.

Definition startsWith : string -> string -> bool := startsWithBy Ascii.eqb.

Definition eqIgnoreCase (a b : ascii) : bool :=
  Ascii.eqb (upperChar a) (upperChar b).

(** [s.includes(p)] *)
Fixpoint includes (s p : string) : bool :=
  startsWith s p ||
  match s with
  | EmptyString => false
  | String _ s' => includes s' p
  end.

(** [s.substring(n)] *)
Fixpoint substringFrom (n : nat) (s : string) : string :=
  match n, s with
  | 0, _ => s
  | S n', String _ s' => substringFrom n' s'
  | S _, EmptyString => EmptyString
  end.

(** The first [n] characters of [s]. *)
Fixpoint take (n : nat) (s : string) : string :=
  match n, s with
  | S n', String c s' => String c (take n' s')
  | _, _ => EmptyString
  end.

Fixpoint trimStart (s : string) : string :=
  match s with
  | EmptyString => EmptyString
  | String c s' => if isWhiteSpace c then trimStart s' else s
  end.

Fixpoint trimEnd (s : string) : string :=
  match s with
  | EmptyString => EmptyString
  | String c s' =>
      match trimEnd s' with
      | EmptyString => if isWhiteSpace c then EmptyString else String c EmptyString
      | t => String c t
      end
  end.

Definition trim (s : string) : string := trimEnd (trimStart s).

(** [s.split('\n')] *)
Fixpoint splitLines (s : string) : list string :=
  match s with
  | EmptyString => [EmptyString]
  | String c s' =>
      if Ascii.eqb c "010"%char then EmptyString :: splitLines s'
      else match splitLines s' with
           | l :: ls => String c l :: ls
           | [] => [String c EmptyString]
           end
  end.

(** [xs.join(sep)] *)
Fixpoint join (sep : string) (xs : list string) : string :=
  match xs with
  | [] => EmptyString
  | [x] => x
  | x :: rest => x +++ sep +++ join sep rest
  end.

(** A string is truthy when it is not empty. *)
Definition truthy (s : string) : bool :=
  match s with EmptyString => false | String _ _ => true end.

(** [a || b] on strings. *)
Definition orElse (a b : string) : string := if truthy a then a else b.

(** Template interpolation of a non-negative integer. *)
Definition numToString (n : nat) : string :=
  NilZero.string_of_uint (Nat.to_uint n).

(** [parseInt] on a string of decimal digits, its only use (the argument
    is the capture of [(\d+)]). *)
Fixpoint parseDigits (acc : N) (s : string) : N :=
  match s with
  | EmptyString => acc
  | String c s' => parseDigits (10 * acc + digitValue c)%N s'
  end.

Definition parseInt (s : string) : N := parseDigits 0%N s.

(** *** Regular expressions

    [search at_pos s] is [s.match(re)] for a regular expression without
    the [g] flag: the attempt [at_pos] is made at every start position
    from left to right, the end of the input included, and the first
    success is the match. *)
Fixpoint search {A : Type} (at_pos : string -> option A) (s : string) : option A :=
  match at_pos s with
  | Some a => Some a
  | None =>
      match s with
      | EmptyString => None
      | String _ s' => search at_pos s'
      end
  end.

(** What is left of [s] after the literal [p] matched at its start. *)
Fixpoint afterLiteral (eqc : ascii -> ascii -> bool) (p s : string) {struct p}
    : option string :=
  match p, s with
  | EmptyString, _ => Some s
  | String a p', String b s' => if eqc a b then afterLiteral eqc p' s' else None
  | String _ _, EmptyString => None
  end.

(** [\s*]: greedy; none of the patterns below can succeed after giving
    white space back. *)
Fixpoint skipWhiteSpace (s : string) : string :=
  match s with
  | String c s' => if isWhiteSpace c then skipWhiteSpace s' else s
  | EmptyString => EmptyString
  end.

(** [(\d+)]: the longest run of digits at the start, at least one. *)
Fixpoint digitRun (s : string) : string :=
  match s with
  | String c s' => if isDigit c then String c (digitRun s') else EmptyString
  | EmptyString => EmptyString
  end.

(** [([\s\S]*?)(?=stop|$)]: the shortest text after which the input
    continues with [stop] or ends. *)
Fixpoint lazyUntil (stop : string) (s : string) : string :=
  if startsWith s stop then EmptyString
  else match s with
       | EmptyString => EmptyString
       | String c s' => String c (lazyUntil stop s')
       end.

End Js.

(** ** Personas (lib/agents/personas.ts) *)

(** [AdvisorName]: the members of [ADVISOR_NAMES]. *)
Inductive AdvisorName := naval | elon | larry | alex | pavel.

#[global] Instance AdvisorName_eq_dec : EqDecision AdvisorName.
Proof. solve_decision. Defined.

Definition advisorIndex (a : AdvisorName) : nat :=
  match a with naval => 0 | elon => 1 | larry => 2 | alex => 3 | pavel => 4 end.

Definition advisorAt (n : nat) : AdvisorName :=
  match n with 0 => naval | 1 => elon | 2 => larry | 3 => alex | _ => pavel end.

#[global] Instance AdvisorName_countable : Countable AdvisorName.
Proof.
  apply (inj_countable' advisorIndex advisorAt).
  intros a; destruct a; reflexivity.
Defined.

Definition ADVISOR_NAMES : list AdvisorName := [naval; elon; larry; alex; pavel].

(** The advisor's identifier as the string it is at run time. *)
Definition advisorId (a : AdvisorName) : string :=
  match a with
  | naval => "naval" | elon => "elon" | larry => "larry"
  | alex => "alex" | pavel => "pavel"
  end.

(** The keys of [PERSONAS]. *)
Inductive PersonaKey := moderator | advisorKey (a : AdvisorName).

#[global] Instance PersonaKey_eq_dec : EqDecision PersonaKey.
Proof. solve_decision. Defined.

(** [PERSONAS[key].name]. The instruction text [systemPrompt] of a persona
    is only ever passed on to the completion service, so a request names
    the persona whose text it carries instead of repeating the text. *)
Definition personaName (k : PersonaKey) : string :=
  match k with
  | moderator => "Council Moderator"
  | advisorKey naval => "Naval Ravikant"
  | advisorKey elon => "Elon Musk"
  | advisorKey larry => "Larry Ellison"
  | advisorKey alex => "Alex Hormozi"
  | advisorKey pavel => "Pavel Durov"
  end.

(** ** Types (lib/agents/types.ts) *)

Inductive Role :=
| role_user | role_assistant | role_moderator | role_advisor (a : AdvisorName).

Definition isUser (r : Role) : bool :=
  match r with role_user => true | _ => false end.

Record Message := {
  role : Role;
  content : string;
  round : option nat
}.

Record ResearchResult := {
  title : string;
  url : string;
  snippet : string
}.

(** [Record<string, string[]>], keyed by the advisors. *)
Abbreviation AgentResponses := (gmap AdvisorName (list string)).

Record DebateState := {
  messages : list Message;
  currentRound : nat;
  maxRounds : nat;
  consensusReached : bool;
  needsClarification : bool;
  clarificationQuestion : option string;
  agentResponses : AgentResponses;
  finalAnswer : option string;
  researchResults : option (list ResearchResult)
}.

(** Assignments to the fields of a state. *)
Definition set_currentRound (n : nat) (s : DebateState) : DebateState :=
  {| messages := messages s; currentRound := n; maxRounds := maxRounds s;
     consensusReached := consensusReached s;
     needsClarification := needsClarification s;
     clarificationQuestion := clarificationQuestion s;
     agentResponses := agentResponses s; finalAnswer := finalAnswer s;
     researchResults := researchResults s |}.

Definition set_agentResponses (r : AgentResponses) (s : DebateState) : DebateState :=
  {| messages := messages s; currentRound := currentRound s;
     maxRounds := maxRounds s; consensusReached := consensusReached s;
     needsClarification := needsClarification s;
     clarificationQuestion := clarificationQuestion s;
     agentResponses := r; finalAnswer := finalAnswer s;
     researchResults := researchResults s |}.

Definition set_researchResults (r : list ResearchResult) (s : DebateState) : DebateState :=
  {| messages := messages s; currentRound := currentRound s;
     maxRounds := maxRounds s; consensusReached := consensusReached s;
     needsClarification := needsClarification s;
     clarificationQuestion := clarificationQuestion s;
     agentResponses := agentResponses s; finalAnswer := finalAnswer s;
     researchResults := Some r |}.

Definition set_consensusReached (b : bool) (s : DebateState) : DebateState :=
  {| messages := messages s; currentRound := currentRound s;
     maxRounds := maxRounds s; consensusReached := b;
     needsClarification := needsClarification s;
     clarificationQuestion := clarificationQuestion s;
     agentResponses := agentResponses s; finalAnswer := finalAnswer s;
     researchResults := researchResults s |}.

Definition set_finalAnswer (a : string) (s : DebateState) : DebateState :=
  {| messages := messages s; currentRound := currentRound s;
     maxRounds := maxRounds s; consensusReached := consensusReached s;
     needsClarification := needsClarification s;
     clarificationQuestion := clarificationQuestion s;
     agentResponses := agentResponses s; finalAnswer := Some a;
     researchResults := researchResults s |}.

Module ConsensusAnalysis.
Record t := make {
  consensusReached : bool;
  agreementLevel : Q;
  agreements : list string;
  disagreements : list string;
  majorityView : option string;
  minorityViews : option (list string)
}.
End ConsensusAnalysis.

Inductive ClaudeModel := claude_opus_4_5 | claude_sonnet_4_5 | claude_haiku_4.
Inductive DebateMode := quick | standard | deep.

Inductive EventType :=
| agent_start | agent_response | agent_complete | moderator_analysis
| consensus_check | final_answer | error | clarification_needed
| research_start | research_complete | research_results | cost_estimate
| cost_actual | system | status.

#[global] Instance EventType_eq_dec : EqDecision EventType.
Proof. solve_decision. Defined.

(** The [data] of an event. The estimate of [estimateDebateCost] is kept
    as the arguments of the call. *)
Inductive EventData :=
| CostEstimateOf (model : ClaudeModel) (mode : DebateMode)
                 (advisorCount : nat) (enableResearch : bool)
| Sources (sources : list ResearchResult).

Record StreamEvent := {
  type : EventType;
  agent : option AdvisorName;
  text : option string;   (* the [content] field *)
  data : option EventData
}.

Definition event (t : EventType) (a : option AdvisorName) (c : option string) : StreamEvent :=
  {| type := t; agent := a; text := c; data := None |}.

(** ** The external services *)

(** A thrown value: an [Error] with its message, or anything else. *)
Inductive Thrown := JsError (message : string) | JsNonError.

(** The argument of [client.messages.create]: the only message is the
    user's, with the prompt as its content. *)
Record CompletionRequest := {
  req_model : string;
  req_max_tokens : nat;
  req_system : PersonaKey;
  req_prompt : string;
  req_stream : bool
}.

Inductive ContentBlock := TextBlock (t : string) | OtherBlock.

(** An item of a streamed reply: a [content_block_delta] carrying a
    [text_delta], or any other item. *)
Inductive StreamItem := TextDelta (t : string) | OtherItem.

Inductive CreateReply :=
| Replied (blocks : list ContentBlock)
| Rejected (e : Thrown).

(** A streamed reply: the items received, then the end of the stream or a
    failure (a failure with no item is a call that was rejected). *)
Record StreamReply := {
  items : list StreamItem;
  failure : option Thrown
}.

Record TavilyResult := {
  raw_title : option string;
  raw_url : option string;
  raw_content : option string
}.

Inductive SearchReply :=
| Found (results : option (list TavilyResult))
| SearchFailed (e : Thrown).

(** The replies of the services, as functions of the number of external
    calls made before and of the request. *)
Record Oracle := {
  messages_create : nat -> CompletionRequest -> CreateReply;
  messages_stream : nat -> CompletionRequest -> StreamReply;
  tavily_search : nat -> string -> SearchReply
}.

(** What a run leaves behind, in order. *)
Inductive Obs :=
| Emitted (e : StreamEvent)
| Requested (r : CompletionRequest)
| Searched (query : string).

Definition emittedEvent (o : Obs) : option StreamEvent :=
  match o with Emitted e => Some e | _ => None end.

Definition requestOf (o : Obs) : option CompletionRequest :=
  match o with Requested r => Some r | _ => None end.

(** The event stream of a trace, and the completion requests of a trace. *)
Definition events (tr : list Obs) : list StreamEvent := omap emittedEvent tr.
Definition requests (tr : list Obs) : list CompletionRequest := omap requestOf tr.

(** ** Computations *)

Inductive Outcome (A : Type) :=
| Ok (a : A)
| Throw (e : Thrown).
Arguments Ok {A} a.
Arguments Throw {A} e.

(** From the number of calls made so far to the outcome, the trace and the
    new number of calls. *)
Definition M (A : Type) : Type := nat -> Outcome A * list Obs * nat.

Definition ret {A} (a : A) : M A := fun n => (Ok a, [], n).

Definition throw {A} (e : Thrown) : M A := fun n => (Throw e, [], n).

Definition bind {A B} (m : M A) (k : A -> M B) : M B := fun n =>
  match m n with
  | (Ok a, t1, n1) => let '(r, t2, n2) := k a n1 in (r, t1 ++ t2, n2)
  | (Throw e, t1, n1) => (Throw e, t1, n1)
  end.

(** [try { body } catch (error) { handler }] *)
Definition try_catch {A} (body : M A) (handler : Thrown -> M A) : M A := fun n =>
  match body n with
  | (Ok a, t1, n1) => (Ok a, t1, n1)
  | (Throw e, t1, n1) => let '(r, t2, n2) := handler e n1 in (r, t1 ++ t2, n2)
  end.

(** [onEvent?.(e)] *)
Definition emit (e : StreamEvent) : M unit := fun n => (Ok tt, [Emitted e], n).

Declare Scope debate_scope.
Delimit Scope debate_scope with M.
Bind Scope debate_scope with M.
Open Scope debate_scope.

Notation "'do' x <- c1 ; c2" := (bind c1 (fun x => c2))
  (at level 10, x pattern, c1 at level 100, c2 at level 200) : debate_scope.
Notation "c1 ;; c2" := (bind c1 (fun _ => c2))
  (at level 100, c2 at level 200, right associativity) : debate_scope.

(** [for (const x of xs) { acc = body(x, acc) }] *)
Fixpoint forEach {A S : Type} (body : A -> S -> M S) (xs : list A) (acc : S) : M S :=
  match xs with
  | [] => ret acc
  | x :: rest => do acc' <- body x acc; forEach body rest acc'
  end.

Definition outcome {A} (r : Outcome A * list Obs * nat) : Outcome A := r.1.1.
Definition trace {A} (r : Outcome A * list Obs * nat) : list Obs := r.1.2.
Definition calls {A} (r : Outcome A * list Obs * nat) : nat := r.2.

(** [error instanceof Error ? error.message : fallback] *)
Definition messageOr (fallback : string) (e : Thrown) : string :=
  match e with JsError m => m | JsNonError => fallback end.

(** ** lib/utils/security.ts *)

(** [development] is [process.env.NODE_ENV === 'development']. *)
Definition getSafeErrorMessage (development : bool) (error : Thrown) : string :=
  if development then messageOr "Unknown error occurred" error
  else
    match error with
    | JsError message =>
        if Js.includes message "API key" then "Invalid API key. Please check your settings."
        else if Js.includes message "rate limit" then "Too many requests. Please try again later."
        else if Js.includes message "timeout" then "Request timed out. Please try again."
        else if Js.includes message "network" then "Network error. Please check your connection."
        else "An error occurred. Please try again."
    | JsNonError => "An error occurred. Please try again."
    end.

(** ** The orchestrator (lib/agents/council.ts) *)

Record OrchestratorConfig := {
  cfg_model : option ClaudeModel;
  cfg_mode : option DebateMode;
  cfg_selectedAdvisors : option (list AdvisorName);
  cfg_enableResearch : option bool;
  cfg_tavilyApiKey : option string
}.

Definition modelMap (m : ClaudeModel) : string :=
  match m with
  | claude_opus_4_5 => "claude-opus-4-20250514"
  | claude_sonnet_4_5 => "claude-sonnet-4-20250514"
  | claude_haiku_4 => "claude-3-5-haiku-20241022"
  end.

Definition modeMap (m : DebateMode) : nat :=
  match m with quick => 1 | standard => 2 | deep => 3 end.

Module CouncilOrchestrator.

(** The fields of the class; [tavilyClient] is kept as whether it is
    not [null]. *)
Record t := make {
  maxRounds : nat;
  model : string;
  selectedAdvisors : list AdvisorName;
  enableResearch : bool;
  tavilyClient : bool;
  userEnabledResearch : bool
}.

(** The constructor; [envTavilyKey] is [process.env.TAVILY_API_KEY]. *)
Definition new (config : option OrchestratorConfig) (envTavilyKey : option string) : t :=
  let tavilyKey :=
    match config ≫= cfg_tavilyApiKey with
    | Some k => if Js.truthy k then Some k else envTavilyKey
    | None => envTavilyKey
    end in
  let userEnabled :=
    match config ≫= cfg_enableResearch with
    | Some true => true
    | _ => false
    end in
  {| tavilyClient :=
       match tavilyKey with Some k => Js.truthy k | None => false end;
     model :=
       match config ≫= cfg_model with
       | Some m => modelMap m
       | None => "claude-sonnet-4-20250514"
       end;
     maxRounds :=
       match config ≫= cfg_mode with
       | Some m => modeMap m
       | None => 2
       end;
     selectedAdvisors :=
       match config ≫= cfg_selectedAdvisors with
       | Some l => l
       | None => ADVISOR_NAMES
       end;
     userEnabledResearch := userEnabled;
     enableResearch := userEnabled |}.

End CouncilOrchestrator.

Definition researchKeywords : list string :=
  [ "research"; "search"; "look online"; "look up"; "find online";
    "check online"; "google"; "what does the data say"; "latest data";
    "current data"; "recent data"; "find out"; "look it up"; "check the";
    "verify"; "fact check"; "statistics"; "stats on"; "numbers on";
    "data on" ].

(** [state.messages.find((m) => m.role === 'user')?.content || ''] *)
Definition userQuestionOf (state : DebateState) : string :=
  match find (fun m => isUser (role m)) (messages state) with
  | Some m => content m
  | None => EmptyString
  end.

(** [responses && responses.length > 0 ? responses[responses.length - 1] : ''],
    for [responses = state.agentResponses[name]]. *)
Definition latestResponse (state : DebateState) (name : AdvisorName) : string :=
  match agentResponses state !! name with
  | Some responses => List.last responses EmptyString
  | None => EmptyString
  end.

(** Reading the first content block of a reply:
    [response.content[0].type === 'text' ? response.content[0].text : ''];
    on an empty content array the property access throws. *)
Definition firstText (blocks : list ContentBlock) : M string :=
  match blocks with
  | TextBlock t :: _ => ret t
  | OtherBlock :: _ => ret EmptyString
  | [] => throw (JsError "Cannot read properties of undefined (reading 'type')")
  end.

(** *** Parsing the moderator's verdict *)

(** [content.match(/CONSENSUS:\s*(YES|NO)/i)], the first group. *)
Definition consensusMatch (content : string) : option string :=
  Js.search (fun s =>
    match Js.afterLiteral Js.eqIgnoreCase "CONSENSUS:" s with
    | Some rest =>
        let r := Js.skipWhiteSpace rest in
        if Js.startsWithBy Js.eqIgnoreCase r "YES" then Some (Js.take 3 r)
        else if Js.startsWithBy Js.eqIgnoreCase r "NO" then Some (Js.take 2 r)
        else None
    | None => None
    end) content.

(** [content.match(/AGREEMENT_LEVEL:\s*(\d+)/)], the first group. *)
Definition agreementLevelMatch (content : string) : option string :=
  Js.search (fun s =>
    match Js.afterLiteral Ascii.eqb "AGREEMENT_LEVEL:" s with
    | Some rest =>
        let d := Js.digitRun (Js.skipWhiteSpace rest) in
        if Js.truthy d then Some d else None
    | None => None
    end) content.

(** [content.match(/label([\s\S]*?)(?=stop|$)/)], the first group. *)
Definition sectionMatch (label stop : string) (content : string) : option string :=
  Js.search (fun s =>
    match Js.afterLiteral Ascii.eqb label s with
    | Some rest => Some (Js.lazyUntil stop rest)
    | None => None
    end) content.

(** [content.match(/label([\s\S]*?)$/)], the first group. *)
Definition tailMatch (label : string) (content : string) : option string :=
  Js.search (Js.afterLiteral Ascii.eqb label) content.

Definition agreementsMatch := sectionMatch "AGREEMENTS:" "DISAGREEMENTS:".
Definition disagreementsMatch := sectionMatch "DISAGREEMENTS:" "MAJORITY_VIEW:".
Definition majorityViewMatch := sectionMatch "MAJORITY_VIEW:" "MINORITY_VIEWS:".
Definition minorityViewsMatch := tailMatch "MINORITY_VIEWS:".

Definition parseList (text : string) : list string :=
  map (fun line => Js.trim (Js.substringFrom 1 (Js.trim line)))
      (filter (fun line => Js.startsWith (Js.trim line) "-" = true)
              (Js.splitLines text)).

(** The object built from the reply text at the end of [analyzeConsensus].
    [agreementLevel] is the exact quotient; the rounding of the division
    in floating point is not modelled. *)
Definition parseConsensus (content : string) : ConsensusAnalysis.t :=
  {| ConsensusAnalysis.consensusReached :=
       match consensusMatch content with
       | Some g => String.eqb (Js.toUpperCase g) "YES"
       | None => false
       end;
     ConsensusAnalysis.agreementLevel :=
       match agreementLevelMatch content with
       | Some g => (Z.of_N (Js.parseInt g) # 100)%Q
       | None => 0%Q
       end;
     ConsensusAnalysis.agreements :=
       match agreementsMatch content with
       | Some g => parseList g
       | None => []
       end;
     ConsensusAnalysis.disagreements :=
       match disagreementsMatch content with
       | Some g => parseList g
       | None => []
       end;
     ConsensusAnalysis.majorityView := Js.trim <$> majorityViewMatch content;
     ConsensusAnalysis.minorityViews :=
       (fun g => [Js.trim g]) <$> minorityViewsMatch content |}.

(** The verdict returned when fewer than three advisors have spoken. *)
Definition noConsensus : ConsensusAnalysis.t :=
  {| ConsensusAnalysis.consensusReached := false;
     ConsensusAnalysis.agreementLevel := 0%Q;
     ConsensusAnalysis.agreements := [];
     ConsensusAnalysis.disagreements := [];
     ConsensusAnalysis.majorityView := None;
     ConsensusAnalysis.minorityViews := None |}.

(** [Math.round] on a non-negative rational. *)
Definition Math_round (q : Q) : nat := Z.to_nat (Qfloor (q + (1 # 2))%Q).

(** *** The methods of [CouncilOrchestrator] *)

Section Methods.

Variable llm : Oracle.
Variable this : CouncilOrchestrator.t.

Let selectedAdvisors := CouncilOrchestrator.selectedAdvisors this.

(** [await this.client.messages.create({ ..., stream: false })] *)
Definition createMessage (r : CompletionRequest) : M (list ContentBlock) := fun n =>
  match messages_create llm n r with
  | Replied blocks => (Ok blocks, [Requested r], S n)
  | Rejected e => (Throw e, [Requested r], S n)
  end.

(** [await this.client.messages.create({ ..., stream: true })]: the
    stream is handed over with the request; its items are read by
    [readStream]. *)
Definition createStream (r : CompletionRequest) : M StreamReply := fun n =>
  (Ok (messages_stream llm n r), [Requested r], S n).

(** [await this.tavilyClient.search({ query, max_results: 3, search_depth: 'basic' })] *)
Definition tavilySearch (query : string) : M (option (list TavilyResult)) := fun n =>
  match tavily_search llm n query with
  | Found results => (Ok results, [Searched query], S n)
  | SearchFailed e => (Throw e, [Searched query], S n)
  end.

Definition shouldActivateResearch (question : string) : bool :=
  if negb (CouncilOrchestrator.tavilyClient this) then false
  else if CouncilOrchestrator.userEnabledResearch this then true
  else
    let lowerQuestion := Js.toLowerCase question in
    existsb (fun keyword => Js.includes lowerQuestion keyword) researchKeywords.

Definition toResearchResult (result : TavilyResult) : ResearchResult :=
  {| title := Js.orElse (default EmptyString (raw_title result)) "Untitled";
     url := default EmptyString (raw_url result);
     snippet := default EmptyString (raw_content result) |}.

Definition performResearch (query : string) : M (list ResearchResult) :=
  if CouncilOrchestrator.enableResearch this && negb (CouncilOrchestrator.tavilyClient this) then
    emit (event system None
      (Some "Research requested but TAVILY_API_KEY not configured. Get your free API key at https://tavily.com")) ;;
    ret []
  else if negb (CouncilOrchestrator.enableResearch this) || negb (CouncilOrchestrator.tavilyClient this) then
    ret []
  else
    try_catch
      (emit (event research_start None (Some ("Searching for: " +++ query))) ;;
       do response <- tavilySearch query;
       let results := default [] (map toResearchResult <$> response) in
       emit (event research_complete None None) ;;
       ret results)
      (fun _ =>
         emit (event research_complete None None) ;;
         ret []).

Definition createInitialState (userQuestion : string) : DebateState :=
  {| messages := [ {| role := role_user; content := userQuestion; round := None |} ];
     currentRound := 0;
     maxRounds := CouncilOrchestrator.maxRounds this;
     consensusReached := false;
     needsClarification := false;
     clarificationQuestion := None;
     agentResponses :=
       fold_left (fun acc advisor => <[advisor := []]> acc) selectedAdvisors ∅;
     finalAnswer := None;
     researchResults := None |}.

(** [buildAdvisorContext] *)
Definition buildAdvisorContext (state : DebateState) (currentAdvisor : AdvisorName) : string :=
  let otherAdvisors :=
    filter (fun name => name <> currentAdvisor) selectedAdvisors in
  fold_left
    (fun context advisor =>
       match agentResponses state !! advisor with
       | Some (r :: rs) =>
           context +++ "**" +++ personaName (advisorKey advisor) +++ "**: "
             +++ List.last (r :: rs) EmptyString +++ Js.NL +++ Js.NL
       | _ => context
       end)
    otherAdvisors EmptyString.

(** The [researchContext] of [getAdvisorResponse]. *)
Definition researchContext (state : DebateState) : string :=
  match researchResults state with
  | Some (r :: rs) =>
      Js.NL +++ Js.NL
      +++ "**RESEARCH FINDINGS** (cite these sources in your response):" +++ Js.NL
      +++ Js.join (Js.NL +++ Js.NL)
            (imap (fun i r =>
                     "[" +++ Js.numToString (i + 1) +++ "] " +++ title r +++ Js.NL
                     +++ "   Source: " +++ url r +++ Js.NL
                     +++ "   " +++ snippet r)
                  (r :: rs))
      +++ Js.NL +++ Js.NL
      +++ "IMPORTANT: When using research findings, cite them like "
      +++ Js.DQ +++ "[1]" +++ Js.DQ +++ " or " +++ Js.DQ +++ "according to [2]" +++ Js.DQ
  | _ => EmptyString
  end.

(** The content of the only message of [contextMessages]. *)
Definition advisorPrompt (advisorName : AdvisorName) (state : DebateState) : string :=
  let userQuestion := userQuestionOf state in
  let researchContext := researchContext state in
  "You are participating in an AI council debate. The user has asked:"
  +++ Js.NL +++ Js.NL +++ Js.DQ +++ userQuestion +++ Js.DQ +++ researchContext
  +++ Js.NL +++ Js.NL
  +++ (if currentRound state =? 0 then
         "This is Round 1. Provide your initial perspective on this question based on your expertise and thinking framework."
         +++ (if Js.truthy researchContext
              then " Use the research findings above and cite sources with [1], [2], etc."
              else EmptyString)
       else
         "This is Round " +++ Js.numToString (currentRound state + 1)
         +++ ". Here's what other advisors have said:" +++ Js.NL +++ Js.NL
         +++ buildAdvisorContext state advisorName
         +++ Js.NL +++ Js.NL
         +++ "Provide your response, addressing points of agreement or disagreement with other advisors if relevant."
         +++ (if Js.truthy researchContext
              then " Continue citing research sources with [1], [2], etc."
              else EmptyString)).

(** [for await (const event of response)]: the text of every text delta
    is added to [fullContent] and passed to [onStream]; a failure of the
    stream is thrown after the items received before it. *)
Fixpoint readStream (onStream : string -> M unit) (its : list StreamItem)
    (end_ : option Thrown) (fullContent : string) : M string :=
  match its with
  | TextDelta t :: rest =>
      onStream t ;; readStream onStream rest end_ (fullContent +++ t)
  | OtherItem :: rest => readStream onStream rest end_ fullContent
  | [] =>
      match end_ with
      | Some e => throw e
      | None => ret fullContent
      end
  end.

(** [getAdvisorResponse]; the result is the [response] field of the
    returned object. *)
Definition advisorRequest (advisorName : AdvisorName) (state : DebateState)
    (stream : bool) : CompletionRequest :=
  {| req_model := CouncilOrchestrator.model this;
     req_max_tokens := 250;
     req_system := advisorKey advisorName;
     req_prompt := advisorPrompt advisorName state;
     req_stream := stream |}.

Definition getAdvisorResponse (advisorName : AdvisorName) (state : DebateState)
    (onStream : option (string -> M unit)) : M string :=
  match onStream with
  | Some onStream =>
      do response <- createStream (advisorRequest advisorName state true);
      readStream onStream (items response) (failure response) EmptyString
  | None =>
      do response <- createMessage (advisorRequest advisorName state false);
      firstText response
  end.

(** The [latestResponses] of [analyzeConsensus] and [generateFinalAnswer]. *)
Definition latestResponses (state : DebateState) : list (string * string) :=
  filter (fun r => 0 < String.length r.2)
    (map (fun name => (personaName (advisorKey name), latestResponse state name))
         selectedAdvisors).

Definition renderResponses (rs : list (string * string)) : string :=
  Js.join (Js.NL +++ "---" +++ Js.NL)
    (map (fun r => r.1 +++ ":" +++ Js.NL +++ r.2 +++ Js.NL) rs).

Definition analysisPrompt (state : DebateState) : string :=
  "Analyze the following advisor responses to determine if consensus has been reached." +++ Js.NL
  +++ Js.NL
  +++ "User Question: " +++ Js.DQ +++ userQuestionOf state +++ Js.DQ +++ Js.NL
  +++ Js.NL
  +++ "Advisor Responses:" +++ Js.NL
  +++ renderResponses (latestResponses state) +++ Js.NL
  +++ Js.NL
  +++ "Determine:" +++ Js.NL
  +++ "1. Is there consensus on the core answer/recommendation? (3+ advisors must agree on the fundamental answer)" +++ Js.NL
  +++ "2. What are the key points of agreement?" +++ Js.NL
  +++ "3. What are the key points of disagreement?" +++ Js.NL
  +++ "4. What is the majority view?" +++ Js.NL
  +++ "5. Are there minority views worth noting?" +++ Js.NL
  +++ Js.NL
  +++ "Respond in this format:" +++ Js.NL
  +++ "CONSENSUS: [YES/NO]" +++ Js.NL
  +++ "AGREEMENT_LEVEL: [0-100]" +++ Js.NL
  +++ "AGREEMENTS:" +++ Js.NL
  +++ "- [point 1]" +++ Js.NL
  +++ "- [point 2]" +++ Js.NL
  +++ "DISAGREEMENTS:" +++ Js.NL
  +++ "- [point 1]" +++ Js.NL
  +++ "- [point 2]" +++ Js.NL
  +++ "MAJORITY_VIEW: [summary]" +++ Js.NL
  +++ "MINORITY_VIEWS: [summary if any]".

Definition analysisRequest (state : DebateState) : CompletionRequest :=
  {| req_model := CouncilOrchestrator.model this;
     req_max_tokens := 1000;
     req_system := moderator;
     req_prompt := analysisPrompt state;
     req_stream := false |}.

Definition analyzeConsensus (state : DebateState) : M ConsensusAnalysis.t :=
  if List.length (latestResponses state) <? 3 then ret noConsensus
  else
    do response <- createMessage (analysisRequest state);
    do content <- firstText response;
    ret (parseConsensus content).

Definition finalPrompt (state : DebateState) (consensus : ConsensusAnalysis.t) : string :=
  "Synthesize a final answer to the user's question based on the council's debate." +++ Js.NL
  +++ Js.NL
  +++ "User Question: " +++ Js.DQ +++ userQuestionOf state +++ Js.DQ +++ Js.NL
  +++ Js.NL
  +++ "Consensus Analysis:" +++ Js.NL
  +++ "- Consensus Reached: "
  +++ (if ConsensusAnalysis.consensusReached consensus then "Yes" else "No") +++ Js.NL
  +++ "- Agreement Level: "
  +++ Js.numToString (Math_round (ConsensusAnalysis.agreementLevel consensus * inject_Z 100)%Q)
  +++ "%" +++ Js.NL
  +++ "- Key Agreements: " +++ Js.join "; " (ConsensusAnalysis.agreements consensus) +++ Js.NL
  +++ "- Key Disagreements: " +++ Js.join "; " (ConsensusAnalysis.disagreements consensus) +++ Js.NL
  +++ Js.NL
  +++ "Advisor Perspectives:" +++ Js.NL
  +++ renderResponses (latestResponses state) +++ Js.NL
  +++ Js.NL
  +++ "Provide a clear, actionable final answer that:" +++ Js.NL
  +++ "1. Directly answers the user's question" +++ Js.NL
  +++ "2. Incorporates the collective wisdom of the council" +++ Js.NL
  +++ "3. Highlights key insights and recommendations" +++ Js.NL
  +++ "4. Notes any important caveats or alternative perspectives" +++ Js.NL
  +++ "5. Is structured and easy to follow" +++ Js.NL
  +++ Js.NL
  +++ (if ConsensusAnalysis.consensusReached consensus
       then "The advisors have reached consensus, so present a unified recommendation."
       else "The advisors have not fully agreed, so present the majority view while acknowledging alternative perspectives.").

Definition finalRequest (state : DebateState) (consensus : ConsensusAnalysis.t)
    : CompletionRequest :=
  {| req_model := CouncilOrchestrator.model this;
     req_max_tokens := 1500;
     req_system := moderator;
     req_prompt := finalPrompt state consensus;
     req_stream := false |}.

Definition generateFinalAnswer (state : DebateState) (consensus : ConsensusAnalysis.t) : M string :=
  do response <- createMessage (finalRequest state consensus);
  firstText response.

(** The body of the loop of [runDebateRound] for one advisor, from the
    values of [newState] and [successfulResponses] before the turn to
    their values after it. Nothing that follows the [push] can throw, so
    the handler finds both as they were before the turn. *)
Definition advisorTurn (advisorName : AdvisorName) (acc : DebateState * nat)
    : M (DebateState * nat) :=
  let '(newState, successfulResponses) := acc in
  try_catch
    (let advisorDisplayName :=
       Js.orElse (personaName (advisorKey advisorName)) (advisorId advisorName) in
     emit (event status None (Some (advisorDisplayName +++ " is thinking..."))) ;;
     emit (event agent_start (Some advisorName) None) ;;
     do response <-
       getAdvisorResponse advisorName newState
         (Some (fun chunk => emit (event agent_response (Some advisorName) (Some chunk))));
     do acc' <-
       (if Js.truthy response then
          match agentResponses newState !! advisorName with
          | Some responses =>
              ret (set_agentResponses
                     (<[advisorName := responses ++ [response]]> (agentResponses newState))
                     newState,
                   S successfulResponses)
          | None =>
              throw (JsError "Cannot read properties of undefined (reading 'push')")
          end
        else ret (newState, successfulResponses));
     emit (event agent_complete (Some advisorName) None) ;;
     ret acc')
    (fun caught =>
       emit (event error None
               (Some (advisorId advisorName +++ " failed to respond: "
                      +++ messageOr "Unknown error" caught))) ;;
       ret (newState, successfulResponses)).

(** The loop of [runDebateRound]: the state and the number of successful
    responses after every selected advisor had its turn. *)
Definition advisorTurns (state : DebateState) : M (DebateState * nat) :=
  forEach advisorTurn selectedAdvisors
    (set_currentRound (currentRound state + 1) state, 0).

Definition insufficient (successfulResponses : nat) : Thrown :=
  JsError ("Insufficient advisor responses: only "
           +++ Js.numToString successfulResponses +++ " succeeded").

Definition runDebateRound (state : DebateState) : M DebateState :=
  do (newState, successfulResponses) <- advisorTurns state;
  if successfulResponses <? 2 then throw (insufficient successfulResponses)
  else ret newState.

Definition modelKey : ClaudeModel :=
  if Js.includes (CouncilOrchestrator.model this) "opus" then claude_opus_4_5
  else if Js.includes (CouncilOrchestrator.model this) "haiku" then claude_haiku_4
  else claude_sonnet_4_5.

Definition modeKey : DebateMode :=
  if CouncilOrchestrator.maxRounds this =? 1 then quick
  else if CouncilOrchestrator.maxRounds this =? 3 then deep
  else standard.

(** How an iteration of the round loop of [runCouncilDebate] ends: with
    the next iteration, or with the [return] of the method. *)
Inductive Step :=
| Continue (state : DebateState)
| Return (state : DebateState) (finalAnswer : string).

(** The body of [for (let round = 0; round < this.maxRounds; round++)]. *)
Definition roundBody (round : nat) (state : DebateState) : M Step :=
  emit (event status None
          (Some ("Round " +++ Js.numToString (round + 1) +++ " of "
                 +++ Js.numToString (CouncilOrchestrator.maxRounds this)))) ;;
  emit (event moderator_analysis None
          (Some ("Starting Round " +++ Js.numToString (round + 1) +++ "..."))) ;;
  do state <- runDebateRound state;
  if 1 <=? round then
    emit (event status None (Some "Checking for consensus...")) ;;
    emit (event consensus_check None (Some "Analyzing consensus...")) ;;
    do consensus <- analyzeConsensus state;
    if ConsensusAnalysis.consensusReached consensus then
      emit (event status None (Some "Generating final consensus...")) ;;
      emit (event moderator_analysis None
              (Some "Consensus reached! Generating final answer...")) ;;
      do finalAnswer <- generateFinalAnswer state consensus;
      let state := set_finalAnswer finalAnswer (set_consensusReached true state) in
      emit (event final_answer None (Some finalAnswer)) ;;
      ret (Return state finalAnswer)
    else ret (Continue state)
  else ret (Continue state).

(** The round loop with [remaining] iterations to go, the next one
    numbered [round]. *)
Fixpoint debateLoop (remaining round : nat) (state : DebateState) : M Step :=
  match remaining with
  | 0 => ret (Continue state)
  | S remaining' =>
      do step <- roundBody round state;
      match step with
      | Continue state' => debateLoop remaining' (S round) state'
      | Return _ _ => ret step
      end
  end.

(** The part of [runCouncilDebate] before the round loop: the initial
    state, the cost estimate and the research. *)
Definition prepareDebate (userQuestion : string) : M DebateState :=
  let state := createInitialState userQuestion in
  emit {| type := cost_estimate; agent := None; text := None;
          data := Some (CostEstimateOf modelKey modeKey
                          (List.length selectedAdvisors)
                          (CouncilOrchestrator.enableResearch this)) |} ;;
  if shouldActivateResearch userQuestion then
    emit (event status None (Some "Performing web research...")) ;;
    do researchResults <- performResearch userQuestion;
    match researchResults with
    | _ :: _ =>
        emit {| type := research_results; agent := None;
                text := Some ("Found " +++ Js.numToString (List.length researchResults)
                              +++ " relevant sources");
                data := Some (Sources researchResults) |} ;;
        ret (set_researchResults researchResults state)
    | [] => ret state
    end
  else ret state.

(** The part of [runCouncilDebate] after the round loop. *)
Definition concludeDebate (step : Step) : M (DebateState * string) :=
  match step with
  | Return state finalAnswer => ret (state, finalAnswer)
  | Continue state =>
      emit (event moderator_analysis None
              (Some "Maximum rounds reached. Synthesizing perspectives...")) ;;
      do consensus <- analyzeConsensus state;
      do finalAnswer <- generateFinalAnswer state consensus;
      let state := set_finalAnswer finalAnswer state in
      emit (event final_answer None (Some finalAnswer)) ;;
      ret (state, finalAnswer)
  end.

(** [runCouncilDebate]; neither [conversationHistory] nor [options] is
    read by the method. *)
Definition runCouncilDebate (userQuestion conversationHistory : string)
    : M (DebateState * string) :=
  do state <- prepareDebate userQuestion;
  do step <- debateLoop (CouncilOrchestrator.maxRounds this) 0 state;
  concludeDebate step.

End Methods.

(** ** The route (app/api/council/route.ts) *)

(** The request body accepted by [CouncilDebateRequestSchema]. *)
Record CouncilDebateRequest := {
  question : string;
  conversationHistory : string;
  mode : DebateMode;
  advisors : list AdvisorName;
  model : ClaudeModel;
  enableResearch : bool;
  tavilyKey : option string
}.

(** The constraints of the schema on the fields kept here. *)
Definition validRequest (d : CouncilDebateRequest) : Prop :=
  (1 <= N.of_nat (String.length (question d)) <= 5000)%N /\
  (N.of_nat (String.length (conversationHistory d)) <= 100000)%N /\
  2 <= List.length (advisors d) <= 5 /\
  match tavilyKey d with
  | Some k => Js.startsWith k "tvly-" = true
  | None => True
  end.

Record Env := {
  NODE_ENV_development : bool;
  TAVILY_API_KEY : option string
}.

Definition orchestratorFor (env : Env) (validatedData : CouncilDebateRequest)
    : CouncilOrchestrator.t :=
  CouncilOrchestrator.new
    (Some {| cfg_model := Some (model validatedData);
             cfg_mode := Some (mode validatedData);
             cfg_selectedAdvisors := Some (advisors validatedData);
             cfg_enableResearch := Some (enableResearch validatedData);
             cfg_tavilyApiKey := tavilyKey validatedData |})
    (TAVILY_API_KEY env).

(** The background task started by [POST] once the request is validated:
    the debate, and the error event written when the debate throws. *)
Definition debateTask (llm : Oracle) (env : Env) (validatedData : CouncilDebateRequest)
    : M unit :=
  try_catch
    (runCouncilDebate llm (orchestratorFor env validatedData)
       (question validatedData) (conversationHistory validatedData) ;;
     ret tt)
    (fun caught =>
       emit (event error None
               (Some (getSafeErrorMessage (NODE_ENV_development env) caught)))).

(** The events written to the response stream. *)
Definition responseStream (llm : Oracle) (env : Env) (validatedData : CouncilDebateRequest)
    : list StreamEvent :=
  events (trace (debateTask llm env validatedData 0)).

(** * Security utilities (lib/utils/security.ts) *)

(** ** Rate limiting *)

(** The entries of [rateLimitStore] and the answers of [checkRateLimit]. *)
Record RateLimitEntry := {
  count : Z;
  resetAt : Z
}.

Abbreviation RateLimitStore := (gmap string RateLimitEntry).

Record RateLimit := {
  allowed : bool;
  remaining : Z;
  limitResetAt : Z   (* the [resetAt] field of the answer *)
}.

(** [checkRateLimit]. The store is passed in and returned; [now] is the
    value of [Date.now()] and [sweep] tells whether [Math.random() < 0.01]
    held. The keys of the store all start with [ratelimit:], so none of
    them is a property that an empty object inherits. *)
Definition checkRateLimit (now : Z) (sweep : bool)
    (identifier : string) (maxRequests windowMs : Z)
    (rateLimitStore : RateLimitStore) : RateLimit * RateLimitStore :=
  let key := "ratelimit:" +++ identifier in
  (* Clean up expired entries periodically *)
  let rateLimitStore :=
    if sweep
    then filter (fun kv : string * RateLimitEntry => ~ (resetAt kv.2 < now)%Z)
           rateLimitStore
    else rateLimitStore in
  (* Get or create rate limit entry *)
  let rateLimitStore :=
    match rateLimitStore !! key with
    | Some entry =>
        if (resetAt entry <? now)%Z
        then <[key := {| count := 0; resetAt := (now + windowMs)%Z |}]> rateLimitStore
        else rateLimitStore
    | None => <[key := {| count := 0; resetAt := (now + windowMs)%Z |}]> rateLimitStore
    end in
  match rateLimitStore !! key with
  | Some entry =>
      let entry := {| count := (count entry + 1)%Z; resetAt := resetAt entry |} in
      ({| allowed := (count entry <=? maxRequests)%Z;
          remaining := Z.max 0 (maxRequests - count entry)%Z;
          limitResetAt := resetAt entry |},
       <[key := entry]> rateLimitStore)
  | None =>
      (* not reached: the entry was just made *)
      ({| allowed := false; remaining := 0; limitResetAt := now |}, rateLimitStore)
  end.

(** ** Input sanitization *)

(** [input.replace(/[<>]/g, '')] *)
Fixpoint removeAngleBrackets (input : string) : string :=
  match input with
  | EmptyString => EmptyString
  | String c rest =>
      if Ascii.eqb c "<"%char || Ascii.eqb c ">"%char
      then removeAngleBrackets rest
      else String c (removeAngleBrackets rest)
  end.

Definition sanitizeInput (input : string) : string :=
  Js.take (N.to_nat 10000) (Js.trim (removeAngleBrackets input)).

(** ** Secure comparison *)

(** [s.charCodeAt(i)] *)
Definition charCodeOf (c : ascii) : Z := Z.of_N (N_of_ascii c).

(** The loop of [secureCompare] from the index at which [a] and [b]
    start here; beyond the end of [b], [charCodeAt] is [NaN], which the
    bit operations read as 0. The codes are below [2^16], so the 32-bit
    operations of JavaScript are those of [Z]. *)
Fixpoint secureCompareFrom (a b : string) (result : Z) : Z :=
  match a with
  | EmptyString => result
  | String x a' =>
      match b with
      | String y b' =>
          secureCompareFrom a' b' (Z.lor result (Z.lxor (charCodeOf x) (charCodeOf y)))
      | EmptyString =>
          secureCompareFrom a' EmptyString (Z.lor result (Z.lxor (charCodeOf x) 0))
      end
  end.

Definition secureCompare (a b : string) : bool :=
  if negb (String.length a =? String.length b) then false
  else (secureCompareFrom a b 0 =? 0)%Z.

(** * The cost estimate (lib/utils/cost-calculator.ts) *)

Module AVG_TOKENS.
Definition userQuestion : Z := 50.
Definition advisorResponse : Z := 250.
Definition researchContext : Z := 300.
Definition moderatorAnalysis : Z := 500.
Definition finalAnswer : Z := 800.
End AVG_TOKENS.

(** The [rounds] of [estimateDebateCost]. *)
Definition estimatedRounds (mode : DebateMode) : nat :=
  match mode with quick => 1 | standard => 2 | deep => 3 end.

(** [estimateDebateCost]: the two token counts of the estimate. They do
    not depend on the model. The costs, which are computed from the
    counts and the price table in floating point, are not modelled. *)
Definition estimatedInputTokens (mode : DebateMode) (advisorCount : Z)
    (enableResearch : bool) : Z :=
  let rounds := estimatedRounds mode in
  let inputTokens := AVG_TOKENS.userQuestion in
  let advisorInputPerRound :=
    (AVG_TOKENS.userQuestion
     + (if enableResearch then AVG_TOKENS.researchContext else 0)
     + 100)%Z in
  let contextGrowth := ((advisorCount - 1) * AVG_TOKENS.advisorResponse)%Z in
  let inputTokens :=
    fold_left
      (fun inputTokens round =>
         let contextSize := if round =? 0 then 0%Z else contextGrowth in
         (inputTokens + advisorCount * (advisorInputPerRound + contextSize))%Z)
      (seq 0 rounds) inputTokens in
  let inputTokens :=
    (inputTokens
     + (advisorCount * AVG_TOKENS.advisorResponse + AVG_TOKENS.userQuestion))%Z in
  let inputTokens :=
    (inputTokens
     + (advisorCount * AVG_TOKENS.advisorResponse + AVG_TOKENS.moderatorAnalysis))%Z in
  inputTokens.

Definition estimatedOutputTokens (mode : DebateMode) (advisorCount : Z) : Z :=
  let rounds := Z.of_nat (estimatedRounds mode) in
  let advisorOutputTokens := (advisorCount * rounds * AVG_TOKENS.advisorResponse)%Z in
  let moderatorOutputTokens := AVG_TOKENS.moderatorAnalysis in
  let finalAnswerTokens := AVG_TOKENS.finalAnswer in
  (advisorOutputTokens + moderatorOutputTokens + finalAnswerTokens)%Z.


(** ** The store of the client (lib/stores/debate-store.ts)

    The store of the browser is fed with the events of the response
    stream, one call of [handleStreamEvent] for each. The state is
    passed explicitly. Of the state the fields that [handleStreamEvent]
    writes are kept, but for [toasts]: [showToast] names a toast after
    the clock and removes it on a timer. As the events carry no
    [timestamp] here, the messages carry neither [id] nor [timestamp].
    The update in place of the last message ([lastMessage.content +=],
    [lastMessage.isStreaming = false]) is made on the message list of the
    new state. *)

Module MessageType.
Inductive t :=
| user | agent | moderator | system | final | error | interruption.
End MessageType.

Module DebateStore.

Record Message := {
  type : MessageType.t;
  agent : option AdvisorName;
  content : string;
  isStreaming : option bool;
  rating : option Z;
  sources : option (list ResearchResult)
}.

Record DebateState := {
  messages : list Message;
  currentRound : N;
  isResearching : bool;
  researchQuery : string;
  currentStatus : string;
  statusHistory : list string
}.

End DebateStore.

#[global] Instance MessageType_eq_dec : EqDecision MessageType.t.
Proof. solve_decision. Defined.

(** A message with the fields every message has. *)
Definition plainMessage (t : MessageType.t) (content : string)
    : DebateStore.Message :=
  {| DebateStore.type := t; DebateStore.agent := None;
     DebateStore.content := content; DebateStore.isStreaming := None;
     DebateStore.rating := None; DebateStore.sources := None |}.

Definition set_messages (f : list DebateStore.Message -> list DebateStore.Message)
    (state : DebateStore.DebateState) : DebateStore.DebateState :=
  {| DebateStore.messages := f (DebateStore.messages state);
     DebateStore.currentRound := DebateStore.currentRound state;
     DebateStore.isResearching := DebateStore.isResearching state;
     DebateStore.researchQuery := DebateStore.researchQuery state;
     DebateStore.currentStatus := DebateStore.currentStatus state;
     DebateStore.statusHistory := DebateStore.statusHistory state |}.

Definition setCurrentRound (round : N) (state : DebateStore.DebateState)
    : DebateStore.DebateState :=
  {| DebateStore.messages := DebateStore.messages state;
     DebateStore.currentRound := round;
     DebateStore.isResearching := DebateStore.isResearching state;
     DebateStore.researchQuery := DebateStore.researchQuery state;
     DebateStore.currentStatus := DebateStore.currentStatus state;
     DebateStore.statusHistory := DebateStore.statusHistory state |}.

Definition setResearch (isResearching : bool) (researchQuery : string)
    (state : DebateStore.DebateState) : DebateStore.DebateState :=
  {| DebateStore.messages := DebateStore.messages state;
     DebateStore.currentRound := DebateStore.currentRound state;
     DebateStore.isResearching := isResearching;
     DebateStore.researchQuery := researchQuery;
     DebateStore.currentStatus := DebateStore.currentStatus state;
     DebateStore.statusHistory := DebateStore.statusHistory state |}.

Definition setCurrentStatus (currentStatus : string) (state : DebateStore.DebateState)
    : DebateStore.DebateState :=
  {| DebateStore.messages := DebateStore.messages state;
     DebateStore.currentRound := DebateStore.currentRound state;
     DebateStore.isResearching := DebateStore.isResearching state;
     DebateStore.researchQuery := DebateStore.researchQuery state;
     DebateStore.currentStatus := currentStatus;
     DebateStore.statusHistory := DebateStore.statusHistory state ++ [currentStatus] |}.

Definition addMessage (message : DebateStore.Message) : DebateStore.DebateState ->
    DebateStore.DebateState :=
  set_messages (fun messages => messages ++ [message]).

(** [messages[messages.length - 1] = update(lastMessage)] when there is
    a last message. *)
Fixpoint onLastMessage (update : DebateStore.Message -> DebateStore.Message)
    (messages : list DebateStore.Message) : list DebateStore.Message :=
  match messages with
  | [] => []
  | [lastMessage] => [update lastMessage]
  | message :: rest => message :: onLastMessage update rest
  end.

Definition appendContent (agent : AdvisorName) (chunk : string)
    (lastMessage : DebateStore.Message) : DebateStore.Message :=
  if bool_decide (DebateStore.agent lastMessage = Some agent)
     && bool_decide (DebateStore.isStreaming lastMessage = Some true)
  then {| DebateStore.type := DebateStore.type lastMessage;
          DebateStore.agent := DebateStore.agent lastMessage;
          DebateStore.content := DebateStore.content lastMessage +++ chunk;
          DebateStore.isStreaming := DebateStore.isStreaming lastMessage;
          DebateStore.rating := DebateStore.rating lastMessage;
          DebateStore.sources := DebateStore.sources lastMessage |}
  else lastMessage.

Definition stopStreaming (lastMessage : DebateStore.Message) : DebateStore.Message :=
  if bool_decide (DebateStore.isStreaming lastMessage = Some true)
  then {| DebateStore.type := DebateStore.type lastMessage;
          DebateStore.agent := DebateStore.agent lastMessage;
          DebateStore.content := DebateStore.content lastMessage;
          DebateStore.isStreaming := Some false;
          DebateStore.rating := DebateStore.rating lastMessage;
          DebateStore.sources := DebateStore.sources lastMessage |}
  else lastMessage.

(** [content.match(/Round (\d+)/)], the first group. *)
Definition roundMatch (content : string) : option string :=
  Js.search (fun s =>
    match Js.afterLiteral Ascii.eqb "Round " s with
    | Some rest =>
        let d := Js.digitRun rest in
        if Js.truthy d then Some d else None
    | None => None
    end) content.

(** The [content] of an event when it is truthy. *)
Definition truthyContent (event : StreamEvent) : option string :=
  match text event with
  | Some content => if Js.truthy content then Some content else None
  | None => None
  end.

Definition handleStreamEvent (event : StreamEvent) (state : DebateStore.DebateState)
    : DebateStore.DebateState :=
  match type event with
  | research_start =>
      setResearch true
        (Js.orElse (default EmptyString (text event)) "Searching...") state
  | research_complete => setResearch false EmptyString state
  | research_results =>
      match data event with
      | Some (Sources (source :: rest)) =>
          addMessage
            {| DebateStore.type := MessageType.system;
               DebateStore.agent := None;
               DebateStore.content :=
                 Js.orElse (default EmptyString (text event)) "Research complete";
               DebateStore.isStreaming := None;
               DebateStore.rating := None;
               DebateStore.sources := Some (source :: rest) |} state
      | _ => state
      end
  | agent_start =>
      match agent event with
      | Some agent =>
          addMessage
            {| DebateStore.type := MessageType.agent;
               DebateStore.agent := Some agent;
               DebateStore.content := EmptyString;
               DebateStore.isStreaming := Some true;
               DebateStore.rating := Some 0%Z;
               DebateStore.sources := None |} state
      | None => state
      end
  | agent_response =>
      match agent event, truthyContent event with
      | Some agent, Some content =>
          set_messages (onLastMessage (appendContent agent content)) state
      | _, _ => state
      end
  | agent_complete => set_messages (onLastMessage stopStreaming) state
  | moderator_analysis =>
      match truthyContent event with
      | Some content =>
          let state :=
            if Js.includes content "Round" then
              match roundMatch content with
              | Some group => setCurrentRound (Js.parseInt group) state
              | None => state
              end
            else state in
          addMessage (plainMessage MessageType.moderator content) state
      | None => state
      end
  | clarification_needed =>
      match truthyContent event with
      | Some content => addMessage (plainMessage MessageType.moderator content) state
      | None => state
      end
  | system =>
      match truthyContent event with
      | Some content => addMessage (plainMessage MessageType.system content) state
      | None => state
      end
  | final_answer =>
      match truthyContent event with
      | Some content => addMessage (plainMessage MessageType.final content) state
      | None => state
      end
  | status =>
      match truthyContent event with
      | Some content => setCurrentStatus content state
      | None => state
      end
  | error =>
      match truthyContent event with
      | Some content => addMessage (plainMessage MessageType.error content) state
      | None => state
      end
  | consensus_check | cost_estimate | cost_actual => state
  end.

(** The store after the events of a stream were handled one after the
    other, as the callback given to [startDebate] does. *)
Definition handleStream (events : list StreamEvent) (state : DebateStore.DebateState)
    : DebateStore.DebateState :=
  fold_left (fun state event => handleStreamEvent event state) events state.

(** * The vocabulary of the properties *)

(** A result with a trace put in front of its own. *)
Definition prefixed {A} (t : list Obs) (r : Outcome A * list Obs * nat)
    : Outcome A * list Obs * nat :=
  (outcome r, t ++ trace r, calls r).

(** The texts of the text deltas of a stream, and their concatenation. *)
Definition deltas (its : list StreamItem) : list string :=
  omap (fun i => match i with TextDelta t => Some t | OtherItem => None end) its.

Definition fullText (its : list StreamItem) : string :=
  fold_left String.append (deltas its) EmptyString.

Definition countEvents (t : EventType) (evs : list StreamEvent) : nat :=
  List.length (filter (fun e => type e = t) evs).

(** The event that opens round [k]. *)
Definition roundStart (k : nat) : StreamEvent :=
  event moderator_analysis None (Some ("Starting Round " +++ Js.numToString k +++ "...")).

Definition isRoundStart (e : StreamEvent) : bool :=
  bool_decide (type e = moderator_analysis) &&
  match text e with
  | Some c => Js.startsWith c "Starting Round "
  | None => false
  end.

Definition roundsStarted (evs : list StreamEvent) : nat :=
  List.length (filter (fun e => isRoundStart e = true) evs).

(** The requests of the consensus analyzer and of the final synthesis are
    told apart from the advisors' by their token limits. *)
Definition isAnalysisRequest (r : CompletionRequest) : bool :=
  bool_decide (req_system r = moderator) && (req_max_tokens r =? 1000).

Definition maxRoundsReached : StreamEvent :=
  event moderator_analysis None
    (Some "Maximum rounds reached. Synthesizing perspectives...").

(** The notice written when an advisor's turn throws. *)
Definition advisorNotice (a : AdvisorName) (caught : Thrown) : StreamEvent :=
  event error None
    (Some (advisorId a +++ " failed to respond: " +++ messageOr "Unknown error" caught)).

Definition isAdvisorNotice (e : StreamEvent) : Prop :=
  exists a caught, e = advisorNotice a caught.

Definition totalResponses (r : AgentResponses) : nat :=
  list_sum (map (fun a => List.length (default [] (r !! a))) ADVISOR_NAMES).

Section Vocabulary.

Variable llm : Oracle.
Variable this : CouncilOrchestrator.t.

Let selectedAdvisors := CouncilOrchestrator.selectedAdvisors this.

(** How the turn of an advisor ends, from the reply of the service to
    the call made as the [n]-th with the state [st]: a response was
    added, the response was empty, or something was thrown. *)
Inductive TurnEnd :=
| Succeeded (response : string)
| Empty
| Failed (caught : Thrown).

Definition turnReply (a : AdvisorName) (st : DebateState) (n : nat) : StreamReply :=
  messages_stream llm n (advisorRequest this a st true).

Definition turnEnd (a : AdvisorName) (st : DebateState) (n : nat) : TurnEnd :=
  let reply := turnReply a st n in
  match failure reply with
  | Some e => Failed e
  | None =>
      let response := fullText (items reply) in
      if Js.truthy response then
        match agentResponses st !! a with
        | Some _ => Succeeded response
        | None => Failed (JsError "Cannot read properties of undefined (reading 'push')")
        end
      else Empty
  end.

(** The opening of a turn, the chunk events of a stream and the event
    that closes a turn. *)
Definition turnOpening (a : AdvisorName) : list Obs :=
  [ Emitted (event status None
               (Some (personaName (advisorKey a) +++ " is thinking...")));
    Emitted (event agent_start (Some a) None) ].

Definition chunkEvents (a : AdvisorName) (chunks : list string) : list Obs :=
  map (fun c => Emitted (event agent_response (Some a) (Some c))) chunks.

Definition turnClosing (a : AdvisorName) (e : TurnEnd) : StreamEvent :=
  match e with
  | Succeeded _ | Empty => event agent_complete (Some a) None
  | Failed caught => advisorNotice a caught
  end.

(** The state after a turn that ended with [e], and what the turn adds
    to the number of successful responses. *)
Definition afterTurn (a : AdvisorName) (st : DebateState) (e : TurnEnd) : DebateState :=
  match e with
  | Succeeded response =>
      set_agentResponses
        (<[a := default [] (agentResponses st !! a) ++ [response]]> (agentResponses st))
        st
  | _ => st
  end.

Definition successes (e : TurnEnd) : nat :=
  match e with Succeeded _ => 1 | _ => 0 end.

Definition turnTrace (a : AdvisorName) (st : DebateState) (n : nat) : list Obs :=
  turnOpening a
  ++ Requested (advisorRequest this a st true)
  :: chunkEvents a (deltas (items (turnReply a st n)))
  ++ [Emitted (turnClosing a (turnEnd a st n))].

(** The shape of the trace of a turn. *)
Inductive TurnTrace (a : AdvisorName) : list Obs -> Prop :=
| turn_trace (req : CompletionRequest) (chunks : list string) (closing : StreamEvent) :
    req_system req = advisorKey a ->
    closing = event agent_complete (Some a) None \/
      (exists caught, closing = advisorNotice a caught) ->
    TurnTrace a (turnOpening a ++ Requested req :: chunkEvents a chunks ++ [Emitted closing]).

(** The loop over the advisors as a relation: from the state, the count
    of successful responses and the number of calls before the turns of
    [advisors] to the state and the count after them, with the trace. *)
Inductive Turns : list AdvisorName -> DebateState -> nat -> nat ->
                  DebateState -> nat -> list Obs -> Prop :=
| turns_done st k n : Turns [] st k n st k []
| turns_next a rest st k n st' k' tr :
    Turns rest (afterTurn a st (turnEnd a st n))
          (k + successes (turnEnd a st n)) (S n) st' k' tr ->
    Turns (a :: rest) st k n st' k' (turnTrace a st n ++ tr).

(** The text read from a reply of the completion service, or what is
    thrown instead. *)
Definition replyText (r : CreateReply) : Outcome string :=
  match r with
  | Replied (TextBlock t :: _) => Ok t
  | Replied (OtherBlock :: _) => Ok EmptyString
  | Replied [] => Throw (JsError "Cannot read properties of undefined (reading 'type')")
  | Rejected e => Throw e
  end.

(** The events that open a round, the consensus check and the synthesis
    after a consensus. *)
Definition roundOpening (round : nat) : list Obs :=
  [ Emitted (event status None
               (Some ("Round " +++ Js.numToString (round + 1) +++ " of "
                      +++ Js.numToString (CouncilOrchestrator.maxRounds this))));
    Emitted (roundStart (round + 1)) ].

Definition checkOpening : list Obs :=
  [ Emitted (event status None (Some "Checking for consensus..."));
    Emitted (event consensus_check None (Some "Analyzing consensus...")) ].

Definition synthesisOpening : list Obs :=
  [ Emitted (event status None (Some "Generating final consensus..."));
    Emitted (event moderator_analysis None
               (Some "Consensus reached! Generating final answer...")) ].

(** The runs of the body of the round loop: the outcome, the trace and
    the number of calls after an iteration numbered [round] that starts
    from [st] after [n] calls. *)
Inductive RoundRun (round : nat) (st : DebateState) (n : nat)
    : Outcome Step -> list Obs -> nat -> Prop :=
| round_insufficient st1 c trT :
    Turns selectedAdvisors (set_currentRound (currentRound st + 1) st) 0 n st1 c trT ->
    c < 2 ->
    RoundRun round st n (Throw (insufficient c))
      (roundOpening round ++ trT) (n + List.length selectedAdvisors)
| round_unchecked st1 c trT :
    Turns selectedAdvisors (set_currentRound (currentRound st + 1) st) 0 n st1 c trT ->
    2 <= c ->
    round < 1 ->
    RoundRun round st n (Ok (Continue st1))
      (roundOpening round ++ trT) (n + List.length selectedAdvisors)
| round_analysis_failed st1 c trT e trA nA :
    Turns selectedAdvisors (set_currentRound (currentRound st + 1) st) 0 n st1 c trT ->
    2 <= c ->
    1 <= round ->
    analyzeConsensus llm this st1 (n + List.length selectedAdvisors) = (Throw e, trA, nA) ->
    RoundRun round st n (Throw e)
      (roundOpening round ++ trT ++ checkOpening ++ trA) nA
| round_no_consensus st1 c trT v trA nA :
    Turns selectedAdvisors (set_currentRound (currentRound st + 1) st) 0 n st1 c trT ->
    2 <= c ->
    1 <= round ->
    analyzeConsensus llm this st1 (n + List.length selectedAdvisors) = (Ok v, trA, nA) ->
    ConsensusAnalysis.consensusReached v = false ->
    RoundRun round st n (Ok (Continue st1))
      (roundOpening round ++ trT ++ checkOpening ++ trA) nA
| round_synthesis_failed st1 c trT v trA nA e :
    Turns selectedAdvisors (set_currentRound (currentRound st + 1) st) 0 n st1 c trT ->
    2 <= c ->
    1 <= round ->
    analyzeConsensus llm this st1 (n + List.length selectedAdvisors) = (Ok v, trA, nA) ->
    ConsensusAnalysis.consensusReached v = true ->
    replyText (messages_create llm nA (finalRequest this st1 v)) = Throw e ->
    RoundRun round st n (Throw e)
      (roundOpening round ++ trT ++ checkOpening ++ trA ++ synthesisOpening
       ++ [Requested (finalRequest this st1 v)]) (S nA)
| round_consensus st1 c trT v trA nA answer :
    Turns selectedAdvisors (set_currentRound (currentRound st + 1) st) 0 n st1 c trT ->
    2 <= c ->
    1 <= round ->
    analyzeConsensus llm this st1 (n + List.length selectedAdvisors) = (Ok v, trA, nA) ->
    ConsensusAnalysis.consensusReached v = true ->
    replyText (messages_create llm nA (finalRequest this st1 v)) = Ok answer ->
    RoundRun round st n
      (Ok (Return (set_finalAnswer answer (set_consensusReached true st1)) answer))
      (roundOpening round ++ trT ++ checkOpening ++ trA ++ synthesisOpening
       ++ [Requested (finalRequest this st1 v);
           Emitted (event final_answer None (Some answer))]) (S nA).

(** The runs of the round loop with [remaining] iterations to go: the
    outcome, the traces of the iterations made and the number of calls. *)
Inductive LoopRun : nat -> nat -> DebateState -> nat ->
                    Outcome Step -> list (list Obs) -> nat -> Prop :=
| loop_exhausted round st n :
    LoopRun 0 round st n (Ok (Continue st)) [] n
| loop_continue remaining round st n st1 tr n1 o trs n2 :
    RoundRun round st n (Ok (Continue st1)) tr n1 ->
    LoopRun remaining (S round) st1 n1 o trs n2 ->
    LoopRun (S remaining) round st n o (tr :: trs) n2
| loop_return remaining round st n st1 answer tr n1 :
    RoundRun round st n (Ok (Return st1 answer)) tr n1 ->
    LoopRun (S remaining) round st n (Ok (Return st1 answer)) [tr] n1
| loop_throw remaining round st n e tr n1 :
    RoundRun round st n (Throw e) tr n1 ->
    LoopRun (S remaining) round st n (Throw e) [tr] n1.

(** The states in which the round loop is entered during a debate on
    [userQuestion] that starts with no call made: the iteration
    numbered [round] starts from [st] after [n] calls. *)
Inductive AtRound (userQuestion : string) : nat -> DebateState -> nat -> Prop :=
| at_first st tr n :
    prepareDebate llm this userQuestion 0 = (Ok st, tr, n) ->
    AtRound userQuestion 0 st n
| at_next round st n st1 tr n1 :
    AtRound userQuestion round st n ->
    S round < CouncilOrchestrator.maxRounds this ->
    roundBody llm this round st n = (Ok (Continue st1), tr, n1) ->
    AtRound userQuestion (S round) st1 n1.

(** The debate from the iteration numbered [round] on, with [remaining]
    iterations to go. *)
Definition afterRounds (remaining round : nat) (st : DebateState)
    : M (DebateState * string) :=
  do step <- debateLoop llm this remaining round st;
  concludeDebate llm this step.

(** The end of the debate after the round loop ended with [o]. *)
Definition conclusion (o : Outcome Step) (n : nat)
    : Outcome (DebateState * string) * list Obs * nat :=
  match o with
  | Ok step => concludeDebate llm this step n
  | Throw e => (Throw e, [], n)
  end.

End Vocabulary.

(** The state held when an iteration of the round loop ends. *)
Definition stepState (step : Step) : DebateState :=
  match step with
  | Continue state => state
  | Return state _ => state
  end.

(** The event written by the route when the debate throws. *)
Definition fatalEvent (env : Env) (caught : Thrown) : StreamEvent :=
  event error None (Some (getSafeErrorMessage (NODE_ENV_development env) caught)).

(** ** Shapes of event streams *)

Definition isAgentEvent (e : StreamEvent) : Prop :=
  type e = agent_start \/ type e = agent_response \/ type e = agent_complete.

(** The events of no advisor and of no consensus check. *)
Definition isNarration (e : StreamEvent) : Prop :=
  ~ isAgentEvent e /\ type e <> consensus_check.

(** The events of one turn of [a]. *)
Inductive TurnEvents (a : AdvisorName) : list StreamEvent -> Prop :=
| turn_events (chunks : list string) (closing : StreamEvent) :
    closing = event agent_complete (Some a) None \/
      (exists caught, closing = advisorNotice a caught) ->
    TurnEvents a
      (event status None (Some (personaName (advisorKey a) +++ " is thinking..."))
       :: event agent_start (Some a) None
       :: map (fun c => event agent_response (Some a) (Some c)) chunks
       ++ [closing]).

(** The events of round [k] of a debate among [selected] with [limit]
    rounds: the opening, the turns of the advisors one after the other,
    and after them what the moderator does. *)
Inductive RoundEvents (selected : list AdvisorName) (limit : nat) (k : nat)
    : list StreamEvent -> Prop :=
| round_events (blocks : list (list StreamEvent)) (tail : list StreamEvent) :
    Forall2 TurnEvents selected blocks ->
    Forall (fun e => ~ isAgentEvent e) tail ->
    (k < 2 -> tail = []) ->
    RoundEvents selected limit k
      (event status None
         (Some ("Round " +++ Js.numToString k +++ " of " +++ Js.numToString limit))
       :: roundStart k
       :: concat blocks ++ tail).

(** A stream without a final answer in which every error is the notice
    of an advisor's failure. *)
Definition Calm (evs : list StreamEvent) : Prop :=
  Forall (fun e => type e <> final_answer /\ (type e = error -> isAdvisorNotice e)) evs.


(** What the events of a turn can be. *)
Definition isTurnEvent (e : StreamEvent) : Prop :=
  type e = status \/ isAgentEvent e \/ isAdvisorNotice e.

Definition isMaxRoundsReached (e : StreamEvent) : bool :=
  bool_decide (type e = moderator_analysis) &&
  match text e with
  | Some c => String.eqb c "Maximum rounds reached. Synthesizing perspectives..."
  | None => false
  end.

(** A trace read from left to right with a counter that starts at
    [started] and grows by the weight of every item: the items that
    satisfy [P] are met only when the counter is at least two. *)
Fixpoint Guarded (P : Obs -> Prop) (weight : Obs -> nat) (started : nat)
    (tr : list Obs) : Prop :=
  match tr with
  | [] => True
  | o :: rest => (P o -> 2 <= started) /\ Guarded P weight (started + weight o) rest
  end.

Definition totalWeight (weight : Obs -> nat) (tr : list Obs) : nat :=
  list_sum (map weight tr).

(** One for the start of a round. *)
Definition startWeight (o : Obs) : nat :=
  match o with
  | Emitted e => if isRoundStart e then 1 else 0
  | _ => 0
  end.

(** One for the start of a round, two for the end of the round loop. *)
Definition phaseWeight (o : Obs) : nat :=
  match o with
  | Emitted e => if isRoundStart e then 1 else if isMaxRoundsReached e then 2 else 0
  | _ => 0
  end.

Definition isCheckEvent (o : Obs) : Prop :=
  match o with Emitted e => type e = consensus_check | _ => False end.

Definition isAnalysisCall (o : Obs) : Prop :=
  match o with Requested r => isAnalysisRequest r = true | _ => False end.

(** What the part of a debate before the rounds leaves in the trace. *)
Definition isPrelude (o : Obs) : Prop :=
  match o with
  | Emitted e =>
      type e = cost_estimate \/ type e = status \/ type e = system \/
      type e = research_start \/ type e = research_complete \/
      type e = research_results
  | Searched _ => True
  | Requested _ => False
  end.

(** ** Sample sessions

    Three advisors, the default model and no research; the oracles below
    give the replies of the services. *)

Definition sampleRequest (m : DebateMode) (selected : list AdvisorName)
    : CouncilDebateRequest :=
  {| question := "Should we raise prices?";
     conversationHistory := EmptyString;
     mode := m;
     advisors := selected;
     model := claude_sonnet_4_5;
     enableResearch := false;
     tavilyKey := None |}.

Definition sampleEnv : Env :=
  {| NODE_ENV_development := false; TAVILY_API_KEY := None |}.

Definition sampleCouncil (m : DebateMode) (selected : list AdvisorName)
    : CouncilOrchestrator.t :=
  orchestratorFor sampleEnv (sampleRequest m selected).

(** Every advisor answers in two chunks; the moderator sees no consensus. *)
Definition talkativeLlm : Oracle :=
  {| messages_create := fun _ r =>
       if req_max_tokens r =? 1000
       then Replied [TextBlock ("CONSENSUS: NO" +++ Js.NL +++ "AGREEMENT_LEVEL: 40")]
       else Replied [TextBlock "Raise them by ten percent."];
     messages_stream := fun n _ =>
       {| items := [TextDelta "Yes, "; OtherItem; TextDelta ("point " +++ Js.numToString n)];
          failure := None |};
     tavily_search := fun _ _ => Found None |}.

(** No advisor says anything: every stream ends without a text delta. *)
Definition silentLlm : Oracle :=
  {| messages_create := fun _ _ => Replied [TextBlock "CONSENSUS: NO"];
     messages_stream := fun _ _ => {| items := [OtherItem]; failure := None |};
     tavily_search := fun _ _ => Found None |}.

(** The first call of the session is rejected, the later ones answered. *)
Definition flakyLlm : Oracle :=
  {| messages_create := fun _ _ => Replied [TextBlock "CONSENSUS: NO"];
     messages_stream := fun n _ =>
       if n =? 0
       then {| items := [TextDelta "Well"]; failure := Some (JsError "overloaded") |}
       else {| items := [TextDelta "Agreed."]; failure := None |};
     tavily_search := fun _ _ => Found None |}.

(** The moderator reports an agreement level of 150. *)
Definition overconfidentLlm : Oracle :=
  {| messages_create := fun _ _ =>
       Replied [TextBlock ("CONSENSUS: YES" +++ Js.NL +++ "AGREEMENT_LEVEL: 150")];
     messages_stream := fun _ _ => {| items := [TextDelta "Agreed."]; failure := None |};
     tavily_search := fun _ _ => Found None |}.

(** The state of a session of [selected] advisors after one round in
    which each of [spoken] answered. *)
Definition sampleState (selected spoken : list AdvisorName) : DebateState :=
  let st := createInitialState (sampleCouncil standard selected) "Should we raise prices?" in
  set_currentRound 1
    (set_agentResponses
       (fold_left (fun acc a => <[a := ["Raise them."]]> acc) spoken (agentResponses st))
       st).

(** The second round of three advisors, the first of whom fails. *)
Definition sampleRound : Outcome DebateState * list Obs * nat :=
  runDebateRound flakyLlm (sampleCouncil standard [naval; elon; larry])
    (sampleState [naval; elon; larry] [naval; elon; larry]) 0.

Definition sampleRoundState : DebateState :=
  match outcome sampleRound with
  | Ok state => state
  | Throw _ => sampleState [naval; elon; larry] [naval; elon; larry]
  end.

(** A reply of the moderator that has no [AGREEMENTS] section. *)
Definition replyWithoutAgreements : string :=
  "CONSENSUS: NO" +++ Js.NL
  +++ "AGREEMENT_LEVEL: 20" +++ Js.NL
  +++ "DISAGREEMENTS:" +++ Js.NL
  +++ "- pricing" +++ Js.NL
  +++ "MAJORITY_VIEW: none".

(** ** The calls of a debate *)

(** The queries sent to the search service, in order. *)
Definition searches (tr : list Obs) : list string :=
  omap (fun o => match o with Searched q => Some q | _ => None end) tr.

(** The requests made with the persona of an advisor, and those made with
    the persona of the moderator. *)
Definition isAdvisorRequest (r : CompletionRequest) : bool :=
  match req_system r with advisorKey _ => true | moderator => false end.

Definition isModeratorRequest (r : CompletionRequest) : bool :=
  negb (isAdvisorRequest r).

(** What the rounds and the end of a debate leave in the trace: requests
    and events, none of them about the cost or the research. *)
Definition isRoundObs (o : Obs) : Prop :=
  match o with
  | Emitted e =>
      type e <> system /\ type e <> clarification_needed /\
      type e <> cost_actual /\ type e <> cost_estimate /\
      type e <> research_start /\ type e <> research_complete /\
      type e <> research_results
  | Requested _ => True
  | Searched _ => False
  end.

(** The event that carries the cost estimate of a debate. *)
Definition costEstimate (model : ClaudeModel) (mode : DebateMode)
    (advisorCount : nat) (enableResearch : bool) : StreamEvent :=
  {| type := cost_estimate; agent := None; text := None;
     data := Some (CostEstimateOf model mode advisorCount enableResearch) |}.

(** The results of the search made as the [n]-th call, as
    [performResearch] returns them. *)
Definition researchFound (llm : Oracle) (n : nat) (query : string) : list ResearchResult :=
  match tavily_search llm n query with
  | Found (Some results) => map toResearchResult results
  | _ => []
  end.

(** The text streamed to the client during a turn: the chunks of the
    [agent_response] events, put together. *)
Definition streamedText (evs : list StreamEvent) : string :=
  fold_left String.append
    (omap (fun e => if bool_decide (type e = agent_response) then text e else None) evs)
    EmptyString.

(** The messages [getSafeErrorMessage] can return in production. *)
Definition genericMessages : list string :=
  [ "Invalid API key. Please check your settings.";
    "Too many requests. Please try again later.";
    "Request timed out. Please try again.";
    "Network error. Please check your connection.";
    "An error occurred. Please try again." ].

(** A session with research switched on and a key for the search
    service, and a search service that is down. *)
Definition researchRequest : CouncilDebateRequest :=
  {| question := "Should we raise prices?";
     conversationHistory := EmptyString;
     mode := standard;
     advisors := [naval; elon; larry];
     model := claude_sonnet_4_5;
     enableResearch := true;
     tavilyKey := Some "tvly-0123456789" |}.

Definition offlineSearchLlm : Oracle :=
  {| messages_create := messages_create talkativeLlm;
     messages_stream := messages_stream talkativeLlm;
     tavily_search := fun _ _ => SearchFailed (JsError "fetch failed") |}.

(** The numbers of requests of a trace made for an advisor and for the
    moderator. *)
Definition advisorCalls (tr : list Obs) : nat :=
  List.length (filter (fun r => isAdvisorRequest r = true) (requests tr)).

Definition moderatorCalls (tr : list Obs) : nat :=
  List.length (filter (fun r => isModeratorRequest r = true) (requests tr)).

(** One for an end of the round loop that is not the start of a next
    iteration. *)
Definition closes (o : Outcome Step) : nat :=
  match o with Ok (Continue _) => 0 | _ => 1 end.

(** What a prompt can show of an advisor: the latest of its responses,
    when it has one. *)
Definition spoken (state : DebateState) (advisor : AdvisorName) : option string :=
  match agentResponses state !! advisor with
  | Some (r :: rs) => Some (List.last (r :: rs) EmptyString)
  | _ => None
  end.

(** The first turn of a session of three advisors, and the state it
    leaves. *)
Definition sampleTurn : Outcome (DebateState * nat) * list Obs * nat :=
  advisorTurn talkativeLlm (sampleCouncil standard [naval; elon; larry]) naval
    (sampleState [naval; elon; larry] [], 0) 0.

Definition sampleTurnState : DebateState :=
  match outcome sampleTurn with
  | Ok (state, _) => state
  | Throw _ => sampleState [naval; elon; larry] []
  end.

(** ** Sequences of calls to the rate limiter *)

(** A call of [checkRateLimit] with its environment. *)
Record RateLimitCall := {
  call_now : Z;
  call_sweep : bool;
  call_identifier : string;
  call_maxRequests : Z;
  call_windowMs : Z
}.

(** The answers given to [identifier] when [calls] are made one after
    the other, starting with the store [rateLimitStore]. *)
Fixpoint answersTo (identifier : string) (calls : list RateLimitCall)
    (rateLimitStore : RateLimitStore) : list RateLimit :=
  match calls with
  | [] => []
  | c :: rest =>
      let '(answer, rateLimitStore) :=
        checkRateLimit (call_now c) (call_sweep c) (call_identifier c)
          (call_maxRequests c) (call_windowMs c) rateLimitStore in
      if String.eqb (call_identifier c) identifier
      then answer :: answersTo identifier rest rateLimitStore
      else answersTo identifier rest rateLimitStore
  end.

(** The answer to the [k]-th request of a window that ends at [reset]. *)
Definition nthAnswer (maxRequests reset : Z) (k : nat) : RateLimit :=
  {| allowed := (Z.of_nat k <=? maxRequests)%Z;
     remaining := Z.max 0 (maxRequests - Z.of_nat k)%Z;
     limitResetAt := reset |}.

(** Twelve requests of one client within a second, with the limits of
    the route, among requests of another client. *)
Definition sampleCalls : list RateLimitCall :=
  flat_map
    (fun k =>
       [ {| call_now := (1000 + Z.of_nat k)%Z; call_sweep := Nat.even k;
            call_identifier := "ip:10.0.0.1";
            call_maxRequests := 10; call_windowMs := (60 * 1000)%Z |};
         {| call_now := (1000 + Z.of_nat k)%Z; call_sweep := false;
            call_identifier := "ip:10.0.0.2";
            call_maxRequests := 10; call_windowMs := (60 * 1000)%Z |} ])
    (seq 1 11).

(** A debate of three advisors that ends with a consensus in its second
    round, the state it returns and its answer. *)
Definition sampleDebate : Outcome (DebateState * string) * list Obs * nat :=
  runCouncilDebate overconfidentLlm (sampleCouncil standard [naval; elon; larry])
    "Should we raise prices?" EmptyString 0.

Definition sampleDebateState : DebateState :=
  match outcome sampleDebate with
  | Ok (state, _) => state
  | Throw _ => sampleState [naval; elon; larry] []
  end.

Definition sampleDebateAnswer : string :=
  match outcome sampleDebate with
  | Ok (_, answer) => answer
  | Throw _ => EmptyString
  end.

(** ** Replies in the format of the analysis prompt *)




(** ** What the client displays *)

(** The message of an advisor, as [agent_start] adds it and the chunks
    fill it. *)
Definition agentMessage (advisor : AdvisorName) (content : string) (streaming : bool)
    : DebateStore.Message :=
  {| DebateStore.type := MessageType.agent;
     DebateStore.agent := Some advisor;
     DebateStore.content := content;
     DebateStore.isStreaming := Some streaming;
     DebateStore.rating := Some 0%Z;
     DebateStore.sources := None |}.

(** The responses of [advisor] on display: the contents of its messages
    that are complete and not empty. *)
Definition finishedResponses (advisor : AdvisorName)
    (messages : list DebateStore.Message) : list string :=
  omap (fun m =>
          if bool_decide (DebateStore.type m = MessageType.agent)
             && bool_decide (DebateStore.agent m = Some advisor)
             && negb (bool_decide (DebateStore.isStreaming m = Some true))
             && Js.truthy (DebateStore.content m)
          then Some (DebateStore.content m) else None)
       messages.

(** The number of messages still marked as streaming. *)
Definition stillStreaming (messages : list DebateStore.Message) : nat :=
  List.length (filter (fun m => DebateStore.isStreaming m = Some true) messages).

(** The lists of sources on display. *)
Definition sourcesShown (messages : list DebateStore.Message)
    : list (list ResearchResult) :=
  omap DebateStore.sources messages.

(** A store as [startDebate] leaves it before the stream is read, with
    the messages of an earlier debate. *)
Definition sampleStore : DebateStore.DebateState :=
  {| DebateStore.messages :=
       [ plainMessage MessageType.user "Should we hire a sales team?";
         plainMessage MessageType.final "Not before the product sells itself." ];
     DebateStore.currentRound := 0%N;
     DebateStore.isResearching := false;
     DebateStore.researchQuery := EmptyString;
     DebateStore.currentStatus := EmptyString;
     DebateStore.statusHistory := [] |}.

(** A message that is not the message of an advisor. *)
Definition isNotice (m : DebateStore.Message) : Prop :=
  DebateStore.type m <> MessageType.agent /\ DebateStore.isStreaming m = None.

(** What a part of the stream of a debate shows: it adds messages, the
    complete ones among them hold what the part adds to the responses of
    the session, and it leaves as many messages streaming as it has
    error events. *)
Definition Shows (evs : list StreamEvent) (before after : AgentResponses) : Prop :=
  forall s, exists added,
    DebateStore.messages (handleStream evs s) = DebateStore.messages s ++ added /\
    (forall b, default [] (after !! b)
               = default [] (before !! b) ++ finishedResponses b added) /\
    stillStreaming added = countEvents error evs.

(** An event that leaves the round counter of the store as it is: it is
    not of the moderator, or its text does not mention a round. *)
Definition keepsRound (e : StreamEvent) : Prop :=
  type e <> moderator_analysis \/
  exists content, text e = Some content /\ Js.includes content "Round" = false.

(** A debate of three advisors in which the first call fails, the state
    it returns and its answer. *)
Definition flakyDebate : Outcome (DebateState * string) * list Obs * nat :=
  runCouncilDebate flakyLlm (sampleCouncil standard [naval; elon; larry])
    "Should we raise prices?" EmptyString 0.

Definition flakyDebateState : DebateState :=
  match outcome flakyDebate with
  | Ok (state, _) => state
  | Throw _ => sampleState [naval; elon; larry] []
  end.

Definition flakyDebateAnswer : string :=
  match outcome flakyDebate with
  | Ok (_, answer) => answer
  | Throw _ => EmptyString
  end.

(** * Lemmas on computations and traces *)

(** ** Computations *)

Lemma prefixed_nil {A} (r : Outcome A * list Obs * nat) : prefixed [] r = r.
Proof. destruct r as [[o t] n]. reflexivity. Qed.

Lemma prefixed_prefixed {A} (t1 t2 : list Obs) (r : Outcome A * list Obs * nat) :
  prefixed t1 (prefixed t2 r) = prefixed (t1 ++ t2) r.
Proof.
  destruct r as [[o t] n]. unfold prefixed, outcome, trace, calls; simpl.
  by rewrite app_assoc.
Qed.

Lemma bind_Ok {A B} (m : M A) (k : A -> M B) n a t n1 :
  m n = (Ok a, t, n1) -> bind m k n = prefixed t (k a n1).
Proof.
  intros Hm. unfold bind, prefixed, outcome, trace, calls. rewrite Hm.
  by destruct (k a n1) as [[r t2] n2].
Qed.

Lemma bind_Throw {A B} (m : M A) (k : A -> M B) n e t n1 :
  m n = (Throw e, t, n1) -> bind m k n = (Throw e, t, n1).
Proof. intros Hm. unfold bind. by rewrite Hm. Qed.

Lemma emit_then {B} (e : StreamEvent) (k : M B) n :
  (emit e ;; k) n = prefixed [Emitted e] (k n).
Proof. by apply (bind_Ok (emit e) (fun _ => k) n tt [Emitted e] n). Qed.

Lemma ret_bind {A B} (a : A) (k : A -> M B) n : bind (ret a) k n = k a n.
Proof. rewrite (bind_Ok (ret a) k n a [] n); [apply prefixed_nil | reflexivity]. Qed.

Lemma events_app (t1 t2 : list Obs) : events (t1 ++ t2) = events t1 ++ events t2.
Proof. apply omap_app. Qed.

Lemma requests_app (t1 t2 : list Obs) : requests (t1 ++ t2) = requests t1 ++ requests t2.
Proof. apply omap_app. Qed.

Lemma displayName_eq a :
  Js.orElse (personaName (advisorKey a)) (advisorId a) = personaName (advisorKey a).
Proof. destruct a; reflexivity. Qed.

Section Turns.

Variable llm : Oracle.
Variable this : CouncilOrchestrator.t.

(** Reading a stream emits one chunk event for each text delta, in
    order, and ends as the stream does. *)
Lemma readStream_eq a its end_ full n :
  readStream (fun chunk => emit (event agent_response (Some a) (Some chunk)))
    its end_ full n
  = (match end_ with
     | Some e => Throw e
     | None => Ok (fold_left String.append (deltas its) full)
     end,
     chunkEvents a (deltas its), n).
Proof.
  revert full n. induction its as [|i its IH]; intros full n.
  - simpl. destruct end_; reflexivity.
  - destruct i as [t|]; simpl.
    + rewrite emit_then, IH. destruct end_; reflexivity.
    + apply IH.
Qed.

(** A turn never throws: it ends with the state and the count that
    [turnEnd] says, after exactly one call. *)
Lemma advisorTurn_eq a st k n :
  advisorTurn llm this a (st, k) n
  = (Ok (afterTurn a st (turnEnd llm this a st n),
         k + successes (turnEnd llm this a st n)),
     turnTrace llm this a st n, S n).
Proof.
  unfold advisorTurn, try_catch, turnTrace, turnEnd, turnReply, getAdvisorResponse.
  unfold bind at 1 2 3 4 5. unfold emit at 1 2. unfold createStream at 1.
  cbn beta iota. rewrite readStream_eq.
  unfold turnOpening, fullText. rewrite displayName_eq.
  set (reply := messages_stream llm n (advisorRequest this a st true)).
  destruct (failure reply) as [e|];
    [simpl; by rewrite Nat.add_0_r|].
  destruct (Js.truthy (fold_left append (deltas (items reply)) EmptyString));
    [|simpl; by rewrite Nat.add_0_r].
  destruct (agentResponses st !! a) as [responses|] eqn:Hl; simpl.
  - by rewrite Nat.add_1_r, Hl.
  - by rewrite Nat.add_0_r, app_nil_r.
Qed.

Lemma forEach_turn a rest st k n :
  forEach (advisorTurn llm this) (a :: rest) (st, k) n
  = prefixed (turnTrace llm this a st n)
      (forEach (advisorTurn llm this) rest
         (afterTurn a st (turnEnd llm this a st n),
          k + successes (turnEnd llm this a st n)) (S n)).
Proof. simpl. by rewrite (bind_Ok _ _ _ _ _ _ (advisorTurn_eq a st k n)). Qed.

(** The loop over the advisors never throws and makes one call for each
    of them. *)
Lemma forEach_Turns l st k n :
  exists st' k' tr,
    forEach (advisorTurn llm this) l (st, k) n = (Ok (st', k'), tr, n + List.length l)
    /\ Turns llm this l st k n st' k' tr.
Proof.
  revert st k n. induction l as [|a rest IH]; intros st k n.
  - exists st, k, []. split; [simpl; by rewrite Nat.add_0_r | constructor].
  - destruct (IH (afterTurn a st (turnEnd llm this a st n))
                 (k + successes (turnEnd llm this a st n)) (S n))
      as (st' & k' & tr & Hrun & HT).
    exists st', k', (turnTrace llm this a st n ++ tr). split.
    + rewrite forEach_turn, Hrun. unfold prefixed, outcome, trace, calls; simpl.
      do 2 f_equal. lia.
    + by constructor.
Qed.

Lemma afterTurn_frame a st e :
  messages (afterTurn a st e) = messages st /\
  currentRound (afterTurn a st e) = currentRound st /\
  maxRounds (afterTurn a st e) = maxRounds st /\
  consensusReached (afterTurn a st e) = consensusReached st /\
  needsClarification (afterTurn a st e) = needsClarification st /\
  clarificationQuestion (afterTurn a st e) = clarificationQuestion st /\
  finalAnswer (afterTurn a st e) = finalAnswer st /\
  researchResults (afterTurn a st e) = researchResults st.
Proof. destruct e; simpl; repeat split. Qed.

Lemma Turns_frame l st k n st' k' tr :
  Turns llm this l st k n st' k' tr ->
  messages st' = messages st /\
  currentRound st' = currentRound st /\
  maxRounds st' = maxRounds st /\
  consensusReached st' = consensusReached st /\
  needsClarification st' = needsClarification st /\
  clarificationQuestion st' = clarificationQuestion st /\
  finalAnswer st' = finalAnswer st /\
  researchResults st' = researchResults st.
Proof.
  induction 1 as [|a rest st k n st' k' tr _ IH]; [repeat split|].
  destruct (afterTurn_frame a st (turnEnd llm this a st n))
    as (E1 & E2 & E3 & E4 & E5 & E6 & E7 & E8).
  destruct IH as (I1 & I2 & I3 & I4 & I5 & I6 & I7 & I8).
  repeat split; congruence.
Qed.

Lemma turnTrace_shape a st n : TurnTrace a (turnTrace llm this a st n).
Proof.
  unfold turnTrace. constructor; [reflexivity|].
  destruct (turnEnd llm this a st n); simpl; eauto.
Qed.

Lemma Turns_count l st k n st' k' tr :
  Turns llm this l st k n st' k' tr -> k <= k' <= k + List.length l.
Proof.
  induction 1 as [|a rest st k n st' k' tr _ IH]; simpl; [lia|].
  destruct (turnEnd llm this a st n); simpl in *; lia.
Qed.

Lemma turnEnd_Succeeded a st n response :
  turnEnd llm this a st n = Succeeded response ->
  failure (turnReply llm this a st n) = None /\
  response = fullText (items (turnReply llm this a st n)) /\
  Js.truthy response = true /\
  exists responses, agentResponses st !! a = Some responses.
Proof.
  unfold turnEnd. destruct (failure _); [discriminate|].
  destruct (Js.truthy _) eqn:Ht; [|discriminate].
  destruct (agentResponses st !! a) eqn:Hl; [|discriminate].
  intros [= <-]. eauto.
Qed.

Lemma fmap_app_nil (o : option (list string)) : (fun l => l ++ []) <$> o = o.
Proof. destruct o; simpl; by rewrite ?app_nil_r. Qed.

(** What a turn of [b] does to the responses of [a]. *)
Lemma afterTurn_lookup a b st n :
  exists added,
    agentResponses (afterTurn b st (turnEnd llm this b st n)) !! a
    = (fun l => l ++ added) <$> (agentResponses st !! a)
    /\ List.length added <= (if decide (b = a) then 1 else 0).
Proof.
  destruct (turnEnd llm this b st n) as [response| |caught] eqn:He; simpl;
    try (exists []; split; [by rewrite fmap_app_nil | simpl; lia]).
  apply turnEnd_Succeeded in He as (_ & _ & _ & responses & Hl).
  destruct (decide (b = a)) as [->|Hne].
  - exists [response]. rewrite lookup_insert_eq, Hl. simpl. split; [reflexivity | lia].
  - exists []. rewrite lookup_insert_ne by done. split; [by rewrite fmap_app_nil | simpl; lia].
Qed.

(** A round only ever appends to the responses of an advisor, at most
    once for each time the advisor is selected. *)
Lemma Turns_responses l st k n st' k' tr a :
  Turns llm this l st k n st' k' tr ->
  exists added,
    agentResponses st' !! a = (fun r => r ++ added) <$> (agentResponses st !! a)
    /\ List.length added <= List.length (filter (fun b => b = a) l).
Proof.
  induction 1 as [|b rest st k n st' k' tr _ (added2 & E2 & L2)].
  - exists []. split; [by rewrite fmap_app_nil | simpl; lia].
  - destruct (afterTurn_lookup a b st n) as (added1 & E1 & L1).
    exists (added1 ++ added2). split.
    + rewrite E2, E1. destruct (agentResponses st !! a); simpl; [|reflexivity].
      by rewrite app_assoc.
    + rewrite length_app, filter_cons. destruct (decide (b = a)); simpl; lia.
Qed.

Lemma totalResponses_insert (m : AgentResponses) a responses response :
  m !! a = Some responses ->
  totalResponses (<[a := responses ++ [response]]> m) = totalResponses m + 1.
Proof.
  intros Hl. unfold totalResponses, ADVISOR_NAMES.
  destruct a; simpl;
    rewrite lookup_insert_eq, !lookup_insert_ne by done;
    rewrite Hl; simpl; rewrite length_app; simpl; lia.
Qed.

Lemma afterTurn_total a st n :
  totalResponses (agentResponses (afterTurn a st (turnEnd llm this a st n)))
  = totalResponses (agentResponses st) + successes (turnEnd llm this a st n).
Proof.
  destruct (turnEnd llm this a st n) as [response| |caught] eqn:He; simpl; try lia.
  apply turnEnd_Succeeded in He as (_ & _ & _ & responses & Hl).
  rewrite Hl. simpl. by apply totalResponses_insert.
Qed.

(** Every successful turn adds exactly one response. *)
Lemma Turns_total l st k n st' k' tr :
  Turns llm this l st k n st' k' tr ->
  totalResponses (agentResponses st') + k = totalResponses (agentResponses st) + k'.
Proof.
  induction 1 as [|a rest st k n st' k' tr _ IH]; [lia|].
  rewrite afterTurn_total in IH. lia.
Qed.

End Turns.

Section Rounds.

Variable llm : Oracle.
Variable this : CouncilOrchestrator.t.


Lemma createText_eq (r : CompletionRequest) n :
  (do response <- createMessage llm r; firstText response) n
  = (replyText (messages_create llm n r), [Requested r], S n).
Proof.
  unfold bind, createMessage, replyText.
  destruct (messages_create llm n r) as [[|[t|] blocks]|e]; reflexivity.
Qed.

Lemma generateFinalAnswer_eq st v n :
  generateFinalAnswer llm this st v n
  = (replyText (messages_create llm n (finalRequest this st v)),
     [Requested (finalRequest this st v)], S n).
Proof. apply createText_eq. Qed.

Lemma analyzeConsensus_eq st n :
  analyzeConsensus llm this st n
  = if List.length (latestResponses this st) <? 3 then (Ok noConsensus, [], n)
    else (match replyText (messages_create llm n (analysisRequest this st)) with
          | Ok t => Ok (parseConsensus t)
          | Throw e => Throw e
          end,
          [Requested (analysisRequest this st)], S n).
Proof.
  unfold analyzeConsensus.
  destruct (List.length (latestResponses this st) <? 3); [reflexivity|].
  unfold bind at 1. unfold bind at 1. unfold createMessage, replyText.
  destruct (messages_create llm n (analysisRequest this st)) as [[|[t|] blocks]|e];
    reflexivity.
Qed.

(** The consensus analyzer makes no call, or exactly the analysis call. *)
Lemma analyzeConsensus_trace st n o tr n' :
  analyzeConsensus llm this st n = (o, tr, n') ->
  tr = [] \/ tr = [Requested (analysisRequest this st)].
Proof.
  rewrite analyzeConsensus_eq.
  destruct (_ <? 3); intros [= <- <- <-]; auto.
Qed.

Lemma advisorTurns_run st n :
  exists st1 c trT,
    advisorTurns llm this st n = (Ok (st1, c), trT, n + List.length (CouncilOrchestrator.selectedAdvisors this))
    /\ Turns llm this (CouncilOrchestrator.selectedAdvisors this)
         (set_currentRound (currentRound st + 1) st) 0 n st1 c trT.
Proof. apply forEach_Turns. Qed.

Lemma runDebateRound_eq st n st1 c trT :
  advisorTurns llm this st n = (Ok (st1, c), trT, n + List.length (CouncilOrchestrator.selectedAdvisors this)) ->
  runDebateRound llm this st n
  = (if c <? 2 then Throw (insufficient c) else Ok st1,
     trT, n + List.length (CouncilOrchestrator.selectedAdvisors this)).
Proof.
  intros Hrun. unfold runDebateRound.
  rewrite (bind_Ok _ _ _ _ _ _ Hrun).
  destruct (c <? 2); unfold prefixed, outcome, trace, calls; simpl;
    by rewrite app_nil_r.
Qed.

(** Every iteration of the round loop is one of the runs of [RoundRun]. *)
Lemma roundBody_run round st n :
  exists o tr n',
    roundBody llm this round st n = (o, tr, n') /\ RoundRun llm this round st n o tr n'.
Proof.
  destruct (advisorTurns_run st n) as (st1 & c & trT & Hturns & HT).
  pose proof (runDebateRound_eq _ _ _ _ _ Hturns) as Hround.
  unfold roundBody. rewrite !emit_then.
  destruct (c <? 2) eqn:Hc.
  { apply Nat.ltb_lt in Hc.
    rewrite (bind_Throw _ _ _ _ _ _ Hround).
    eexists _, _, _. split; [reflexivity|].
    by apply (round_insufficient llm this round st n st1 c trT). }
  apply Nat.ltb_ge in Hc.
  rewrite (bind_Ok _ _ _ _ _ _ Hround).
  destruct (1 <=? round) eqn:Hr.
  2: { apply Nat.leb_gt in Hr.
       eexists _, _, _. split; [reflexivity|].
       unfold prefixed, outcome, trace, calls; simpl. rewrite app_nil_r.
       by apply (round_unchecked llm this round st n st1 c trT). }
  apply Nat.leb_le in Hr.
  rewrite !emit_then.
  destruct (analyzeConsensus llm this st1 (n + List.length (CouncilOrchestrator.selectedAdvisors this)))
    as [[[v|e] trA] nA] eqn:HA.
  2: { rewrite (bind_Throw _ _ _ _ _ _ HA).
       eexists _, _, _. split; [reflexivity|].
       unfold prefixed, outcome, trace, calls; simpl.
       by apply (round_analysis_failed llm this round st n st1 c trT e trA nA). }
  rewrite (bind_Ok _ _ _ _ _ _ HA).
  destruct (ConsensusAnalysis.consensusReached v) eqn:Hv.
  2: { eexists _, _, _. split; [reflexivity|].
       unfold prefixed, outcome, trace, calls; simpl. rewrite app_nil_r.
       by apply (round_no_consensus llm this round st n st1 c trT v trA nA). }
  rewrite !emit_then.
  pose proof (generateFinalAnswer_eq st1 v nA) as HF.
  destruct (replyText (messages_create llm nA (finalRequest this st1 v)))
    as [answer|e] eqn:Hreply.
  - rewrite (bind_Ok _ _ _ _ _ _ HF), emit_then.
    eexists _, _, _. split; [reflexivity|].
    unfold prefixed, outcome, trace, calls, ret; simpl.
    pose proof (round_consensus llm this round st n st1 c trT v trA nA answer
                  HT Hc Hr HA Hv Hreply) as HR.
    simpl in HR. exact HR.
  - rewrite (bind_Throw _ _ _ _ _ _ HF).
    eexists _, _, _. split; [reflexivity|].
    unfold prefixed, outcome, trace, calls; simpl.
    pose proof (round_synthesis_failed llm this round st n st1 c trT v trA nA e
                  HT Hc Hr HA Hv Hreply) as HR.
    simpl in HR. exact HR.
Qed.

End Rounds.

(** The two traces of the consensus analyzer. *)
Ltac analysis_trace :=
  match goal with
  | H : analyzeConsensus _ _ _ _ = (_, ?trA, _) |- _ =>
      destruct (analyzeConsensus_trace _ _ _ _ _ _ _ H) as [->| ->]
  end.

(** ** Shapes of traces *)

Lemma events_chunkEvents a chunks :
  events (chunkEvents a chunks)
  = map (fun c => event agent_response (Some a) (Some c)) chunks.
Proof. induction chunks as [|c chunks IH]; simpl; [reflexivity|]. by f_equal. Qed.

Lemma TurnTrace_events a tr : TurnTrace a tr -> TurnEvents a (events tr).
Proof.
  intros [req chunks closing _ Hclosing].
  unfold turnOpening. simpl. rewrite events_app, events_chunkEvents. simpl.
  by constructor.
Qed.

Lemma TurnEvents_kinds a evs : TurnEvents a evs -> Forall isTurnEvent evs.
Proof.
  intros [chunks closing Hclosing].
  constructor; [by left|].
  constructor; [right; left; by left|].
  apply Forall_app. split.
  - apply Forall_forall. intros e He. apply list_elem_of_In, in_map_iff in He as (c & <- & _).
    right; left; right; by left.
  - constructor; [|constructor].
    destruct Hclosing as [->|[caught ->]].
    + right; left; right; by right.
    + right; right. by exists a, caught.
Qed.

Lemma isAdvisorNotice_type e : isAdvisorNotice e -> type e = error.
Proof. by intros (a & caught & ->). Qed.

Lemma isTurnEvent_calm e :
  isTurnEvent e -> type e <> final_answer /\ (type e = error -> isAdvisorNotice e).
Proof.
  intros [H|[[H|[H|H]]|H]]; try (split; [congruence | intros; congruence]).
  pose proof (isAdvisorNotice_type _ H). split; [congruence | intros _; exact H].
Qed.

Lemma isTurnEvent_no_phase e :
  isTurnEvent e ->
  type e <> moderator_analysis /\ type e <> consensus_check /\ type e <> final_answer.
Proof.
  intros [H|[[H|[H|H]]|H]]; try (repeat split; congruence).
  pose proof (isAdvisorNotice_type _ H). repeat split; congruence.
Qed.

Lemma blocks_kinds l blocks :
  Forall2 TurnEvents l blocks -> Forall isTurnEvent (concat blocks).
Proof.
  induction 1 as [|a evs l blocks Hevs _ IH]; [constructor|].
  simpl. apply Forall_app. split; [by eapply TurnEvents_kinds | exact IH].
Qed.

Section TurnShapes.

Variable llm : Oracle.
Variable this : CouncilOrchestrator.t.

Lemma Turns_events l st k n st' k' tr :
  Turns llm this l st k n st' k' tr ->
  exists blocks, events tr = concat blocks /\ Forall2 TurnEvents l blocks.
Proof.
  induction 1 as [|a rest st k n st' k' tr _ (blocks & E & HF)].
  - exists []. split; [reflexivity | constructor].
  - exists (events (turnTrace llm this a st n) :: blocks). split.
    + by rewrite events_app, E.
    + constructor; [apply TurnTrace_events, turnTrace_shape | assumption].
Qed.

Lemma Turns_kinds l st k n st' k' tr :
  Turns llm this l st k n st' k' tr -> Forall isTurnEvent (events tr).
Proof.
  intros HT. destruct (Turns_events _ _ _ _ _ _ _ HT) as (blocks & -> & HF).
  by eapply blocks_kinds.
Qed.

(** The requests of the turns are the advisors' own. *)
Lemma Turns_requests l st k n st' k' tr :
  Turns llm this l st k n st' k' tr ->
  Forall (fun r => isAnalysisRequest r = false) (requests tr).
Proof.
  induction 1 as [|a rest st k n st' k' tr _ IH]; [constructor|].
  rewrite requests_app. apply Forall_app. split; [|done].
  unfold turnTrace, turnOpening. simpl. rewrite requests_app. simpl.
  constructor; [reflexivity|].
  apply Forall_app. split; [|constructor].
  induction (deltas _); simpl; [constructor | done].
Qed.

End TurnShapes.

Section RoundShapes.

Variable llm : Oracle.
Variable this : CouncilOrchestrator.t.


Lemma RoundEvents_intro round st k n st1 c trT tail :
  Turns llm this (CouncilOrchestrator.selectedAdvisors this) st k n st1 c trT ->
  Forall (fun e => ~ isAgentEvent e) (events tail) ->
  (round < 1 -> tail = []) ->
  RoundEvents (CouncilOrchestrator.selectedAdvisors this) (CouncilOrchestrator.maxRounds this) (round + 1)
    (events (roundOpening this round ++ trT ++ tail)).
Proof.
  intros HT Htail Hnil.
  destruct (Turns_events _ _ _ _ _ _ _ _ _ HT) as (blocks & E & HB).
  rewrite !events_app, E. unfold roundOpening. simpl.
  constructor; [exact HB | exact Htail |].
  intros Hr. rewrite Hnil; [reflexivity | lia].
Qed.

Ltac quiet_tail :=
  simpl;
  repeat (apply Forall_cons; split;
          [unfold isAgentEvent; simpl; intuition congruence|]);
  apply Forall_nil; exact I.

(** The events of an iteration are those of a round: the advisors speak
    in turn, then the moderator. *)
Lemma RoundRun_events round st n o tr n' :
  RoundRun llm this round st n o tr n' ->
  RoundEvents (CouncilOrchestrator.selectedAdvisors this) (CouncilOrchestrator.maxRounds this) (round + 1) (events tr).
Proof.
  intros HR.
  destruct HR as [st1 c trT HT Hc|st1 c trT HT Hc Hr|st1 c trT e trA nA HT Hc Hr HA
                 |st1 c trT v trA nA HT Hc Hr HA Hv
                 |st1 c trT v trA nA e HT Hc Hr HA Hv HF
                 |st1 c trT v trA nA answer HT Hc Hr HA Hv HF];
    try analysis_trace.
  1, 2: rewrite <- (app_nil_r trT).
  all: eapply RoundEvents_intro;
    [exact HT | quiet_tail | intros; first [reflexivity | lia]].
Qed.

End RoundShapes.

(** ** Guarded traces *)

Lemma totalWeight_app w (a b : list Obs) :
  totalWeight w (a ++ b) = totalWeight w a + totalWeight w b.
Proof. unfold totalWeight. by rewrite map_app, list_sum_app. Qed.

Lemma Guarded_app P w k a b :
  Guarded P w k (a ++ b) <-> Guarded P w k a /\ Guarded P w (k + totalWeight w a) b.
Proof.
  revert k. induction a as [|o a IH]; intros k; simpl.
  - unfold totalWeight; simpl. rewrite Nat.add_0_r. tauto.
  - rewrite IH. unfold totalWeight; simpl. rewrite Nat.add_assoc. tauto.
Qed.

Lemma Guarded_none P w k tr : Forall (fun o => ~ P o) tr -> Guarded P w k tr.
Proof.
  intros H. revert k. induction H as [|o tr Ho _ IH]; intros k; simpl; [exact I|].
  split; [tauto | apply IH].
Qed.

Lemma Guarded_late P w k tr : 2 <= k -> Guarded P w k tr.
Proof.
  revert k. induction tr as [|o tr IH]; intros k Hk; simpl; [exact I|].
  split; [intros _; exact Hk | apply IH; lia].
Qed.

Lemma Guarded_split P w tr pre o post :
  Guarded P w 0 tr -> tr = pre ++ o :: post -> P o -> 2 <= totalWeight w pre.
Proof.
  intros HG -> HP. apply Guarded_app in HG as [_ HG]. simpl in HG.
  by apply HG.
Qed.

Lemma Forall_events (P : StreamEvent -> Prop) tr :
  Forall P (events tr)
  <-> Forall (fun o => match o with Emitted e => P e | _ => True end) tr.
Proof.
  induction tr as [|o tr IH]; [split; constructor|].
  destruct o as [e|r|q]; simpl; rewrite ?Forall_cons; unfold events in *;
    simpl; rewrite ?Forall_cons; tauto.
Qed.

Lemma Forall_requests (P : CompletionRequest -> Prop) tr :
  Forall P (requests tr)
  <-> Forall (fun o => match o with Requested r => P r | _ => True end) tr.
Proof.
  induction tr as [|o tr IH]; [split; constructor|].
  destruct o as [e|r|q]; simpl; rewrite ?Forall_cons; unfold requests in *;
    simpl; rewrite ?Forall_cons; tauto.
Qed.

(** Events that are not the moderator's narration weigh nothing. *)
Lemma unnarrated_weight tr :
  Forall (fun e => type e <> moderator_analysis) (events tr) ->
  totalWeight startWeight tr = 0 /\ totalWeight phaseWeight tr = 0.
Proof.
  rewrite Forall_events. induction 1 as [|o tr Ho _ [IH1 IH2]]; [split; reflexivity|].
  unfold totalWeight in *. simpl. rewrite IH1, IH2.
  destruct o as [e|r|q]; simpl; [|split; reflexivity..].
  unfold isRoundStart, isMaxRoundsReached.
  rewrite bool_decide_eq_false_2 by exact Ho. split; reflexivity.
Qed.

Lemma startWeight_rounds tr : totalWeight startWeight tr = roundsStarted (events tr).
Proof.
  unfold totalWeight, roundsStarted, events.
  induction tr as [|o tr IH]; [reflexivity|].
  destruct o as [e|r|q]; simpl; [|exact IH..].
  destruct (isRoundStart e) eqn:Hs.
  - rewrite filter_cons_True by exact Hs. simpl. by rewrite IH.
  - rewrite filter_cons_False by (rewrite Hs; discriminate). exact IH.
Qed.

Lemma phaseWeight_rounds tr :
  2 <= totalWeight phaseWeight tr ->
  2 <= roundsStarted (events tr)
  \/ exists e, In (Emitted e) tr /\ isMaxRoundsReached e = true.
Proof.
  intros H.
  destruct (existsb (fun o => match o with Emitted e => isMaxRoundsReached e | _ => false end) tr)
    eqn:Hex.
  - right. apply existsb_exists in Hex as (o & Hin & Ho).
    destruct o as [e|r|q]; try discriminate. by exists e.
  - left. rewrite <- startWeight_rounds.
    assert (totalWeight phaseWeight tr <= totalWeight startWeight tr); [|lia].
    clear H. unfold totalWeight. induction tr as [|o tr IH]; [reflexivity|].
    simpl in Hex. apply orb_false_iff in Hex as [Ho Hex]. simpl.
    specialize (IH Hex). destruct o as [e|r|q]; simpl; try lia.
    rewrite Ho. destruct (isRoundStart e); lia.
Qed.

Section RoundGuards.

Variable llm : Oracle.
Variable this : CouncilOrchestrator.t.


Lemma Turns_silent l st k n st' k' tr :
  Turns llm this l st k n st' k' tr ->
  Forall (fun o => ~ isCheckEvent o) tr /\
  Forall (fun o => ~ isAnalysisCall o) tr /\
  totalWeight startWeight tr = 0 /\
  totalWeight phaseWeight tr = 0.
Proof.
  intros HT.
  pose proof (Turns_kinds _ _ _ _ _ _ _ _ _ HT) as Hk.
  pose proof (Turns_requests _ _ _ _ _ _ _ _ _ HT) as Hr.
  split; [|split].
  - apply Forall_events in Hk. eapply Forall_impl; [exact Hk|].
    intros [e|r|q] He; simpl; [|tauto..].
    destruct (isTurnEvent_no_phase _ He) as (_ & H & _). exact H.
  - apply Forall_requests in Hr. eapply Forall_impl; [exact Hr|].
    intros [e|r|q] He; simpl; [tauto| |tauto]. rewrite He. discriminate.
  - apply unnarrated_weight. eapply Forall_impl; [exact Hk|].
    intros e He. by destruct (isTurnEvent_no_phase _ He) as (H & _).
Qed.

Lemma opening_guarded P w round trT tail :
  (forall e, type e = status -> ~ P (Emitted e) /\ w (Emitted e) = 0) ->
  (forall k, ~ P (Emitted (roundStart k)) /\ w (Emitted (roundStart k)) = 1) ->
  Forall (fun o => ~ P o) trT ->
  totalWeight w trT = 0 ->
  (round < 1 -> tail = []) ->
  Guarded P w round (roundOpening this round ++ trT ++ tail).
Proof.
  intros Hstatus Hstart HnoP Hw Hnil. unfold roundOpening. simpl.
  destruct (Hstatus (event status None
                       (Some ("Round " +++ Js.numToString (round + 1) +++ " of "
                              +++ Js.numToString (CouncilOrchestrator.maxRounds this))))
                    eq_refl) as [Hp1 Hw1].
  destruct (Hstart (round + 1)) as [Hp2 Hw2].
  split; [tauto|]. split; [tauto|].
  rewrite Hw1, Hw2. apply Guarded_app. split; [by apply Guarded_none|].
  destruct round as [|round].
  - rewrite Hnil by lia. exact I.
  - apply Guarded_late. lia.
Qed.

Lemma status_unchecked e :
  type e = status -> ~ isCheckEvent (Emitted e) /\ startWeight (Emitted e) = 0.
Proof.
  intros He. split; [simpl; congruence|]. simpl. unfold isRoundStart.
  rewrite bool_decide_eq_false_2 by congruence. reflexivity.
Qed.

Lemma status_uncalled e :
  type e = status -> ~ isAnalysisCall (Emitted e) /\ phaseWeight (Emitted e) = 0.
Proof.
  intros He. split; [simpl; tauto|]. simpl. unfold isRoundStart, isMaxRoundsReached.
  rewrite bool_decide_eq_false_2 by congruence. reflexivity.
Qed.

Lemma roundStart_unchecked k :
  ~ isCheckEvent (Emitted (roundStart k)) /\ startWeight (Emitted (roundStart k)) = 1.
Proof. split; [simpl; discriminate | reflexivity]. Qed.

Lemma roundStart_uncalled k :
  ~ isAnalysisCall (Emitted (roundStart k)) /\ phaseWeight (Emitted (roundStart k)) = 1.
Proof. split; [simpl; tauto | reflexivity]. Qed.

(** In the trace of an iteration numbered [round], entered after [round]
    rounds were started: one more round is started, and the consensus
    check and the analysis call come only when two rounds were started. *)
Lemma RoundRun_guarded round st n o tr n' :
  RoundRun llm this round st n o tr n' ->
  totalWeight startWeight tr = 1 /\
  totalWeight phaseWeight tr = 1 /\
  Guarded isCheckEvent startWeight round tr /\
  Guarded isAnalysisCall phaseWeight round tr.
Proof.
  intros HR.
  destruct HR as [st1 c trT HT Hc|st1 c trT HT Hc Hr|st1 c trT e trA nA HT Hc Hr HA
                 |st1 c trT v trA nA HT Hc Hr HA Hv
                 |st1 c trT v trA nA e HT Hc Hr HA Hv HF
                 |st1 c trT v trA nA answer HT Hc Hr HA Hv HF];
    destruct (Turns_silent _ _ _ _ _ _ _ HT) as (Hnc & Hna & Hw1 & Hw2);
    try analysis_trace.
  1, 2: rewrite <- (app_nil_r trT).
  all: split; [|split; [|split]];
    [ rewrite !totalWeight_app, Hw1; reflexivity
    | rewrite !totalWeight_app, Hw2; reflexivity
    | apply opening_guarded;
        [apply status_unchecked | apply roundStart_unchecked | exact Hnc | exact Hw1
        | intros; first [reflexivity | lia]]
    | apply opening_guarded;
        [apply status_uncalled | apply roundStart_uncalled | exact Hna | exact Hw2
        | intros; first [reflexivity | lia]] ].
Qed.

End RoundGuards.

(** ** Streams without a final answer *)

Lemma Calm_app a b : Calm (a ++ b) <-> Calm a /\ Calm b.
Proof. apply Forall_app. Qed.

Lemma Calm_narration e evs :
  type e <> final_answer -> type e <> error -> Calm evs -> Calm (e :: evs).
Proof. intros H1 H2 H. constructor; [split; [exact H1 | intros; contradiction] | exact H]. Qed.

Lemma Calm_nil : Calm [].
Proof. constructor. Qed.

Ltac calm_events :=
  simpl; repeat (apply Calm_narration; [discriminate | discriminate |]); apply Calm_nil.

Section RoundOutcomes.

Variable llm : Oracle.
Variable this : CouncilOrchestrator.t.

Lemma Turns_calm l st k n st' k' tr :
  Turns llm this l st k n st' k' tr -> Calm (events tr).
Proof.
  intros HT. eapply Forall_impl; [exact (Turns_kinds _ _ _ _ _ _ _ _ _ HT)|].
  intros e He. by apply isTurnEvent_calm.
Qed.

(** An iteration that does not return from the debate emits no final
    answer, and no error but the notices of the advisors' failures. *)
Lemma RoundRun_calm round st n o tr n' :
  RoundRun llm this round st n o tr n' ->
  (forall st' answer, o <> Ok (Return st' answer)) ->
  Calm (events tr).
Proof.
  intros HR Ho.
  destruct HR as [st1 c trT HT Hc|st1 c trT HT Hc Hr|st1 c trT e trA nA HT Hc Hr HA
                 |st1 c trT v trA nA HT Hc Hr HA Hv
                 |st1 c trT v trA nA e HT Hc Hr HA Hv HF
                 |st1 c trT v trA nA answer HT Hc Hr HA Hv HF];
    try (exfalso; by eapply Ho);
    pose proof (Turns_calm _ _ _ _ _ _ _ HT) as Hcalm;
    try analysis_trace;
    rewrite !events_app; repeat (apply Calm_app; split);
    first [exact Hcalm | calm_events].
Qed.

(** An iteration that returns from the debate emits the final answer
    last, and only then. *)
Lemma RoundRun_return round st n st' answer tr n' :
  RoundRun llm this round st n (Ok (Return st' answer)) tr n' ->
  exists tr0,
    tr = tr0 ++ [Emitted (event final_answer None (Some answer))] /\
    Calm (events tr0) /\
    finalAnswer st' = Some answer /\
    consensusReached st' = true /\
    1 <= round /\
    currentRound st' = currentRound st + 1.
Proof.
  intros HR. inversion HR as [| | | | |st1 c trT v trA nA answer' HT Hc Hr HA Hv HF]; subst.
  pose proof (Turns_calm _ _ _ _ _ _ _ HT) as Hcalm.
  exists (roundOpening this round ++ trT ++ checkOpening ++ trA ++ synthesisOpening
          ++ [Requested (finalRequest this st1 v)]).
  split; [by rewrite <- !app_assoc|].
  split; [|repeat split; try done;
            destruct (Turns_frame _ _ _ _ _ _ _ _ _ HT) as (_ & E & _); exact E].
  analysis_trace; rewrite !events_app; repeat (apply Calm_app; split);
    first [exact Hcalm | calm_events].
Qed.

(** The state with which the next iteration is entered. *)
Lemma RoundRun_continue round st n st1 tr n' :
  RoundRun llm this round st n (Ok (Continue st1)) tr n' ->
  currentRound st1 = currentRound st + 1 /\
  maxRounds st1 = maxRounds st /\
  consensusReached st1 = consensusReached st /\
  finalAnswer st1 = finalAnswer st.
Proof.
  intros HR.
  inversion HR as [|st1' c trT HT Hc Hr| |st1' c trT v trA nA HT Hc Hr HA Hv| |]; subst;
    destruct (Turns_frame _ _ _ _ _ _ _ _ _ HT) as (_ & E2 & E3 & E4 & _ & _ & E7 & _);
    repeat split; assumption.
Qed.

End RoundOutcomes.

(** ** The round loop *)

Section Loop.

Variable llm : Oracle.
Variable this : CouncilOrchestrator.t.


(** The loop is total, and its trace is made of the traces of its
    iterations. *)
Lemma debateLoop_run remaining round st n :
  exists o trs n',
    debateLoop llm this remaining round st n = (o, concat trs, n')
    /\ LoopRun llm this remaining round st n o trs n'.
Proof.
  revert round st n. induction remaining as [|remaining IH]; intros round st n.
  - exists (Ok (Continue st)), [], n. split; [reflexivity | constructor].
  - destruct (roundBody_run llm this round st n) as (o & tr & n1 & Hbody & HR).
    simpl. destruct o as [[st1|st1 answer]|e].
    + destruct (IH (S round) st1 n1) as (o2 & trs & n2 & Hloop & HL).
      exists o2, (tr :: trs), n2. split; [|by econstructor].
      rewrite (bind_Ok _ _ _ _ _ _ Hbody), Hloop. reflexivity.
    + exists (Ok (Return st1 answer)), [tr], n1. split; [|by constructor].
      rewrite (bind_Ok _ _ _ _ _ _ Hbody). reflexivity.
    + exists (Throw e), [tr], n1. split; [|by constructor].
      rewrite (bind_Throw _ _ _ _ _ _ Hbody). simpl. by rewrite app_nil_r.
Qed.

Lemma LoopRun_length remaining round st n o trs n' :
  LoopRun llm this remaining round st n o trs n' -> List.length trs <= remaining.
Proof. induction 1; simpl; lia. Qed.

Lemma LoopRun_guarded remaining round st n o trs n' :
  LoopRun llm this remaining round st n o trs n' ->
  totalWeight startWeight (concat trs) = List.length trs /\
  totalWeight phaseWeight (concat trs) = List.length trs /\
  Guarded isCheckEvent startWeight round (concat trs) /\
  Guarded isAnalysisCall phaseWeight round (concat trs).
Proof.
  induction 1 as [round st n
                 |remaining round st n st1 tr n1 o trs n2 HR _ (I1 & I2 & I3 & I4)
                 |remaining round st n st1 answer tr n1 HR
                 |remaining round st n e tr n1 HR];
    [repeat split; exact I|..];
    destruct (RoundRun_guarded _ _ _ _ _ _ _ _ HR) as (W1 & W2 & G1 & G2); simpl.
  - rewrite !totalWeight_app, W1, W2, I1, I2.
    split; [reflexivity|]. split; [reflexivity|].
    split; apply Guarded_app; rewrite ?W1, ?W2, Nat.add_1_r; by split.
  - by rewrite !app_nil_r.
  - by rewrite !app_nil_r.
Qed.

Lemma LoopRun_events remaining round st n o trs n' :
  LoopRun llm this remaining round st n o trs n' ->
  Forall2 (RoundEvents (CouncilOrchestrator.selectedAdvisors this) (CouncilOrchestrator.maxRounds this))
    (seq (round + 1) (List.length trs)) (map events trs).
Proof.
  induction 1 as [round st n
                 |remaining round st n st1 tr n1 o trs n2 HR _ IH
                 |remaining round st n st1 answer tr n1 HR
                 |remaining round st n e tr n1 HR]; simpl.
  - constructor.
  - constructor; [by eapply RoundRun_events | exact IH].
  - constructor; [by eapply RoundRun_events | constructor].
  - constructor; [by eapply RoundRun_events | constructor].
Qed.


(** A loop that returns from the debate emits the final answer last. *)
Lemma LoopRun_return remaining round st n st' answer trs n' :
  LoopRun llm this remaining round st n (Ok (Return st' answer)) trs n' ->
  exists tr0,
    concat trs = tr0 ++ [Emitted (event final_answer None (Some answer))] /\
    Calm (events tr0) /\
    finalAnswer st' = Some answer /\
    consensusReached st' = true.
Proof.
  remember (Ok (Return st' answer)) as o eqn:Eo.
  induction 1 as [round st n
                 |remaining round st n st1 tr n1 o trs n2 HR _ IH
                 |remaining round st n st1 answer1 tr n1 HR
                 |remaining round st n e tr n1 HR]; try discriminate.
  - destruct (IH Eo) as (tr0 & E & Hcalm & Hf & Hc).
    exists (tr ++ tr0). simpl. rewrite E, app_assoc. split; [reflexivity|].
    split; [|by split].
    rewrite events_app. apply Calm_app. split; [|exact Hcalm].
    eapply RoundRun_calm; [exact HR | discriminate].
  - injection Eo as -> ->.
    destruct (RoundRun_return _ _ _ _ _ _ _ _ _ HR) as (tr0 & -> & Hcalm & Hf & Hc & _ & _).
    exists tr0. simpl. rewrite app_nil_r. by repeat split.
Qed.

(** The state a loop ends with has counted the iterations made. *)
Lemma LoopRun_rounds remaining round st n step trs n' :
  LoopRun llm this remaining round st n (Ok step) trs n' ->
  currentRound (stepState step) = currentRound st + List.length trs.
Proof.
  remember (Ok step) as o eqn:Eo. intros HL. revert step Eo.
  induction HL as [round st n
                  |remaining round st n st1 tr n1 o trs n2 HR _ IH
                  |remaining round st n st1 answer1 tr n1 HR
                  |remaining round st n e tr n1 HR]; intros step Eo; try discriminate.
  - injection Eo as <-. simpl. lia.
  - specialize (IH step Eo).
    destruct (RoundRun_continue _ _ _ _ _ _ _ _ HR) as (R1 & _).
    simpl. lia.
  - injection Eo as <-.
    destruct (RoundRun_return _ _ _ _ _ _ _ _ _ HR) as (_ & _ & _ & _ & _ & _ & R).
    simpl. lia.
Qed.

End Loop.

(** ** Before and after the rounds *)

Section Debate.

Variable llm : Oracle.
Variable this : CouncilOrchestrator.t.


(** Research never throws. *)
Lemma performResearch_run query n :
  exists results tr n',
    performResearch llm this query n = (Ok results, tr, n') /\ Forall isPrelude tr.
Proof.
  unfold performResearch.
  destruct (CouncilOrchestrator.enableResearch this && negb (CouncilOrchestrator.tavilyClient this)).
  { eexists _, _, _. split; [reflexivity|]. simpl.
    repeat (constructor; [simpl; tauto|]); constructor. }
  destruct (negb (CouncilOrchestrator.enableResearch this) || negb (CouncilOrchestrator.tavilyClient this)).
  { eexists _, _, _. split; [reflexivity|]. constructor. }
  unfold try_catch, bind, emit, tavilySearch, ret.
  destruct (tavily_search llm n query) as [results|e]; simpl;
    (eexists _, _, _; split; [reflexivity|]);
    repeat (constructor; [simpl; tauto|]); constructor.
Qed.

(** The debate reaches its rounds, with the state of a new session. *)
Lemma prepareDebate_run userQuestion n :
  exists st tr n',
    prepareDebate llm this userQuestion n = (Ok st, tr, n') /\
    Forall isPrelude tr /\
    currentRound st = 0 /\
    maxRounds st = (CouncilOrchestrator.maxRounds this) /\
    consensusReached st = false /\
    finalAnswer st = None /\
    agentResponses st = agentResponses (createInitialState this userQuestion).
Proof.
  unfold prepareDebate. rewrite emit_then.
  destruct (shouldActivateResearch this userQuestion).
  2: { eexists _, _, _. split; [reflexivity|].
       split; [|by repeat split].
       repeat (constructor; [simpl; tauto|]); constructor. }
  rewrite emit_then.
  destruct (performResearch_run userQuestion n) as (results & tr & n' & Hrun & Htr).
  rewrite (bind_Ok _ _ _ _ _ _ Hrun).
  destruct results as [|r results].
  - eexists _, _, _. split; [reflexivity|].
    split; [|by repeat split].
    unfold prefixed, trace; simpl. rewrite app_nil_r.
    repeat (constructor; [simpl; tauto|]). exact Htr.
  - rewrite emit_then.
    eexists _, _, _. split; [reflexivity|].
    split; [|by repeat split].
    unfold prefixed, trace; simpl.
    repeat (constructor; [simpl; tauto|]).
    apply Forall_app. split; [exact Htr|].
    repeat (constructor; [simpl; tauto|]); constructor.
Qed.

Lemma isPrelude_quiet tr :
  Forall isPrelude tr ->
  Forall (fun o => ~ isCheckEvent o) tr /\
  Forall (fun o => ~ isAnalysisCall o) tr /\
  totalWeight startWeight tr = 0 /\
  totalWeight phaseWeight tr = 0 /\
  Calm (events tr) /\
  Forall isNarration (events tr).
Proof.
  intros H.
  assert (Hk : Forall (fun e => type e <> moderator_analysis /\ type e <> consensus_check
                                /\ type e <> final_answer /\ type e <> error
                                /\ ~ isAgentEvent e) (events tr)).
  { apply Forall_events. eapply Forall_impl; [exact H|].
    intros [e|r|q]; simpl; [|tauto..]. unfold isAgentEvent. intuition congruence. }
  split; [|split; [|split; [|split; [|split]]]].
  - eapply Forall_impl; [exact H|]. intros [e|r|q]; simpl; intuition congruence.
  - eapply Forall_impl; [exact H|]. intros [e|r|q]; simpl; tauto.
  - apply unnarrated_weight. eapply Forall_impl; [exact Hk|]. simpl; tauto.
  - apply unnarrated_weight. eapply Forall_impl; [exact Hk|]. simpl; tauto.
  - eapply Forall_impl; [exact Hk|]. simpl. intuition congruence.
  - eapply Forall_impl; [exact Hk|]. unfold isNarration. simpl. tauto.
Qed.

(** How the debate ends when the rounds are used up. *)
Lemma concludeDebate_run st n :
  exists o trA tail n',
    concludeDebate llm this (Continue st) n
    = (o, Emitted maxRoundsReached :: trA ++ tail, n') /\
    (trA = [] \/ trA = [Requested (analysisRequest this st)]) /\
    ((exists e, o = Throw e /\
        (tail = [] \/ exists v, tail = [Requested (finalRequest this st v)]))
     \/
     (exists v answer,
        o = Ok (set_finalAnswer answer st, answer) /\
        tail = [Requested (finalRequest this st v);
                Emitted (event final_answer None (Some answer))])).
Proof.
  unfold concludeDebate. rewrite emit_then.
  destruct (analyzeConsensus llm this st n) as [[[v|e] trA] nA] eqn:HA;
    pose proof (analyzeConsensus_trace _ _ _ _ _ _ _ HA) as HtrA.
  2: { rewrite (bind_Throw _ _ _ _ _ _ HA).
       exists (Throw e), trA, [], nA. unfold prefixed, outcome, trace, calls; simpl.
       rewrite app_nil_r. split; [reflexivity|]. split; [exact HtrA|]. left. eauto. }
  rewrite (bind_Ok _ _ _ _ _ _ HA).
  pose proof (generateFinalAnswer_eq llm this st v nA) as HF.
  destruct (replyText (messages_create llm nA (finalRequest this st v)))
    as [answer|e].
  - rewrite (bind_Ok _ _ _ _ _ _ HF), emit_then.
    eexists _, trA, _, _. split; [reflexivity|]. split; [exact HtrA|].
    right. exists v, answer. split; reflexivity.
  - rewrite (bind_Throw _ _ _ _ _ _ HF).
    eexists _, trA, _, _. split; [reflexivity|]. split; [exact HtrA|].
    left. exists e. split; [reflexivity|]. right. by exists v.
Qed.

(** The debate: the preparation, the round loop, the conclusion. *)
Lemma runCouncilDebate_run userQuestion conversationHistory n :
  exists st0 trP nP o trs nL,
    prepareDebate llm this userQuestion n = (Ok st0, trP, nP) /\
    LoopRun llm this (CouncilOrchestrator.maxRounds this) 0 st0 nP o trs nL /\
    runCouncilDebate llm this userQuestion conversationHistory n
    = prefixed (trP ++ concat trs) (conclusion llm this o nL).
Proof.
  destruct (prepareDebate_run userQuestion n) as (st0 & trP & nP & HP & _).
  destruct (debateLoop_run llm this (CouncilOrchestrator.maxRounds this) 0 st0 nP) as (o & trs & nL & HL & HR).
  exists st0, trP, nP, o, trs, nL. split; [exact HP|]. split; [exact HR|].
  unfold runCouncilDebate, conclusion. rewrite (bind_Ok _ _ _ _ _ _ HP).
  destruct o as [step|e].
  - rewrite (bind_Ok _ _ _ _ _ _ HL). by rewrite prefixed_prefixed.
  - rewrite (bind_Throw _ _ _ _ _ _ HL). unfold prefixed, outcome, trace, calls; simpl.
    by rewrite app_nil_r.
Qed.

End Debate.

(** * Sample debates *)

(** A standard debate of three advisors whose moderator sees a consensus
    after round 2: two rounds, one consensus check, the final answer, and a
    state that records the consensus. *)
Example standard_debate_reaches_consensus :
  let d := sampleRequest standard [naval; elon; larry] in
  let run := runCouncilDebate overconfidentLlm (orchestratorFor sampleEnv d)
               (question d) (conversationHistory d) 0 in
  map type (events (trace run))
  = [ cost_estimate;
      status; moderator_analysis;
      status; agent_start; agent_response; agent_complete;
      status; agent_start; agent_response; agent_complete;
      status; agent_start; agent_response; agent_complete;
      status; moderator_analysis;
      status; agent_start; agent_response; agent_complete;
      status; agent_start; agent_response; agent_complete;
      status; agent_start; agent_response; agent_complete;
      status; consensus_check;
      status; moderator_analysis; final_answer ] /\
  match outcome run with
  | Ok (state, answer) =>
      currentRound state = 2 /\ consensusReached state = true /\
      finalAnswer state = Some answer /\
      agentResponses state !! elon = Some ["Agreed."; "Agreed."]
  | Throw _ => False
  end.
Proof. vm_compute. repeat split. Qed.

(** A standard debate in which the first call fails: the round goes on
    with two advisors, the debate ends without consensus after round 2. *)
Example debate_survives_one_failure :
  let d := sampleRequest standard [naval; elon; larry] in
  let run := runCouncilDebate flakyLlm (orchestratorFor sampleEnv d)
               (question d) (conversationHistory d) 0 in
  firstn 8 (map type (events (trace run)))
  = [ cost_estimate; status; moderator_analysis;
      status; agent_start; agent_response; error; status ] /\
  countEvents error (events (trace run)) = 1 /\
  countEvents final_answer (events (trace run)) = 1 /\
  match outcome run with
  | Ok (state, _) =>
      currentRound state = 2 /\ consensusReached state = false /\
      agentResponses state !! naval = Some ["Agreed."] /\
      agentResponses state !! elon = Some ["Agreed."; "Agreed."]
  | Throw _ => False
  end.
Proof. vm_compute. repeat split. Qed.

(** * The claims *)

(** ** The consensus analyzer *)

Lemma latestResponses_length this state :
  List.length (latestResponses this state)
  = List.length
      (filter (fun name => 0 < String.length (latestResponse state name))
              (CouncilOrchestrator.selectedAdvisors this)).
Proof.
  unfold latestResponses.
  induction (CouncilOrchestrator.selectedAdvisors this) as [|a l IH]; [reflexivity|].
  cbn [map]. rewrite !filter_cons. cbn [snd].
  destruct (decide (0 < String.length (latestResponse state a)));
    cbn [List.length]; by rewrite IH.
Qed.

(** C5. When fewer than three of the selected advisors have a non-empty
    latest response, [analyzeConsensus] returns the default verdict (no
    consensus, agreement level 0, no agreement and no disagreement point)
    and leaves no trace: no external call is made, and the number of calls
    is unchanged. *)
Theorem analyzeConsensus_short_circuit llm this state n :
  List.length
    (filter (fun name => 0 < String.length (latestResponse state name))
            (CouncilOrchestrator.selectedAdvisors this)) < 3 ->
  exists verdict,
    analyzeConsensus llm this state n = (Ok verdict, [], n) /\
    ConsensusAnalysis.consensusReached verdict = false /\
    ConsensusAnalysis.agreementLevel verdict = 0%Q /\
    ConsensusAnalysis.agreements verdict = [] /\
    ConsensusAnalysis.disagreements verdict = [].
Proof.
  intros H. exists noConsensus. split; [|by repeat split].
  rewrite analyzeConsensus_eq, latestResponses_length.
  apply Nat.ltb_lt in H. by rewrite H.
Qed.

Lemma analyzeConsensus_short_circuit_witness :
  exists verdict,
    analyzeConsensus talkativeLlm (sampleCouncil standard [naval; elon; larry])
      (sampleState [naval; elon; larry] [naval; larry]) 7
    = (Ok verdict, [], 7) /\
    ConsensusAnalysis.consensusReached verdict = false /\
    ConsensusAnalysis.agreementLevel verdict = 0%Q /\
    ConsensusAnalysis.agreements verdict = [] /\
    ConsensusAnalysis.disagreements verdict = [].
Proof.
  apply (analyzeConsensus_short_circuit talkativeLlm
           (sampleCouncil standard [naval; elon; larry])
           (sampleState [naval; elon; larry] [naval; larry]) 7).
  vm_compute. lia.
Defined.

(** ** The round executor *)

Lemma filter_eq_absent (a : AdvisorName) l :
  a ∉ l -> filter (fun b => b = a) l = [].
Proof.
  induction l as [|b l IH]; [reflexivity|]. intros Ha.
  apply not_elem_of_cons in Ha as [Hne Ha].
  rewrite filter_cons_False by congruence. by apply IH.
Qed.

Lemma filter_eq_NoDup (a : AdvisorName) l :
  NoDup l -> List.length (filter (fun b => b = a) l) <= 1.
Proof.
  induction 1 as [|b l Hb _ IH]; [simpl; lia|].
  rewrite filter_cons. destruct (decide (b = a)) as [->|]; [|exact IH].
  rewrite (filter_eq_absent a l Hb). simpl. lia.
Qed.

(** The round executor always ends: it returns the state of the loop when
    at least two turns succeeded, and throws otherwise. *)
Lemma runDebateRound_total llm this state n :
  exists state' successfulResponses tr,
    advisorTurns llm this state n
    = (Ok (state', successfulResponses), tr,
       n + List.length (CouncilOrchestrator.selectedAdvisors this)) /\
    runDebateRound llm this state n
    = (if successfulResponses <? 2 then Throw (insufficient successfulResponses)
       else Ok state',
       tr, n + List.length (CouncilOrchestrator.selectedAdvisors this)).
Proof.
  destruct (advisorTurns_run llm this state n) as (st1 & c & trT & Hturns & _).
  exists st1, c, trT. split; [exact Hturns|]. by apply runDebateRound_eq.
Qed.

(** C10. The state returned by [runDebateRound] has [currentRound] larger
    by one; [messages], [maxRounds], [consensusReached],
    [needsClarification], [clarificationQuestion], [finalAnswer] and
    [researchResults] are the input's; the responses of every advisor are
    the input's followed by at most one response for each time the advisor
    is selected (so at most one when the selection has no duplicate), and
    over all advisors exactly as many responses were added as turns
    succeeded, that is the [successfulResponses] of the loop, which is at
    least two and at most the number of selected advisors. *)
Theorem runDebateRound_frame llm this state n state' tr n' :
  runDebateRound llm this state n = (Ok state', tr, n') ->
  currentRound state' = currentRound state + 1 /\
  messages state' = messages state /\
  maxRounds state' = maxRounds state /\
  consensusReached state' = consensusReached state /\
  needsClarification state' = needsClarification state /\
  clarificationQuestion state' = clarificationQuestion state /\
  finalAnswer state' = finalAnswer state /\
  researchResults state' = researchResults state /\
  (forall a, exists added,
      agentResponses state' !! a
      = (fun responses => responses ++ added) <$> (agentResponses state !! a) /\
      List.length added
      <= List.length (filter (fun b => b = a) (CouncilOrchestrator.selectedAdvisors this)) /\
      (NoDup (CouncilOrchestrator.selectedAdvisors this) -> List.length added <= 1)) /\
  (exists successfulResponses,
      outcome (advisorTurns llm this state n) = Ok (state', successfulResponses) /\
      2 <= successfulResponses
        <= List.length (CouncilOrchestrator.selectedAdvisors this) /\
      totalResponses (agentResponses state')
      = totalResponses (agentResponses state) + successfulResponses).
Proof.
  intros Hrun.
  destruct (advisorTurns_run llm this state n) as (st1 & c & trT & Hturns & HT).
  rewrite (runDebateRound_eq _ _ _ _ _ _ _ Hturns) in Hrun.
  destruct (c <? 2) eqn:Hc; [discriminate|]. apply Nat.ltb_ge in Hc.
  injection Hrun as <- <- <-.
  destruct (Turns_frame _ _ _ _ _ _ _ _ _ HT) as (E1 & E2 & E3 & E4 & E5 & E6 & E7 & E8).
  simpl in *. repeat (split; [assumption|]). split.
  - intros a. destruct (Turns_responses _ _ _ _ _ _ _ _ _ a HT) as (added & E & L).
    exists added. split; [exact E|]. split; [exact L|].
    intros Hnd. pose proof (filter_eq_NoDup a _ Hnd). lia.
  - exists c. rewrite Hturns. split; [reflexivity|].
    pose proof (Turns_count _ _ _ _ _ _ _ _ _ HT) as Hk.
    split; [lia|].
    pose proof (Turns_total _ _ _ _ _ _ _ _ _ HT) as Ht. simpl in Ht. lia.
Qed.

Lemma runDebateRound_frame_witness :
  let this := sampleCouncil standard [naval; elon; larry] in
  let state := sampleState [naval; elon; larry] [naval; elon; larry] in
  runDebateRound flakyLlm this state 0
  = (Ok sampleRoundState, trace sampleRound, calls sampleRound) /\
  currentRound sampleRoundState = currentRound state + 1 /\
  finalAnswer sampleRoundState = finalAnswer state /\
  agentResponses sampleRoundState !! naval = Some ["Raise them."] /\
  agentResponses sampleRoundState !! elon = Some ["Raise them."; "Agreed."] /\
  exists successfulResponses,
    outcome (advisorTurns flakyLlm this state 0)
    = Ok (sampleRoundState, successfulResponses) /\
    2 <= successfulResponses <= 3 /\
    totalResponses (agentResponses sampleRoundState)
    = totalResponses (agentResponses state) + successfulResponses.
Proof.
  intros this state.
  assert (Hrun : runDebateRound flakyLlm this state 0
                 = (Ok sampleRoundState, trace sampleRound, calls sampleRound))
    by (vm_compute; reflexivity).
  destruct (runDebateRound_frame flakyLlm this state 0 sampleRoundState
              (trace sampleRound) (calls sampleRound) Hrun)
    as (E1 & _ & _ & _ & _ & _ & E7 & _ & _ & k & Ek & Hk & Et).
  split; [exact Hrun|]. split; [exact E1|]. split; [exact E7|].
  split; [vm_compute; reflexivity|]. split; [vm_compute; reflexivity|].
  exists k. split; [exact Ek|]. split; [exact Hk | exact Et].
Defined.

(** The model of a turn ends as [turnEnd] tells from the reply of the
    service: with a success exactly when the stream ended normally with a
    non-empty text and the advisor has a list of responses. *)
Lemma turnEnd_not_Succeeded llm this a st n :
  failure (turnReply llm this a st n) <> None \/
  fullText (items (turnReply llm this a st n)) = EmptyString ->
  turnEnd llm this a st n
  = match failure (turnReply llm this a st n) with
    | Some caught => Failed caught
    | None => Empty
    end.
Proof.
  unfold turnEnd. destruct (failure _) as [caught|]; [reflexivity|].
  intros [H| ->]; [congruence | reflexivity].
Qed.

(** C7, as the code has it. A turn whose call throws (a provider error,
    a timeout raised by the client) or whose response is empty is
    contained: the turn itself does not throw, it leaves the state and the
    number of successful responses as they were, and the loop goes on with
    the remaining advisors from there. When something was thrown the turn
    closes with an error event that names the advisor; an empty response
    raises no error, the turn closes with [agent_complete]. *)
Theorem failed_turn_is_contained llm this a st k n rest :
  failure (turnReply llm this a st n) <> None \/
  fullText (items (turnReply llm this a st n)) = EmptyString ->
  exists closing,
    advisorTurn llm this a (st, k) n
    = (Ok (st, k),
       turnOpening a
       ++ Requested (advisorRequest this a st true)
       :: chunkEvents a (deltas (items (turnReply llm this a st n)))
       ++ [Emitted closing],
       S n) /\
    forEach (advisorTurn llm this) (a :: rest) (st, k) n
    = prefixed (trace (advisorTurn llm this a (st, k) n))
        (forEach (advisorTurn llm this) rest (st, k) (S n)) /\
    closing
    = match failure (turnReply llm this a st n) with
      | Some caught => advisorNotice a caught
      | None => event agent_complete (Some a) None
      end.
Proof.
  intros Hfail. pose proof (turnEnd_not_Succeeded _ _ _ _ _ Hfail) as He.
  exists (turnClosing a (turnEnd llm this a st n)).
  rewrite forEach_turn, advisorTurn_eq, He.
  destruct (failure (turnReply llm this a st n)) as [caught|] eqn:Hf; simpl;
    rewrite Nat.add_0_r; unfold turnTrace; rewrite He; simpl; by repeat split.
Qed.

Lemma failed_turn_is_contained_witness :
  let this := sampleCouncil standard [naval; elon; larry] in
  let state := sampleState [naval; elon; larry] [] in
  exists closing,
    advisorTurn flakyLlm this naval (state, 0) 0
    = (Ok (state, 0),
       turnOpening naval
       ++ Requested (advisorRequest this naval state true)
       :: chunkEvents naval ["Well"] ++ [Emitted closing],
       1) /\
    forEach (advisorTurn flakyLlm this) [naval; elon; larry] (state, 0) 0
    = prefixed (trace (advisorTurn flakyLlm this naval (state, 0) 0))
        (forEach (advisorTurn flakyLlm this) [elon; larry] (state, 0) 1) /\
    closing = advisorNotice naval (JsError "overloaded").
Proof.
  intros this state.
  apply (failed_turn_is_contained flakyLlm this naval state 0 0 [elon; larry]).
  left. vm_compute. discriminate.
Defined.

(** C7 as stated fails on an empty response: the advisor's turn adds no
    response and no success, and no error event is emitted. *)
Lemma empty_response_raises_no_error :
  let this := sampleCouncil standard [naval; elon; larry] in
  let state := sampleState [naval; elon; larry] [] in
  let turn := advisorTurn silentLlm this naval (state, 0) 0 in
  fullText (items (turnReply silentLlm this naval state 0)) = EmptyString /\
  outcome turn = Ok (state, 0) /\
  filter (fun e => type e = error) (events (trace turn)) = [] /\
  List.last (events (trace turn)) (event error None None)
  = event agent_complete (Some naval) None.
Proof. vm_compute. repeat split. Qed.

(** ** The fatal failure of a round *)

Lemma bind_bind_Ok {A B C} (m : M A) (f : A -> M B) (k : B -> M C) n a t n1 :
  m n = (Ok a, t, n1) ->
  bind (bind m f) k n = prefixed t (bind (f a) k n1).
Proof.
  intros Hm. unfold bind, prefixed, outcome, trace, calls. rewrite Hm.
  destruct (f a n1) as [[[b|e] t2] n2]; simpl; [|reflexivity].
  destruct (k b n2) as [[r t3] n3]; simpl. by rewrite app_assoc.
Qed.

Section Abort.

Variable llm : Oracle.
Variable this : CouncilOrchestrator.t.


Lemma afterRounds_continue remaining round st n st1 tr n1 :
  roundBody llm this round st n = (Ok (Continue st1), tr, n1) ->
  afterRounds llm this (S remaining) round st n
  = prefixed tr (afterRounds llm this remaining (S round) st1 n1).
Proof. intros H. unfold afterRounds. simpl. by rewrite (bind_bind_Ok _ _ _ _ _ _ _ H). Qed.

Lemma afterRounds_throw remaining round st n e tr n1 :
  roundBody llm this round st n = (Throw e, tr, n1) ->
  afterRounds llm this (S remaining) round st n = (Throw e, tr, n1).
Proof.
  intros H. unfold afterRounds. simpl.
  by rewrite (bind_Throw _ _ _ _ _ _ (bind_Throw _ _ _ _ _ _ H)).
Qed.

Lemma roundBody_RoundRun round st n o tr n' :
  roundBody llm this round st n = (o, tr, n') -> RoundRun llm this round st n o tr n'.
Proof.
  intros H. destruct (roundBody_run llm this round st n) as (o' & tr' & n'' & E & HR).
  rewrite H in E. by injection E as <- <- <-.
Qed.

(** Until the loop is entered for an iteration, the debate has emitted
    no final answer and set none in the state. *)
Lemma AtRound_run userQuestion conversationHistory round st n :
  AtRound llm this userQuestion round st n ->
  exists tr0,
    runCouncilDebate llm this userQuestion conversationHistory 0
    = prefixed tr0 (afterRounds llm this ((CouncilOrchestrator.maxRounds this) - round) round st n) /\
    Calm (events tr0) /\
    finalAnswer st = None /\
    consensusReached st = false /\
    currentRound st = round.
Proof.
  induction 1 as [st tr n Hprep|round st n st1 tr n1 _ (tr0 & Erun & Hcalm & Hf & Hc & Hr) Hlt Hbody].
  - exists tr.
    destruct (prepareDebate_run llm this userQuestion 0)
      as (st' & tr' & n' & E & Hpre & P1 & _ & P3 & P4 & _).
    rewrite Hprep in E. injection E as <- <- <-.
    split; [|split; [|by repeat split]].
    + unfold runCouncilDebate, afterRounds. rewrite Nat.sub_0_r.
      by rewrite (bind_Ok _ _ _ _ _ _ Hprep).
    + by destruct (isPrelude_quiet _ Hpre) as (_ & _ & _ & _ & H & _).
  - exists (tr0 ++ tr).
    pose proof (roundBody_RoundRun _ _ _ _ _ _ Hbody) as HR.
    destruct (RoundRun_continue _ _ _ _ _ _ _ _ HR) as (R1 & _ & R3 & R4).
    split; [|split; [|repeat split; [congruence | congruence | lia]]].
    + rewrite Erun. replace ((CouncilOrchestrator.maxRounds this) - round) with (S ((CouncilOrchestrator.maxRounds this) - S round)) by lia.
      rewrite (afterRounds_continue _ _ _ _ _ _ _ Hbody). by rewrite prefixed_prefixed.
    + rewrite events_app. apply Calm_app. split; [exact Hcalm|].
      eapply RoundRun_calm; [exact HR | discriminate].
Qed.

(** A round with fewer than two successful responses throws. *)
Lemma roundBody_insufficient round st n st1 c trT n1 :
  advisorTurns llm this st n = (Ok (st1, c), trT, n1) ->
  c < 2 ->
  roundBody llm this round st n
  = (Throw (insufficient c), roundOpening this round ++ trT, n1).
Proof.
  intros Hturns Hc.
  destruct (advisorTurns_run llm this st n) as (st1' & c' & trT' & E & _).
  rewrite Hturns in E. injection E as <- <- <- ->.
  pose proof (runDebateRound_eq _ _ _ _ _ _ _ Hturns) as Hround.
  apply Nat.ltb_lt in Hc. rewrite Hc in Hround.
  unfold roundBody. rewrite !emit_then, (bind_Throw _ _ _ _ _ _ Hround).
  reflexivity.
Qed.

End Abort.

Lemma insufficient_message env c :
  c < 2 ->
  getSafeErrorMessage (NODE_ENV_development env) (insufficient c)
  = if NODE_ENV_development env
    then "Insufficient advisor responses: only " +++ Js.numToString c +++ " succeeded"
    else "An error occurred. Please try again.".
Proof.
  intros Hc. unfold getSafeErrorMessage. destruct (NODE_ENV_development env); [reflexivity|].
  destruct c as [|[|c]]; [reflexivity | reflexivity | lia].
Qed.

Lemma fatalEvent_not_notice env c : c < 2 -> ~ isAdvisorNotice (fatalEvent env (insufficient c)).
Proof.
  intros Hc (a & caught & E). unfold fatalEvent in E.
  rewrite (insufficient_message env c Hc) in E.
  unfold advisorNotice, event in E.
  destruct (NODE_ENV_development env); destruct a; simpl in E; discriminate E.
Qed.

(** C2. When a round of the debate ends with fewer than two successful
    responses, the debate throws the error of the insufficient round and
    returns no final answer; the state with which that round was entered
    has no final answer set; the stream of the route is what was emitted
    until then followed by one error event for the failure, it has no
    [final_answer] event, and every error event before the last is the
    notice of an advisor's failed turn, which the last is not. *)
Theorem insufficient_round_aborts llm env d round st n st1 c trT n1 :
  let this := orchestratorFor env d in
  AtRound llm this (question d) round st n ->
  round < CouncilOrchestrator.maxRounds this ->
  advisorTurns llm this st n = (Ok (st1, c), trT, n1) ->
  c < 2 ->
  outcome (runCouncilDebate llm this (question d) (conversationHistory d) 0)
  = Throw (insufficient c) /\
  finalAnswer st = None /\
  exists evs,
    responseStream llm env d = evs ++ [fatalEvent env (insufficient c)] /\
    Forall (fun e => type e <> final_answer) (responseStream llm env d) /\
    Forall (fun e => type e = error -> isAdvisorNotice e) evs /\
    ~ isAdvisorNotice (fatalEvent env (insufficient c)).
Proof.
  intros this Hat Hround Hturns Hc.
  destruct (AtRound_run llm this (question d) (conversationHistory d) _ _ _ Hat)
    as (tr0 & Erun & Hcalm & Hf & _).
  pose proof (roundBody_insufficient _ _ round _ _ _ _ _ _ Hturns Hc) as Hbody.
  replace (CouncilOrchestrator.maxRounds this - round)
    with (S (CouncilOrchestrator.maxRounds this - S round)) in Erun by lia.
  rewrite (afterRounds_throw _ _ _ _ _ _ _ _ _ Hbody) in Erun.
  unfold prefixed, outcome, trace, calls in Erun. simpl in Erun.
  assert (Hcalm' : Calm (events (tr0 ++ roundOpening this round ++ trT))).
  { rewrite !events_app. apply Calm_app. split; [exact Hcalm|].
    apply Calm_app. split; [calm_events|].
    destruct (advisorTurns_run llm this st n) as (st1' & c' & trT' & E & HT).
    fold this in E. rewrite Hturns in E. injection E as <- <- <- _.
    by eapply Turns_calm. }
  split; [by rewrite Erun|]. split; [exact Hf|].
  exists (events (tr0 ++ roundOpening this round ++ trT)).
  assert (Estream : responseStream llm env d
            = events (tr0 ++ roundOpening this round ++ trT)
              ++ [fatalEvent env (insufficient c)]).
  { unfold responseStream, debateTask, try_catch. fold this.
    rewrite (bind_Throw _ _ _ _ _ _ Erun). unfold trace. simpl.
    by rewrite events_app. }
  split; [exact Estream|]. split; [|split].
  - rewrite Estream. apply Forall_app. split.
    + eapply Forall_impl; [exact Hcalm'|]. simpl; tauto.
    + repeat constructor. discriminate.
  - eapply Forall_impl; [exact Hcalm'|]. simpl; tauto.
  - by apply fatalEvent_not_notice.
Qed.

Lemma insufficient_round_aborts_witness :
  let d := sampleRequest standard [naval; elon; larry] in
  let this := orchestratorFor sampleEnv d in
  outcome (runCouncilDebate silentLlm this (question d) (conversationHistory d) 0)
  = Throw (insufficient 0) /\
  finalAnswer (createInitialState this (question d)) = None /\
  exists evs,
    responseStream silentLlm sampleEnv d = evs ++ [fatalEvent sampleEnv (insufficient 0)] /\
    Forall (fun e => type e <> final_answer) (responseStream silentLlm sampleEnv d) /\
    Forall (fun e => type e = error -> isAdvisorNotice e) evs /\
    ~ isAdvisorNotice (fatalEvent sampleEnv (insufficient 0)).
Proof.
  intros d this. set (st := createInitialState this (question d)).
  apply (insufficient_round_aborts silentLlm sampleEnv d 0 st 0
           (set_currentRound 1 st) 0 (trace (advisorTurns silentLlm this st 0)) 3).
  - apply (at_first silentLlm this (question d) st
             (trace (prepareDebate silentLlm this (question d) 0)) 0).
    vm_compute. reflexivity.
  - vm_compute. lia.
  - vm_compute. reflexivity.
  - lia.
Defined.

(** ** The round budget and the consensus gate *)

Section Budget.

Variable llm : Oracle.
Variable this : CouncilOrchestrator.t.


(** What the end of the debate leaves in the trace: no consensus check,
    the analysis call only after the end of the rounds was announced. *)
Lemma conclusion_guarded o n k :
  let tr := trace (conclusion llm this o n) in
  Forall (fun ob => ~ isCheckEvent ob) tr /\
  Guarded isAnalysisCall phaseWeight k tr /\
  totalWeight startWeight tr = 0 /\
  Forall isNarration (events tr).
Proof.
  unfold conclusion.
  destruct o as [[st|st answer]|e];
    [|simpl; repeat split; constructor..].
  destruct (concludeDebate_run llm this st n)
    as (o & trA & tail & n' & -> & HtrA & Htail).
  unfold trace; simpl.
  assert (Hshape : Forall (fun ob =>
              match ob with
              | Emitted e => type e = final_answer
              | Requested _ => True
              | Searched _ => False
              end) (trA ++ tail)).
  { apply Forall_app. split.
    - destruct HtrA as [->| ->]; repeat constructor.
    - destruct Htail as [(e & _ & [->|(v & ->)])|(v & answer & _ & ->)];
        repeat constructor. }
  split; [|split; [|split]].
  - constructor; [simpl; discriminate|].
    eapply Forall_impl; [exact Hshape|]. intros [e|r|q]; simpl; [congruence | tauto..].
  - split; [simpl; tauto|]. apply Guarded_late. simpl. lia.
  - change (totalWeight startWeight (trA ++ tail) = 0).
    apply unnarrated_weight, Forall_events.
    eapply Forall_impl; [exact Hshape|]. intros [e|r|q]; simpl; [congruence | tauto..].
  - constructor; [split; [unfold isAgentEvent; simpl; intuition discriminate | discriminate]|].
    apply Forall_events. eapply Forall_impl; [exact Hshape|].
    intros [e|r|q]; [|tauto..]. intros He. unfold isNarration, isAgentEvent.
    rewrite He. intuition discriminate.
Qed.

(** Over the whole debate: at most [maxRounds] rounds are started, the
    consensus check comes only once two rounds were started, and so does
    the analysis call, unless the end of the rounds was announced. *)
Lemma debate_guarded userQuestion conversationHistory n :
  let tr := trace (runCouncilDebate llm this userQuestion conversationHistory n) in
  totalWeight startWeight tr <= (CouncilOrchestrator.maxRounds this) /\
  Guarded isCheckEvent startWeight 0 tr /\
  Guarded isAnalysisCall phaseWeight 0 tr.
Proof.
  destruct (runCouncilDebate_run llm this userQuestion conversationHistory n)
    as (st0 & trP & nP & o & trs & nL & HP & HL & ->).
  destruct (prepareDebate_run llm this userQuestion n)
    as (st0' & trP' & nP' & E & Hpre & _).
  rewrite HP in E. injection E as <- <- <-.
  destruct (isPrelude_quiet _ Hpre) as (P1 & P2 & P3 & P4 & _).
  destruct (LoopRun_guarded _ _ _ _ _ _ _ _ _ HL) as (L1 & L2 & L3 & L4).
  pose proof (LoopRun_length _ _ _ _ _ _ _ _ _ HL) as Hlen.
  destruct (conclusion_guarded o nL (0 + totalWeight phaseWeight trP
                                      + totalWeight phaseWeight (concat trs)))
    as (C1 & C2 & C3 & _).
  unfold prefixed, trace at 1; simpl.
  split; [|split].
  - rewrite !totalWeight_app, P3, L1, C3. lia.
  - rewrite <- app_assoc. apply Guarded_app. split; [by apply Guarded_none|].
    apply Guarded_app. rewrite P3. split; [exact L3 | by apply Guarded_none].
  - rewrite <- app_assoc. apply Guarded_app. split; [by apply Guarded_none|].
    apply Guarded_app. rewrite P4. split; [exact L4|].
    rewrite P4 in C2. exact C2.
Qed.

(** The state a debate returns has counted the rounds started. *)
Lemma debate_rounds userQuestion conversationHistory n state answer :
  outcome (runCouncilDebate llm this userQuestion conversationHistory n)
  = Ok (state, answer) ->
  currentRound state
  = roundsStarted (events (trace (runCouncilDebate llm this userQuestion
                                    conversationHistory n))).
Proof.
  destruct (runCouncilDebate_run llm this userQuestion conversationHistory n)
    as (st0 & trP & nP & o & trs & nL & HP & HL & ->).
  destruct (prepareDebate_run llm this userQuestion n)
    as (st0' & trP' & nP' & E & Hpre & P1 & _).
  rewrite HP in E. injection E as <- <- <-.
  destruct (isPrelude_quiet _ Hpre) as (_ & _ & P3 & _).
  destruct (LoopRun_guarded _ _ _ _ _ _ _ _ _ HL) as (L1 & _).
  destruct (conclusion_guarded o nL 0) as (_ & _ & C3 & _).
  intros Hout. unfold prefixed in Hout |- *.
  unfold outcome, trace in Hout, C3 |- *. cbn [fst snd] in Hout |- *.
  rewrite <- startWeight_rounds, !totalWeight_app, P3, L1, C3.
  destruct o as [step|e]; [|discriminate].
  pose proof (LoopRun_rounds _ _ _ _ _ _ _ _ _ HL) as Hrounds.
  rewrite P1 in Hrounds.
  assert (currentRound state = currentRound (stepState step)) as ->; [|lia].
  unfold conclusion in Hout. destruct step as [st|st answer'].
  - destruct (concludeDebate_run llm this st nL)
      as (o & trA & tail & n' & Econ & _ & Hend).
    rewrite Econ in Hout. cbn [fst] in Hout.
    destruct Hend as [(e & -> & _)|(v & answer' & -> & _)]; [discriminate|].
    by injection Hout as <- _.
  - simpl in Hout. by injection Hout as <- _.
Qed.

End Budget.

(** C3, as the code has it. Whatever the advisors selected, the mode
    [quick], [standard] or [deep] gives the orchestrator and the session a
    [maxRounds] of 1, 2 or 3; the debate starts at most [maxRounds]
    rounds, and the [currentRound] of the state it returns is the number
    of rounds started; a [consensus_check] event is emitted only once two
    rounds were
    started; and the consensus analyzer makes its call only once two
    rounds were started or, for the final synthesis, after the end of the
    rounds was announced. *)
Theorem rounds_bounded_and_check_gated llm env d n :
  let this := orchestratorFor env d in
  let tr := trace (runCouncilDebate llm this (question d) (conversationHistory d) n) in
  CouncilOrchestrator.maxRounds this
  = match mode d with quick => 1 | standard => 2 | deep => 3 end /\
  maxRounds (createInitialState this (question d)) = CouncilOrchestrator.maxRounds this /\
  roundsStarted (events tr) <= CouncilOrchestrator.maxRounds this /\
  (forall state answer,
      outcome (runCouncilDebate llm this (question d) (conversationHistory d) n)
      = Ok (state, answer) ->
      currentRound state = roundsStarted (events tr)) /\
  (forall pre e post,
      tr = pre ++ Emitted e :: post ->
      type e = consensus_check ->
      2 <= roundsStarted (events pre)) /\
  (forall pre r post,
      tr = pre ++ Requested r :: post ->
      isAnalysisRequest r = true ->
      2 <= roundsStarted (events pre)
      \/ exists e, In (Emitted e) pre /\ isMaxRoundsReached e = true).
Proof.
  intros this tr.
  destruct (debate_guarded llm this (question d) (conversationHistory d) n)
    as (Hle & Hchecks & Hcalls).
  fold tr in Hle, Hchecks, Hcalls.
  split; [unfold this, orchestratorFor; simpl; by destruct (mode d)|]. split; [reflexivity|].
  split; [by rewrite <- startWeight_rounds|].
  split; [intros state answer Hout; exact (debate_rounds _ _ _ _ _ _ _ Hout)|]. split.
  - intros pre e post E He. rewrite <- startWeight_rounds.
    by apply (Guarded_split _ _ _ _ _ _ Hchecks E).
  - intros pre r post E Hr. apply phaseWeight_rounds.
    by apply (Guarded_split _ _ _ _ _ _ Hcalls E).
Qed.

(** C3 as stated fails in quick mode: with three advisors who all answer,
    only one round is ever started and no [consensus_check] event is
    emitted, yet the consensus analyzer is run on the responses of that
    first round: its request is sent to the completion service. *)
Lemma analyzer_runs_after_the_only_round :
  let d := sampleRequest quick [naval; elon; larry] in
  let tr := trace (runCouncilDebate talkativeLlm (orchestratorFor sampleEnv d)
                     (question d) (conversationHistory d) 0) in
  roundsStarted (events tr) = 1 /\
  countEvents consensus_check (events tr) = 0 /\
  List.length (filter (fun r => isAnalysisRequest r = true) (requests tr)) = 1 /\
  Forall (fun r => isAnalysisRequest r = true ->
                   Js.startsWith (req_prompt r)
                     "Analyze the following advisor responses to determine if consensus has been reached."
                   = true)
         (requests tr).
Proof.
  vm_compute. split; [reflexivity|]. split; [reflexivity|]. split; [reflexivity|].
  repeat constructor; intros; congruence.
Qed.

(** ** The order of the events *)

Lemma events_concat trs : events (concat trs) = concat (map events trs).
Proof.
  induction trs as [|tr trs IH]; [reflexivity|].
  simpl. by rewrite events_app, IH.
Qed.

(** C9. The event stream of a debate is made of the events before the
    rounds, the events of the rounds started, numbered from 1, and the
    events after them. The events of a round are its opening, then the
    turns of the selected advisors one after the other and in the order of
    the selection, every turn being the advisor's [agent_start], the
    [agent_response] chunks and the closing [agent_complete] (an error
    notice when the turn failed), and after all the turns what the
    moderator emits, where no event of an advisor occurs. No event of an
    advisor and no [consensus_check] occur before or after the rounds, so
    the [consensus_check] events of a round come after all of its turns
    and before the next round. *)
Theorem turns_in_sequence_then_check llm this userQuestion conversationHistory n :
  exists pre rounds post,
    events (trace (runCouncilDebate llm this userQuestion conversationHistory n))
    = pre ++ concat rounds ++ post /\
    Forall2 (RoundEvents (CouncilOrchestrator.selectedAdvisors this)
                         (CouncilOrchestrator.maxRounds this))
            (seq 1 (List.length rounds)) rounds /\
    Forall isNarration pre /\
    Forall isNarration post.
Proof.
  destruct (runCouncilDebate_run llm this userQuestion conversationHistory n)
    as (st0 & trP & nP & o & trs & nL & HP & HL & ->).
  destruct (prepareDebate_run llm this userQuestion n)
    as (st0' & trP' & nP' & E & Hpre & _).
  rewrite HP in E. injection E as <- <- <-.
  destruct (isPrelude_quiet _ Hpre) as (_ & _ & _ & _ & _ & Hnarr).
  destruct (conclusion_guarded llm this o nL 0) as (_ & _ & _ & Hpost).
  exists (events trP), (map events trs), (events (trace (conclusion llm this o nL))).
  split; [|split; [|by split]].
  - unfold prefixed, trace at 1; simpl.
    by rewrite !events_app, events_concat, <- app_assoc.
  - rewrite length_map. exact (LoopRun_events _ _ _ _ _ _ _ _ _ HL).
Qed.

(** ** The quick debate *)

Lemma countEvents_app t a b : countEvents t (a ++ b) = countEvents t a + countEvents t b.
Proof. unfold countEvents. by rewrite filter_app, length_app. Qed.

Lemma countEvents_none t evs :
  Forall (fun e => type e <> t) evs -> countEvents t evs = 0.
Proof.
  unfold countEvents. induction 1 as [|e evs He _ IH]; [reflexivity|].
  by rewrite filter_cons_False.
Qed.

Lemma no_check_count tr :
  Forall (fun o => ~ isCheckEvent o) tr -> countEvents consensus_check (events tr) = 0.
Proof.
  intros H. apply countEvents_none, Forall_events.
  eapply Forall_impl; [exact H|]. intros [e|r|q]; simpl; tauto.
Qed.

Lemma Calm_count evs : Calm evs -> countEvents final_answer evs = 0.
Proof. intros H. apply countEvents_none. eapply Forall_impl; [exact H|]. simpl; tauto. Qed.

Lemma no_call_requests tr :
  Forall (fun o => ~ isAnalysisCall o) tr ->
  filter (fun r => isAnalysisRequest r = true) (requests tr) = [].
Proof.
  unfold requests. induction 1 as [|o tr Ho _ IH]; [reflexivity|].
  destruct o as [e|r|q]; simpl; [exact IH| |exact IH].
  rewrite filter_cons_False by exact Ho. exact IH.
Qed.

Lemma truthy_length s : Js.truthy s = true -> 0 < String.length s.
Proof. destruct s; [discriminate | simpl; lia]. Qed.

Lemma createInitialState_lookup this userQuestion a :
  a ∈ CouncilOrchestrator.selectedAdvisors this ->
  agentResponses (createInitialState this userQuestion) !! a = Some [].
Proof.
  unfold createInitialState; simpl.
  generalize (∅ : AgentResponses).
  induction (CouncilOrchestrator.selectedAdvisors this) as [|b l IH]; intros m Ha.
  - by apply elem_of_nil in Ha.
  - simpl. destruct (decide (a ∈ l)) as [Hin|Hout]; [by apply IH|].
    apply elem_of_cons in Ha as [->|Ha]; [|contradiction].
    clear IH. revert m. induction l as [|c l IH]; intros m; simpl.
    + apply lookup_insert_eq.
    + apply not_elem_of_cons in Hout as [Hne Hout].
      rewrite insert_insert_ne by done. by apply IH.
Qed.

Section AllSucceed.

Variable llm : Oracle.
Variable this : CouncilOrchestrator.t.

Hypothesis advisors_answer : forall k r,
  failure (messages_stream llm k r) = None /\
  Js.truthy (fullText (items (messages_stream llm k r))) = true.

Lemma turnEnd_answer a st n :
  is_Some (agentResponses st !! a) ->
  turnEnd llm this a st n = Succeeded (fullText (items (turnReply llm this a st n))).
Proof.
  intros [responses Hl]. unfold turnEnd, turnReply.
  destruct (advisors_answer n (advisorRequest this a st true)) as [-> ->].
  by rewrite Hl.
Qed.

(** When every advisor answers, every turn counts and leaves the
    advisor with a non-empty latest response. *)
Lemma Turns_all_succeed l st k n st' k' tr :
  Turns llm this l st k n st' k' tr ->
  (forall a, a ∈ l -> is_Some (agentResponses st !! a)) ->
  k' = k + List.length l /\
  (forall a, a ∈ l \/ 0 < String.length (latestResponse st a) ->
             0 < String.length (latestResponse st' a)).
Proof.
  induction 1 as [|b rest st k n st' k' tr _ IH]; intros Hdom.
  - split; [simpl; lia|]. intros a [Ha|Ha]; [by apply elem_of_nil in Ha | exact Ha].
  - assert (Hb : is_Some (agentResponses st !! b)) by (apply Hdom; by left).
    pose proof (turnEnd_answer b st n Hb) as He.
    destruct (advisors_answer n (advisorRequest this b st true)) as [_ Htruthy].
    fold (turnReply llm this b st n) in Htruthy.
    rewrite He in IH. simpl in IH.
    destruct IH as [-> IH].
    { intros a Ha. destruct (decide (b = a)) as [->|Hne].
      - rewrite lookup_insert_eq. eauto.
      - rewrite lookup_insert_ne by done. apply Hdom. by right. }
    split; [simpl; lia|]. intros a Ha. apply IH.
    destruct (decide (b = a)) as [->|Hne].
    + right. unfold latestResponse. simpl. rewrite lookup_insert_eq.
      rewrite List.last_last. by apply truthy_length.
    + destruct Ha as [Ha|Ha].
      * apply elem_of_cons in Ha as [->|Ha]; [contradiction | by left].
      * right. unfold latestResponse in *. simpl. by rewrite lookup_insert_ne.
Qed.

End AllSucceed.

Lemma filter_all_length {A} (P : A -> Prop) `{forall x, Decision (P x)} (l : list A) :
  Forall P l -> List.length (filter P l) = List.length l.
Proof.
  induction 1 as [|x l Hx _ IH]; [reflexivity|].
  rewrite filter_cons_True by exact Hx. simpl. by rewrite IH.
Qed.

Section QuickDebate.

Variable llm : Oracle.
Variable this : CouncilOrchestrator.t.

(** The first round, when at least two advisors answered. *)
Lemma roundBody_first st n st1 c trT n1 :
  advisorTurns llm this st n = (Ok (st1, c), trT, n1) ->
  2 <= c ->
  roundBody llm this 0 st n = (Ok (Continue st1), roundOpening this 0 ++ trT, n1).
Proof.
  intros Hturns Hc.
  destruct (advisorTurns_run llm this st n) as (st1' & c' & trT' & E & _).
  rewrite Hturns in E. injection E as <- <- <- ->.
  pose proof (runDebateRound_eq _ _ _ _ _ _ _ Hturns) as Hround.
  apply Nat.ltb_ge in Hc. rewrite Hc in Hround.
  unfold roundBody. rewrite !emit_then, (bind_Ok _ _ _ _ _ _ Hround).
  unfold prefixed, outcome, trace, calls; simpl. by rewrite app_nil_r.
Qed.

Lemma runCouncilDebate_afterRounds userQuestion conversationHistory n st0 trP nP :
  prepareDebate llm this userQuestion n = (Ok st0, trP, nP) ->
  runCouncilDebate llm this userQuestion conversationHistory n
  = prefixed trP (afterRounds llm this (CouncilOrchestrator.maxRounds this) 0 st0 nP).
Proof. intros HP. unfold runCouncilDebate. by rewrite (bind_Ok _ _ _ _ _ _ HP). Qed.

(** The synthesis after the rounds, when at least three advisors have
    answered and the moderator replies to both calls. *)
Lemma concludeDebate_synthesis st n t answer :
  3 <= List.length (latestResponses this st) ->
  replyText (messages_create llm n (analysisRequest this st)) = Ok t ->
  replyText (messages_create llm (S n) (finalRequest this st (parseConsensus t)))
  = Ok answer ->
  concludeDebate llm this (Continue st) n
  = (Ok (set_finalAnswer answer st, answer),
     [ Emitted maxRoundsReached;
       Requested (analysisRequest this st);
       Requested (finalRequest this st (parseConsensus t));
       Emitted (event final_answer None (Some answer)) ],
     S (S n)).
Proof.
  intros Hlen Ht Ha.
  assert (HA : analyzeConsensus llm this st n
               = (Ok (parseConsensus t), [Requested (analysisRequest this st)], S n)).
  { rewrite analyzeConsensus_eq. apply Nat.ltb_ge in Hlen. by rewrite Hlen, Ht. }
  pose proof (generateFinalAnswer_eq llm this st (parseConsensus t) (S n)) as HF.
  rewrite Ha in HF.
  unfold concludeDebate.
  rewrite emit_then, (bind_Ok _ _ _ _ _ _ HA), (bind_Ok _ _ _ _ _ _ HF), emit_then.
  reflexivity.
Qed.

End QuickDebate.

(** C4, as the code has it. In quick mode with five advisors who all
    answer, and a moderator who replies, the debate returns a state in
    round 1 with the final answer set and no consensus recorded; exactly
    one round is started, no [consensus_check] event is emitted and the
    round loop consults no one, the final answer is synthesized and
    exactly one [final_answer] event is emitted. The consensus analyzer is
    nevertheless run once, on the responses of round 1, for the synthesis:
    exactly one analysis request is sent. *)
Theorem quick_debate_of_five llm env d n :
  mode d = quick ->
  List.length (advisors d) = 5 ->
  (forall k r,
      failure (messages_stream llm k r) = None /\
      Js.truthy (fullText (items (messages_stream llm k r))) = true) ->
  (forall k r, exists t, replyText (messages_create llm k r) = Ok t) ->
  let this := orchestratorFor env d in
  let run := runCouncilDebate llm this (question d) (conversationHistory d) n in
  exists state answer,
    outcome run = Ok (state, answer) /\
    currentRound state = 1 /\
    finalAnswer state = Some answer /\
    consensusReached state = false /\
    roundsStarted (events (trace run)) = 1 /\
    countEvents consensus_check (events (trace run)) = 0 /\
    countEvents final_answer (events (trace run)) = 1 /\
    filter (fun r => isAnalysisRequest r = true) (requests (trace run))
    = [analysisRequest this state].
Proof.
  intros Hmode Hfive Hadv Hmod this run.
  destruct (prepareDebate_run llm this (question d) n)
    as (st0 & trP & nP & HP & Hpre & P1 & _ & P3 & P4 & P5).
  destruct (isPrelude_quiet _ Hpre) as (Q1 & Q2 & Q3 & _ & Q5 & _).
  destruct (advisorTurns_run llm this st0 nP) as (st1 & c & trT & Hturns & HT).
  destruct (Turns_all_succeed llm this Hadv _ _ _ _ _ _ _ HT) as [Hc Hlatest].
  { intros a Ha. simpl. rewrite P5, createInitialState_lookup; eauto. }
  destruct (Turns_frame _ _ _ _ _ _ _ _ _ HT) as (_ & F2 & _ & F4 & _ & _ & F7 & _).
  destruct (Turns_silent _ _ _ _ _ _ _ _ _ HT) as (S1 & S2 & S3 & _).
  pose proof (Turns_calm _ _ _ _ _ _ _ _ _ HT) as S5.
  simpl in F2, F4, F7.
  assert (Hc5 : c = 5) by (rewrite Hc; exact Hfive).
  pose proof (roundBody_first llm this _ _ _ _ _ _ Hturns ltac:(lia)) as Hbody.
  assert (Hlen : 3 <= List.length (latestResponses this st1)).
  { rewrite latestResponses_length, filter_all_length.
    - change (3 <= List.length (advisors d)). lia.
    - apply Forall_forall. intros a Ha. apply Hlatest. by left. }
  destruct (Hmod (nP + List.length (CouncilOrchestrator.selectedAdvisors this))
              (analysisRequest this st1)) as [t Ht].
  destruct (Hmod (S (nP + List.length (CouncilOrchestrator.selectedAdvisors this)))
              (finalRequest this st1 (parseConsensus t))) as [answer Ha].
  pose proof (concludeDebate_synthesis llm this _ _ _ _ Hlen Ht Ha) as Hend.
  assert (Hrun : run
            = (Ok (set_finalAnswer answer st1, answer),
               trP ++ (roundOpening this 0 ++ trT)
               ++ [ Emitted maxRoundsReached;
                    Requested (analysisRequest this st1);
                    Requested (finalRequest this st1 (parseConsensus t));
                    Emitted (event final_answer None (Some answer)) ],
               S (S (nP + List.length (CouncilOrchestrator.selectedAdvisors this))))).
  { unfold run. rewrite (runCouncilDebate_afterRounds _ _ _ _ _ _ _ _ HP).
    replace (CouncilOrchestrator.maxRounds this) with 1
      by (unfold this, orchestratorFor; simpl; by rewrite Hmode).
    rewrite (afterRounds_continue _ _ _ _ _ _ _ _ _ Hbody).
    unfold afterRounds. cbn [debateLoop]. rewrite ret_bind, Hend. reflexivity. }
  exists (set_finalAnswer answer st1), answer. rewrite Hrun.
  unfold outcome, trace; cbn [fst snd].
  split; [reflexivity|]. split; [simpl; lia|]. split; [reflexivity|].
  split; [simpl; congruence|].
  split; [|split; [|split]].
  - rewrite <- startWeight_rounds, !totalWeight_app, Q3, S3. reflexivity.
  - rewrite !events_app, !countEvents_app, (no_check_count _ Q1), (no_check_count _ S1).
    reflexivity.
  - rewrite !events_app, !countEvents_app, (Calm_count _ Q5), (Calm_count _ S5).
    reflexivity.
  - rewrite !requests_app, !filter_app, (no_call_requests _ Q2), (no_call_requests _ S2).
    reflexivity.
Qed.

Lemma quick_debate_of_five_witness :
  let d := sampleRequest quick ADVISOR_NAMES in
  let this := orchestratorFor sampleEnv d in
  let run := runCouncilDebate talkativeLlm this (question d) (conversationHistory d) 0 in
  exists state answer,
    outcome run = Ok (state, answer) /\
    currentRound state = 1 /\
    finalAnswer state = Some answer /\
    consensusReached state = false /\
    roundsStarted (events (trace run)) = 1 /\
    countEvents consensus_check (events (trace run)) = 0 /\
    countEvents final_answer (events (trace run)) = 1 /\
    filter (fun r => isAnalysisRequest r = true) (requests (trace run))
    = [analysisRequest this state].
Proof.
  intros d this run.
  apply (quick_debate_of_five talkativeLlm sampleEnv d 0).
  - reflexivity.
  - reflexivity.
  - intros k r. split; reflexivity.
  - intros k r. simpl. destruct (req_max_tokens r =? 1000); eexists; reflexivity.
Defined.

(** C4 as stated fails: in a quick debate of five advisors who all answer
    the consensus analyzer is run after the only round, its request is sent
    to the moderator, and the verdict it returns is written into the prompt
    of the final synthesis. *)
Lemma quick_debate_consults_the_analyzer :
  let d := sampleRequest quick ADVISOR_NAMES in
  let run := runCouncilDebate talkativeLlm (orchestratorFor sampleEnv d)
               (question d) (conversationHistory d) 0 in
  roundsStarted (events (trace run)) = 1 /\
  map isAnalysisRequest (requests (trace run))
  = [false; false; false; false; false; true; false] /\
  Js.includes (req_prompt (List.last (requests (trace run)) (analysisRequest
                                (orchestratorFor sampleEnv d)
                                (createInitialState (orchestratorFor sampleEnv d) EmptyString))))
              "- Agreement Level: 40%"
  = true.
Proof. vm_compute. repeat split. Qed.

(** ** The prompts of the first round *)

(** C1 fails on the code. In the first round of a session ([currentRound]
    is 0 when the round starts) the three prompts are built with the
    wording of the later rounds, none with the wording of round 1, and the
    prompt of the second advisor already contains the answer the first
    advisor gave in this round: [runDebateRound] increments
    [currentRound] before the prompts are built, so the test
    [currentRound === 0] of [getAdvisorResponse] never holds. *)
Theorem first_round_prompts_show_earlier_answers :
  let this := sampleCouncil standard [naval; elon; larry] in
  let state := createInitialState this "Should we raise prices?" in
  let prompts :=
    map req_prompt (requests (trace (runDebateRound talkativeLlm this state 0))) in
  currentRound state = 0 /\
  map (fun p => Js.includes p "This is Round 1.") prompts = [false; false; false] /\
  map (fun p => Js.includes p "This is Round 2. Here's what other advisors have said:")
      prompts = [true; true; true] /\
  map (fun p => Js.includes p "**Naval Ravikant**: Yes, point 0") prompts
  = [false; true; true].
Proof. vm_compute. repeat split. Qed.

(** [runDebateRound] never asks for the prompt of round 1. *)
Lemma first_round_wording_unreachable state :
  (currentRound (set_currentRound (currentRound state + 1) state) =? 0) = false.
Proof. simpl. apply Nat.eqb_neq. lia. Qed.

(** ** The verdict of the moderator *)

(** C6 fails on the code. The reply has no [AGREEMENTS] section (the text
    [AGREEMENTS:] occurs only as the end of [DISAGREEMENTS:]), and the
    parsed verdict lists the disagreement as an agreement:
    [/AGREEMENTS:.../] matches inside [DISAGREEMENTS:]. *)
Theorem missing_agreements_are_read_from_disagreements :
  Js.startsWith replyWithoutAgreements "AGREEMENTS:" = false /\
  Js.includes replyWithoutAgreements (Js.NL +++ "AGREEMENTS:") = false /\
  ConsensusAnalysis.agreements (parseConsensus replyWithoutAgreements) = ["pricing"] /\
  ConsensusAnalysis.disagreements (parseConsensus replyWithoutAgreements) = ["pricing"].
Proof. vm_compute. repeat split. Qed.

(** C8 fails on the code. When the moderator writes an agreement level of
    150, the verdict of [analyzeConsensus] has the agreement level 3/2. *)
Theorem agreement_level_can_exceed_one :
  let this := sampleCouncil standard [naval; elon; larry] in
  let state := sampleState [naval; elon; larry] [naval; elon; larry] in
  exists verdict,
    outcome (analyzeConsensus overconfidentLlm this state 0) = Ok verdict /\
    ConsensusAnalysis.agreementLevel verdict = (150 # 100)%Q /\
    (1 < ConsensusAnalysis.agreementLevel verdict)%Q.
Proof.
  eexists. split; [vm_compute; reflexivity|]. split; [reflexivity|]. reflexivity.
Qed.

(** The agreement level is never negative. *)
Lemma agreementLevel_nonneg content :
  (0 <= ConsensusAnalysis.agreementLevel (parseConsensus content))%Q.
Proof.
  unfold parseConsensus; simpl. destruct (agreementLevelMatch content) as [g|].
  - unfold Qle; simpl. lia.
  - unfold Qle; simpl. lia.
Qed.

(** A reply that is a text is always parsed: the analyzer does not throw
    on it, whatever the text. *)
Lemma analyzeConsensus_never_throws_on_text llm this state n t blocks :
  messages_create llm n (analysisRequest this state) = Replied (TextBlock t :: blocks) ->
  outcome (analyzeConsensus llm this state n)
  = Ok (if List.length (latestResponses this state) <? 3 then noConsensus
        else parseConsensus t).
Proof.
  intros Hreply. rewrite analyzeConsensus_eq.
  destruct (_ <? 3); [reflexivity|]. unfold replyText. by rewrite Hreply.
Qed.

Lemma afterLiteral_startsWith eqc p s rest :
  Js.afterLiteral eqc p s = Some rest -> Js.startsWithBy eqc s p = true.
Proof.
  revert s. induction p as [|a p IH]; intros s H; [reflexivity|].
  destruct s as [|b s]; [discriminate|]. simpl in *.
  destruct (eqc a b); [|discriminate]. by apply IH.
Qed.

Lemma startsWith_ignoring_case s p :
  Js.startsWithBy Js.eqIgnoreCase s p
  = Js.startsWith (Js.toUpperCase s) (Js.toUpperCase p).
Proof.
  revert s. induction p as [|a p IH]; intros s; [reflexivity|].
  destruct s as [|b s]; [reflexivity|]. simpl.
  unfold Js.eqIgnoreCase at 1. unfold Js.startsWith. simpl. f_equal. apply IH.
Qed.

Lemma search_absent {A} (at_pos : string -> option A) p s :
  (forall s', at_pos s' <> None -> Js.startsWith s' p = true) ->
  Js.includes s p = false ->
  Js.search at_pos s = None.
Proof.
  intros Hat. induction s as [|c s IH]; cbn [Js.includes Js.search]; intros H;
    apply orb_false_iff in H as [Hs Hi].
  - destruct (at_pos EmptyString) eqn:E; [|reflexivity].
    rewrite Hat in Hs by congruence. discriminate.
  - destruct (at_pos (String c s)) eqn:E; [|by apply IH].
    rewrite Hat in Hs by congruence. discriminate.
Qed.

Lemma search_absent_ignoring_case {A} (at_pos : string -> option A) p s :
  (forall s', at_pos s' <> None -> Js.startsWith (Js.toUpperCase s') p = true) ->
  Js.includes (Js.toUpperCase s) p = false ->
  Js.search at_pos s = None.
Proof.
  unfold Js.toUpperCase. intros Hat.
  induction s as [|c s IH]; cbn [Js.mapChars Js.includes Js.search]; intros H;
    apply orb_false_iff in H as [Hs Hi].
  - destruct (at_pos EmptyString) eqn:E; [|reflexivity].
    assert (Ht := Hat EmptyString ltac:(congruence)).
    cbn [Js.mapChars] in Ht. congruence.
  - destruct (at_pos (String c s)) eqn:E; [|by apply IH].
    assert (Ht := Hat (String c s) ltac:(congruence)).
    cbn [Js.mapChars] in Ht. congruence.
Qed.

Lemma sectionMatch_absent label stop content :
  Js.includes content label = false -> sectionMatch label stop content = None.
Proof.
  apply search_absent. intros s' H.
  destruct (Js.afterLiteral Ascii.eqb label s') as [rest|] eqn:E; [|contradiction].
  by apply afterLiteral_startsWith in E.
Qed.

(** X16. A reply in which none of the labels occurs parses, field by
    field, to the default verdict; in particular its consensus flag is
    false. *)
Theorem reply_without_labels_parses_to_defaults content :
  Js.includes (Js.toUpperCase content) "CONSENSUS:" = false ->
  Js.includes content "AGREEMENT_LEVEL:" = false ->
  Js.includes content "AGREEMENTS:" = false ->
  Js.includes content "DISAGREEMENTS:" = false ->
  Js.includes content "MAJORITY_VIEW:" = false ->
  Js.includes content "MINORITY_VIEWS:" = false ->
  parseConsensus content = noConsensus.
Proof.
  intros H1 H2 H3 H4 H5 H6. unfold parseConsensus.
  assert (E1 : consensusMatch content = None).
  { apply (search_absent_ignoring_case _ "CONSENSUS:"); [|exact H1].
    intros s' H.
    destruct (Js.afterLiteral Js.eqIgnoreCase "CONSENSUS:" s') as [rest|] eqn:E;
      [|contradiction].
    apply afterLiteral_startsWith in E. by rewrite startsWith_ignoring_case in E. }
  assert (E2 : agreementLevelMatch content = None).
  { apply (search_absent _ "AGREEMENT_LEVEL:"); [|exact H2].
    intros s' H.
    destruct (Js.afterLiteral Ascii.eqb "AGREEMENT_LEVEL:" s') as [rest|] eqn:E;
      [|contradiction].
    by apply afterLiteral_startsWith in E. }
  assert (E6 : minorityViewsMatch content = None).
  { apply (search_absent _ "MINORITY_VIEWS:"); [|exact H6].
    intros s' H.
    destruct (Js.afterLiteral Ascii.eqb "MINORITY_VIEWS:" s') as [rest|] eqn:E;
      [|contradiction].
    by apply afterLiteral_startsWith in E. }
  unfold agreementsMatch, disagreementsMatch, majorityViewMatch.
  rewrite E1, E2, E6, !sectionMatch_absent by assumption.
  reflexivity.
Qed.

(** ** What a prompt shows of the other advisors *)

Lemma startsWith_app s t p :
  Js.startsWith s p = true -> Js.startsWith (s +++ t) p = true.
Proof.
  unfold Js.startsWith. revert s. induction p as [|a p IH]; intros s H; [reflexivity|].
  destruct s as [|b s]; [discriminate|]. simpl in *.
  apply andb_true_iff in H as [-> H]. by apply IH.
Qed.

Lemma startsWith_self p t : Js.startsWith (p +++ t) p = true.
Proof.
  unfold Js.startsWith. induction p as [|a p IH]; [reflexivity|].
  simpl. by rewrite Ascii.eqb_refl.
Qed.

Lemma includes_start s p : Js.startsWith s p = true -> Js.includes s p = true.
Proof. intros H. destruct s; simpl; by rewrite H. Qed.

Lemma includes_app_r s t p :
  Js.includes s p = true -> Js.includes (t +++ s) p = true.
Proof.
  intros H. induction t as [|c t IH]; [exact H|].
  simpl. rewrite IH. apply orb_true_r.
Qed.

Lemma includes_app_l s t p :
  Js.includes s p = true -> Js.includes (s +++ t) p = true.
Proof.
  induction s as [|c s IH]; cbn [Js.includes]; intros H;
    apply orb_true_iff in H as [H|H].
  - apply includes_start. exact (startsWith_app EmptyString t p H).
  - discriminate.
  - apply includes_start. exact (startsWith_app (String c s) t p H).
  - change (String c s +++ t) with (String c (s +++ t)). cbn [Js.includes].
    rewrite (IH H). apply orb_true_r.
Qed.

Lemma includes_self p t : Js.includes (p +++ t) p = true.
Proof. apply includes_start, startsWith_self. Qed.

Lemma append_empty s : s +++ EmptyString = s.
Proof.
  induction s as [|c s IH]; [reflexivity|].
  change (String c (s +++ EmptyString) = String c s). by rewrite IH.
Qed.

Lemma includes_self_end p : Js.includes p p = true.
Proof. rewrite <- (append_empty p) at 1. apply includes_self. Qed.

Section Context.

Variable this : CouncilOrchestrator.t.

(** The paragraph of [buildAdvisorContext] for the advisor [b]. *)
Lemma context_keeps state (l : list AdvisorName) acc p :
  Js.includes acc p = true ->
  Js.includes
    (fold_left
       (fun context advisor =>
          match agentResponses state !! advisor with
          | Some (r :: rs) =>
              context +++ "**" +++ personaName (advisorKey advisor) +++ "**: "
                +++ List.last (r :: rs) EmptyString +++ Js.NL +++ Js.NL
          | _ => context
          end) l acc) p = true.
Proof.
  revert acc. induction l as [|b l IH]; intros acc H; [exact H|].
  simpl. apply IH. destruct (agentResponses state !! b) as [[|r rs]|]; try exact H.
  by apply includes_app_l.
Qed.

Lemma context_shows state (l : list AdvisorName) acc b r rs :
  b ∈ l ->
  agentResponses state !! b = Some (r :: rs) ->
  Js.includes
    (fold_left
       (fun context advisor =>
          match agentResponses state !! advisor with
          | Some (r :: rs) =>
              context +++ "**" +++ personaName (advisorKey advisor) +++ "**: "
                +++ List.last (r :: rs) EmptyString +++ Js.NL +++ Js.NL
          | _ => context
          end) l acc)
    ("**" +++ personaName (advisorKey b) +++ "**: "
     +++ List.last (r :: rs) EmptyString +++ Js.NL +++ Js.NL) = true.
Proof.
  intros Hb Hl. revert acc. induction l as [|c l IH]; intros acc.
  - by apply elem_of_nil in Hb.
  - apply elem_of_cons in Hb as [<-|Hb]; [|by apply IH].
    cbn [fold_left]. apply context_keeps. rewrite Hl.
    apply includes_app_r, includes_self_end.
Qed.

(** The context built for [a] has a paragraph with the latest response of
    every other selected advisor that has one. *)
Lemma buildAdvisorContext_shows state a b r rs :
  b ∈ CouncilOrchestrator.selectedAdvisors this ->
  b <> a ->
  agentResponses state !! b = Some (r :: rs) ->
  Js.includes (buildAdvisorContext this state a)
    ("**" +++ personaName (advisorKey b) +++ "**: "
     +++ List.last (r :: rs) EmptyString +++ Js.NL +++ Js.NL) = true.
Proof.
  intros Hin Hne Hl. unfold buildAdvisorContext.
  apply context_shows; [|exact Hl].
  apply list_elem_of_filter. by split.
Qed.

(** X13. A prompt built from a state whose [currentRound] is not 0, as
    are all the prompts of [runDebateRound], contains the latest response
    of every other selected advisor that has answered so far. *)
Theorem later_prompts_show_latest_responses state a b r rs :
  currentRound state <> 0 ->
  b ∈ CouncilOrchestrator.selectedAdvisors this ->
  b <> a ->
  agentResponses state !! b = Some (r :: rs) ->
  Js.includes (advisorPrompt this a state)
    ("**" +++ personaName (advisorKey b) +++ "**: "
     +++ List.last (r :: rs) EmptyString +++ Js.NL +++ Js.NL) = true.
Proof.
  intros Hround Hin Hne Hl. unfold advisorPrompt.
  apply Nat.eqb_neq in Hround. rewrite Hround.
  do 14 apply includes_app_r.
  apply includes_app_l. by apply buildAdvisorContext_shows.
Qed.

(** X14. The turn that follows a successful turn of [a] is prompted
    with the response [a] just gave: within a round an advisor reads what
    the advisors before it said in this round. *)
Theorem next_prompt_shows_fresh_response llm state n a b response :
  turnEnd llm this a state n = Succeeded response ->
  currentRound state <> 0 ->
  a ∈ CouncilOrchestrator.selectedAdvisors this ->
  a <> b ->
  Js.includes
    (req_prompt (advisorRequest this b
                   (afterTurn a state (turnEnd llm this a state n)) true))
    ("**" +++ personaName (advisorKey a) +++ "**: " +++ response +++ Js.NL +++ Js.NL)
  = true.
Proof.
  intros He Hround Hin Hne. rewrite He.
  apply turnEnd_Succeeded in He as (_ & _ & _ & responses & Hl).
  cbn [advisorRequest req_prompt].
  assert (Hnew : agentResponses (afterTurn a state (Succeeded response)) !! a
                 = Some (responses ++ [response])).
  { simpl. by rewrite lookup_insert_eq, Hl. }
  destruct (responses ++ [response]) as [|r rs] eqn:E.
  { by destruct responses. }
  pose proof (buildAdvisorContext_shows
                (afterTurn a state (Succeeded response)) b a r rs Hin Hne) as H.
  rewrite <- E, List.last_last in H.
  unfold advisorPrompt. cbn [currentRound afterTurn set_agentResponses].
  apply Nat.eqb_neq in Hround. rewrite Hround.
  do 14 apply includes_app_r.
  apply includes_app_l. apply H. by rewrite Hnew, E.
Qed.

End Context.

(** ** Final answers *)


(** ** The sample requests *)

(** The sample requests pass the validation of the route. *)
Lemma sampleRequest_valid m selected :
  2 <= List.length selected <= 5 -> validRequest (sampleRequest m selected).
Proof.
  intros H. unfold validRequest, sampleRequest; cbn [question conversationHistory advisors tavilyKey].
  repeat split; try lia; by vm_compute.
Qed.

(** * Further properties of the orchestrator and of the route *)

(** ** Research *)

Lemma searches_app (a b : list Obs) : searches (a ++ b) = searches a ++ searches b.
Proof. apply omap_app. Qed.

Lemma isRoundObs_searches tr : Forall isRoundObs tr -> searches tr = [].
Proof.
  induction 1 as [|o tr Ho _ IH]; [reflexivity|].
  destruct o as [e|r|q]; simpl; [exact IH | exact IH | contradiction].
Qed.

Lemma isRoundObs_count t tr :
  In t [system; clarification_needed; cost_actual; cost_estimate;
        research_start; research_complete; research_results] ->
  Forall isRoundObs tr -> countEvents t (events tr) = 0.
Proof.
  intros Ht H. apply countEvents_none, Forall_events.
  eapply Forall_impl; [exact H|]. intros [e|r|q]; simpl; [|tauto..].
  intros (H1 & H2 & H3 & H4 & H5 & H6 & H7).
  simpl in Ht. intuition congruence.
Qed.

Ltac round_obs :=
  repeat (apply Forall_cons; split;
          [first [exact I | simpl; repeat split; discriminate]|]);
  apply Forall_nil; exact I.

Section RoundTraces.

Variable llm : Oracle.
Variable this : CouncilOrchestrator.t.

Lemma turnTrace_obs a st n : Forall isRoundObs (turnTrace llm this a st n).
Proof.
  unfold turnTrace, turnOpening.
  apply Forall_app. split; [round_obs|].
  constructor; [exact I|].
  apply Forall_app. split.
  - unfold chunkEvents. apply Forall_forall. intros o Ho.
    apply list_elem_of_In, in_map_iff in Ho as (c & <- & _).
    simpl. repeat split; discriminate.
  - destruct (turnEnd llm this a st n); round_obs.
Qed.

Lemma Turns_obs l st k n st' k' tr :
  Turns llm this l st k n st' k' tr -> Forall isRoundObs tr.
Proof.
  induction 1 as [|a rest st k n st' k' tr _ IH]; [constructor|].
  apply Forall_app. split; [apply turnTrace_obs | exact IH].
Qed.

Lemma RoundRun_obs round st n o tr n' :
  RoundRun llm this round st n o tr n' -> Forall isRoundObs tr.
Proof.
  intros HR.
  destruct HR as [st1 c trT HT Hc|st1 c trT HT Hc Hr|st1 c trT e trA nA HT Hc Hr HA
                 |st1 c trT v trA nA HT Hc Hr HA Hv
                 |st1 c trT v trA nA e HT Hc Hr HA Hv HF
                 |st1 c trT v trA nA answer HT Hc Hr HA Hv HF];
    pose proof (Turns_obs _ _ _ _ _ _ _ HT) as Hobs;
    try analysis_trace;
    repeat (apply Forall_app; split);
    first [exact Hobs | round_obs].
Qed.

Lemma LoopRun_obs remaining round st n o trs n' :
  LoopRun llm this remaining round st n o trs n' -> Forall isRoundObs (concat trs).
Proof.
  induction 1 as [round st n
                 |remaining round st n st1 tr n1 o trs n2 HR _ IH
                 |remaining round st n st1 answer tr n1 HR
                 |remaining round st n e tr n1 HR]; simpl.
  - constructor.
  - apply Forall_app. split; [by eapply RoundRun_obs | exact IH].
  - rewrite app_nil_r. by eapply RoundRun_obs.
  - rewrite app_nil_r. by eapply RoundRun_obs.
Qed.

Lemma conclusion_obs o n : Forall isRoundObs (trace (conclusion llm this o n)).
Proof.
  unfold conclusion. destruct o as [[st|st answer]|e]; [|constructor..].
  destruct (concludeDebate_run llm this st n)
    as (o & trA & tail & n' & -> & HtrA & Htail).
  unfold trace; simpl.
  constructor; [simpl; repeat split; discriminate|].
  apply Forall_app. split.
  - destruct HtrA as [->| ->]; round_obs.
  - destruct Htail as [(e & _ & [->|(v & ->)])|(v & answer & _ & ->)]; round_obs.
Qed.

(** The debate is its preparation followed by rounds and a conclusion
    that make no search and emit nothing about cost or research. *)
Lemma runCouncilDebate_obs userQuestion conversationHistory n :
  exists st0 trP nP rest,
    prepareDebate llm this userQuestion n = (Ok st0, trP, nP) /\
    trace (runCouncilDebate llm this userQuestion conversationHistory n) = trP ++ rest /\
    Forall isRoundObs rest.
Proof.
  destruct (runCouncilDebate_run llm this userQuestion conversationHistory n)
    as (st0 & trP & nP & o & trs & nL & HP & HL & ->).
  exists st0, trP, nP, (concat trs ++ trace (conclusion llm this o nL)).
  split; [exact HP|]. split.
  - unfold prefixed, trace at 1; simpl. by rewrite <- app_assoc.
  - apply Forall_app. split; [by eapply LoopRun_obs | apply conclusion_obs].
Qed.

Lemma shouldActivateResearch_client question :
  shouldActivateResearch this question = true ->
  CouncilOrchestrator.tavilyClient this = true.
Proof.
  unfold shouldActivateResearch. by destruct (CouncilOrchestrator.tavilyClient this).
Qed.

Lemma performResearch_eq query n :
  CouncilOrchestrator.tavilyClient this = true ->
  performResearch llm this query n
  = if CouncilOrchestrator.enableResearch this
    then (Ok (researchFound llm n query),
          [ Emitted (event research_start None (Some ("Searching for: " +++ query)));
            Searched query;
            Emitted (event research_complete None None) ], S n)
    else (Ok [], [], n).
Proof.
  intros Hc. unfold performResearch, researchFound. rewrite Hc.
  destruct (CouncilOrchestrator.enableResearch this); simpl; [|reflexivity].
  unfold try_catch, bind, emit, tavilySearch, ret.
  destruct (tavily_search llm n query) as [[results|]|e]; reflexivity.
Qed.

(** The preparation of the debate, case by case. *)
Lemma prepareDebate_eq userQuestion n :
  let state := createInitialState this userQuestion in
  let estimate :=
    Emitted (costEstimate (modelKey this) (modeKey this)
               (List.length (CouncilOrchestrator.selectedAdvisors this))
               (CouncilOrchestrator.enableResearch this)) in
  let announced :=
    [estimate; Emitted (event status None (Some "Performing web research..."))] in
  let searched :=
    [ Emitted (event research_start None (Some ("Searching for: " +++ userQuestion)));
      Searched userQuestion;
      Emitted (event research_complete None None) ] in
  prepareDebate llm this userQuestion n
  = if shouldActivateResearch this userQuestion then
      if CouncilOrchestrator.enableResearch this then
        match researchFound llm n userQuestion with
        | [] => (Ok state, announced ++ searched, S n)
        | results =>
            (Ok (set_researchResults results state),
             announced ++ searched
             ++ [Emitted {| type := research_results; agent := None;
                            text := Some ("Found "
                                          +++ Js.numToString (List.length results)
                                          +++ " relevant sources");
                            data := Some (Sources results) |}],
             S n)
        end
      else (Ok state, announced, n)
    else (Ok state, [estimate], n).
Proof.
  intros state estimate announced searched.
  unfold prepareDebate. rewrite emit_then.
  destruct (shouldActivateResearch this userQuestion) eqn:Hs; [|reflexivity].
  apply shouldActivateResearch_client in Hs.
  rewrite emit_then.
  pose proof (performResearch_eq userQuestion n Hs) as Hrun.
  destruct (CouncilOrchestrator.enableResearch this).
  - rewrite (bind_Ok _ _ _ _ _ _ Hrun).
    destruct (researchFound llm n userQuestion) as [|r results]; [reflexivity|].
    rewrite emit_then. reflexivity.
  - rewrite (bind_Ok _ _ _ _ _ _ Hrun). reflexivity.
Qed.

End RoundTraces.

Lemma new_enableResearch config envTavilyKey :
  CouncilOrchestrator.enableResearch (CouncilOrchestrator.new config envTavilyKey)
  = CouncilOrchestrator.userEnabledResearch (CouncilOrchestrator.new config envTavilyKey).
Proof. reflexivity. Qed.

(** X6. A debate searches the web exactly when research is switched on
    in the configuration and a key of the search service is available,
    and then once, for the question as the user typed it. The research
    keywords of [shouldActivateResearch] make no difference: without the
    setting [performResearch] returns before it searches. *)
Theorem research_needs_setting_and_key
    llm config envTavilyKey userQuestion conversationHistory n :
  let this := CouncilOrchestrator.new config envTavilyKey in
  searches (trace (runCouncilDebate llm this userQuestion conversationHistory n))
  = if CouncilOrchestrator.userEnabledResearch this
       && CouncilOrchestrator.tavilyClient this
    then [userQuestion] else [].
Proof.
  intros this.
  pose proof (new_enableResearch config envTavilyKey) as Hen. fold this in Hen.
  clearbody this.
  destruct (runCouncilDebate_obs llm this userQuestion conversationHistory n)
    as (st0 & trP & nP & rest & HP & -> & Hrest).
  rewrite searches_app, (isRoundObs_searches _ Hrest), app_nil_r.
  pose proof (prepareDebate_eq llm this userQuestion n) as E. cbv zeta in E.
  rewrite HP, Hen in E.
  destruct (shouldActivateResearch this userQuestion) eqn:Hs.
  - rewrite (shouldActivateResearch_client this _ Hs), andb_true_r.
    destruct (CouncilOrchestrator.userEnabledResearch this).
    + destruct (researchFound llm n userQuestion); injection E as _ -> _; reflexivity.
    + injection E as _ -> _. reflexivity.
  - injection E as _ -> _.
    unfold shouldActivateResearch in Hs.
    destruct (CouncilOrchestrator.tavilyClient this); [|by rewrite andb_false_r].
    simpl in Hs. destruct (CouncilOrchestrator.userEnabledResearch this); [discriminate|].
    reflexivity.
Qed.

(** X7. When the research setting is off and the question holds one of
    the research keywords, the debate announces the research with a
    status event and does nothing else about it: no search is made, no
    research event is emitted and the session starts without research
    results. *)
Theorem keyword_announces_research_without_searching llm this userQuestion n :
  CouncilOrchestrator.tavilyClient this = true ->
  CouncilOrchestrator.userEnabledResearch this = false ->
  CouncilOrchestrator.enableResearch this = false ->
  existsb (fun keyword => Js.includes (Js.toLowerCase userQuestion) keyword)
          researchKeywords = true ->
  prepareDebate llm this userQuestion n
  = (Ok (createInitialState this userQuestion),
     [ Emitted (costEstimate (modelKey this) (modeKey this)
                  (List.length (CouncilOrchestrator.selectedAdvisors this)) false);
       Emitted (event status None (Some "Performing web research...")) ],
     n).
Proof.
  intros Hc Hu He Hk.
  pose proof (prepareDebate_eq llm this userQuestion n) as E. cbv zeta in E.
  rewrite E. unfold shouldActivateResearch. rewrite Hc, Hu, He. simpl negb. cbv iota.
  by rewrite Hk.
Qed.

Lemma keyword_announces_research_without_searching_witness :
  let this :=
    CouncilOrchestrator.new
      (Some {| cfg_model := None; cfg_mode := Some quick;
               cfg_selectedAdvisors := Some [naval; elon];
               cfg_enableResearch := Some false;
               cfg_tavilyApiKey := Some "tvly-0123456789" |}) None in
  prepareDebate talkativeLlm this "Please research the pricing of our rivals" 0
  = (Ok (createInitialState this "Please research the pricing of our rivals"),
     [ Emitted (costEstimate (modelKey this) (modeKey this)
                  (List.length (CouncilOrchestrator.selectedAdvisors this)) false);
       Emitted (event status None (Some "Performing web research...")) ],
     0).
Proof.
  intros this.
  apply (keyword_announces_research_without_searching talkativeLlm this
           "Please research the pricing of our rivals" 0);
    vm_compute; reflexivity.
Defined.

(** X8. No debate emits a [system], a [clarification_needed] or a
    [cost_actual] event. In particular the notice of [performResearch]
    that the key of the search service is missing is never sent:
    [performResearch] is only called when [shouldActivateResearch] holds,
    which needs that key. *)
Theorem debate_never_emits_system_notices llm this userQuestion conversationHistory n :
  Forall (fun e => type e <> system /\ type e <> clarification_needed
                   /\ type e <> cost_actual)
         (events (trace (runCouncilDebate llm this userQuestion conversationHistory n))).
Proof.
  destruct (runCouncilDebate_obs llm this userQuestion conversationHistory n)
    as (st0 & trP & nP & rest & HP & -> & Hrest).
  rewrite events_app. apply Forall_app. split.
  - pose proof (prepareDebate_eq llm this userQuestion n) as E. cbv zeta in E.
    rewrite HP in E.
    destruct (shouldActivateResearch this userQuestion);
      [destruct (CouncilOrchestrator.enableResearch this);
       [destruct (researchFound llm n userQuestion)|]|];
      injection E as _ -> _; simpl;
      repeat (constructor; [simpl; repeat split; discriminate|]); constructor.
  - apply Forall_events. eapply Forall_impl; [exact Hrest|].
    intros [e|r|q]; simpl; tauto.
Qed.

(** X9. A failure of the search service does not reach the debate: the
    preparation ends normally with the state of a new session, without
    research results, and every [research_start] event is followed by
    its [research_complete]. *)
Theorem failed_search_is_contained llm this userQuestion n caught :
  tavily_search llm n userQuestion = SearchFailed caught ->
  let run := prepareDebate llm this userQuestion n in
  outcome run = Ok (createInitialState this userQuestion) /\
  countEvents research_start (events (trace run))
  = countEvents research_complete (events (trace run)) /\
  countEvents research_results (events (trace run)) = 0.
Proof.
  intros Hfail run. unfold run.
  pose proof (prepareDebate_eq llm this userQuestion n) as E. cbv zeta in E.
  rewrite E. unfold researchFound. rewrite Hfail.
  destruct (shouldActivateResearch this userQuestion);
    [destruct (CouncilOrchestrator.enableResearch this)|];
    repeat split.
Qed.

Lemma failed_search_is_contained_witness :
  let this := orchestratorFor sampleEnv researchRequest in
  let run := prepareDebate offlineSearchLlm this (question researchRequest) 0 in
  searches (trace run) = [question researchRequest] /\
  outcome run = Ok (createInitialState this (question researchRequest)) /\
  countEvents research_start (events (trace run))
  = countEvents research_complete (events (trace run)) /\
  countEvents research_results (events (trace run)) = 0.
Proof.
  intros this run. split; [vm_compute; reflexivity|].
  exact (failed_search_is_contained offlineSearchLlm this (question researchRequest) 0
           (JsError "fetch failed") eq_refl).
Defined.

(** X10. The research results of a session come from one successful
    search for the question: they are the results of the service in
    order, each with a title that is not empty, and there is at least
    one; they are announced by one [research_results] event that
    carries them and counts them. A session without research results has
    no such event. The preparation never throws. *)
Theorem research_results_of_a_session llm this userQuestion n :
  let run := prepareDebate llm this userQuestion n in
  exists state,
    outcome run = Ok state /\
    match researchResults state with
    | Some results =>
        results <> [] /\
        Forall (fun r => Js.truthy (title r) = true) results /\
        (exists found,
            tavily_search llm n userQuestion = Found (Some found) /\
            results = map toResearchResult found) /\
        searches (trace run) = [userQuestion] /\
        filter (fun e => type e = research_results) (events (trace run))
        = [ {| type := research_results; agent := None;
               text := Some ("Found " +++ Js.numToString (List.length results)
                             +++ " relevant sources");
               data := Some (Sources results) |} ]
    | None => countEvents research_results (events (trace run)) = 0
    end.
Proof.
  intros run. unfold run.
  pose proof (prepareDebate_eq llm this userQuestion n) as E. cbv zeta in E.
  rewrite E.
  destruct (shouldActivateResearch this userQuestion);
    [destruct (CouncilOrchestrator.enableResearch this)|];
    [|eexists; split; reflexivity..].
  destruct (researchFound llm n userQuestion) as [|r results] eqn:Hfound;
    [eexists; split; reflexivity|].
  eexists. split; [reflexivity|]. cbn [outcome fst researchResults set_researchResults].
  split; [discriminate|].
  unfold researchFound in Hfound.
  destruct (tavily_search llm n userQuestion) as [[found|]|e]; try discriminate.
  split; [|split; [by exists found|split; reflexivity]].
  rewrite <- Hfound. apply Forall_forall. intros x Hx.
  apply list_elem_of_In, in_map_iff in Hx as (raw & <- & _).
  unfold toResearchResult, Js.orElse; simpl.
  by destruct (default EmptyString (raw_title raw)).
Qed.

(** ** The response stream of the route *)

Lemma debateTask_eq llm env d n :
  let run := runCouncilDebate llm (orchestratorFor env d)
               (question d) (conversationHistory d) n in
  debateTask llm env d n
  = (Ok tt,
     trace run ++ match outcome run with
                  | Ok _ => []
                  | Throw caught => [Emitted (fatalEvent env caught)]
                  end,
     calls run).
Proof.
  intros run. unfold debateTask, try_catch, bind. fold run.
  destruct run as [[[x|e] t] c]; reflexivity.
Qed.



Lemma modelKey_new env d : modelKey (orchestratorFor env d) = model d.
Proof. unfold modelKey, orchestratorFor; simpl. by destruct (model d). Qed.

Lemma modeKey_new env d : modeKey (orchestratorFor env d) = mode d.
Proof. unfold modeKey, orchestratorFor; simpl. by destruct (mode d). Qed.

Lemma enableResearch_new env d :
  CouncilOrchestrator.enableResearch (orchestratorFor env d) = enableResearch d.
Proof. unfold orchestratorFor; simpl. by destruct (enableResearch d). Qed.

(** X3. The first event of every response stream is the cost estimate,
    and it is made for the model, the mode, the number of advisors and
    the research setting of the request: the model and the mode that
    [runCouncilDebate] reads back from the model identifier and from the
    number of rounds are the ones the request named. *)
Theorem stream_opens_with_the_cost_estimate llm env d :
  exists rest,
    responseStream llm env d
    = costEstimate (model d) (mode d) (List.length (advisors d)) (enableResearch d)
      :: rest.
Proof.
  unfold responseStream. rewrite debateTask_eq. cbv zeta.
  unfold trace at 1. cbn [fst snd].
  destruct (runCouncilDebate_obs llm (orchestratorFor env d)
              (question d) (conversationHistory d) 0)
    as (st0 & trP & nP & rest & HP & -> & _).
  pose proof (prepareDebate_eq llm (orchestratorFor env d) (question d) 0) as E.
  cbv zeta in E. rewrite HP, modelKey_new, modeKey_new, enableResearch_new in E.
  assert (Hhead : exists trP', trP
            = Emitted (costEstimate (model d) (mode d) (List.length (advisors d))
                         (enableResearch d)) :: trP').
  { destruct (shouldActivateResearch _ _);
      [destruct (enableResearch d) eqn:He;
       [destruct (researchFound llm 0 (question d))|]|];
      injection E as _ -> _; eexists; reflexivity. }
  destruct Hhead as (trP' & ->).
  rewrite !events_app. simpl. eexists. reflexivity.
Qed.

(** X18. In production [getSafeErrorMessage] returns one of five fixed
    messages whatever was thrown, and a thrown value that is not an
    [Error] always gets the last of them; in development it returns the
    message of the error as it is. *)
Theorem production_errors_are_generic caught :
  In (getSafeErrorMessage false caught) genericMessages /\
  getSafeErrorMessage false JsNonError = "An error occurred. Please try again." /\
  forall message, getSafeErrorMessage true (JsError message) = message.
Proof.
  split; [|split; [reflexivity | reflexivity]].
  unfold getSafeErrorMessage, genericMessages. destruct caught as [message|].
  - repeat match goal with |- context [if ?b then _ else _] => destruct b end;
      simpl; tauto.
  - simpl; tauto.
Qed.

(** ** The calls of a debate *)

Lemma advisorCalls_app a b : advisorCalls (a ++ b) = advisorCalls a + advisorCalls b.
Proof. unfold advisorCalls. by rewrite requests_app, filter_app, length_app. Qed.

Lemma moderatorCalls_app a b : moderatorCalls (a ++ b) = moderatorCalls a + moderatorCalls b.
Proof. unfold moderatorCalls. by rewrite requests_app, filter_app, length_app. Qed.

Lemma calls_split tr : List.length (requests tr) = advisorCalls tr + moderatorCalls tr.
Proof.
  unfold advisorCalls, moderatorCalls, isModeratorRequest.
  induction (requests tr) as [|r l IH]; [reflexivity|].
  destruct (isAdvisorRequest r) eqn:E.
  - rewrite filter_cons_True by exact E.
    rewrite filter_cons_False by (rewrite E; discriminate). simpl. lia.
  - rewrite filter_cons_False by (rewrite E; discriminate).
    rewrite filter_cons_True by (by rewrite E). simpl. lia.
Qed.

Lemma requests_none tr :
  Forall (fun o => match o with Requested _ => False | _ => True end) tr ->
  requests tr = [].
Proof.
  induction 1 as [|o tr Ho _ IH]; [reflexivity|].
  destruct o as [e|r|q]; simpl; [exact IH | contradiction | exact IH].
Qed.

Lemma requests_chunkEvents a chunks : requests (chunkEvents a chunks) = [].
Proof. induction chunks as [|c chunks IH]; [reflexivity | exact IH]. Qed.

Section Calls.

Variable llm : Oracle.
Variable this : CouncilOrchestrator.t.

Lemma requests_turnTrace a st n :
  requests (turnTrace llm this a st n) = [advisorRequest this a st true].
Proof.
  unfold turnTrace, turnOpening. simpl.
  by rewrite requests_app, requests_chunkEvents.
Qed.

Lemma events_turnTrace_starts a st n :
  countEvents agent_start (events (turnTrace llm this a st n)) = 1.
Proof.
  unfold turnTrace, turnOpening. simpl.
  rewrite events_app, events_chunkEvents. unfold countEvents.
  rewrite filter_cons_False by discriminate.
  rewrite filter_cons_True by reflexivity.
  rewrite filter_app. simpl. rewrite length_app.
  assert (E : filter (fun e => type e = agent_start)
                (map (fun c => event agent_response (Some a) (Some c))
                   (deltas (items (turnReply llm this a st n)))) = []).
  { induction (deltas _) as [|c l IH]; [reflexivity|].
    simpl. by rewrite filter_cons_False by discriminate. }
  rewrite E. destruct (turnEnd llm this a st n); reflexivity.
Qed.

Lemma Turns_calls l st k n st' k' tr :
  Turns llm this l st k n st' k' tr ->
  advisorCalls tr = List.length l /\
  moderatorCalls tr = 0 /\
  countEvents agent_start (events tr) = List.length l.
Proof.
  induction 1 as [|a rest st k n st' k' tr _ (I1 & I2 & I3)]; [by repeat split|].
  rewrite advisorCalls_app, moderatorCalls_app, events_app, countEvents_app,
    I1, I2, I3, events_turnTrace_starts.
  unfold advisorCalls, moderatorCalls. rewrite requests_turnTrace.
  by repeat split.
Qed.

Ltac eval_counts :=
  repeat match goal with
         | |- context [advisorCalls ?t] =>
             let v := eval vm_compute in (advisorCalls t) in
             change (advisorCalls t) with v
         | |- context [moderatorCalls ?t] =>
             let v := eval vm_compute in (moderatorCalls t) in
             change (moderatorCalls t) with v
         | |- context [countEvents agent_start (events ?t)] =>
             let v := eval vm_compute in (countEvents agent_start (events t)) in
             change (countEvents agent_start (events t)) with v
         end.

Ltac count_calls :=
  rewrite ?advisorCalls_app, ?moderatorCalls_app, ?events_app, ?countEvents_app;
  repeat match goal with
         | H : advisorCalls ?t = _ |- context [advisorCalls ?t] => rewrite H
         | H : moderatorCalls ?t = _ |- context [moderatorCalls ?t] => rewrite H
         | H : countEvents agent_start (events ?t) = _
           |- context [countEvents agent_start (events ?t)] => rewrite H
         end.

Lemma RoundRun_calls round st n o tr n' :
  RoundRun llm this round st n o tr n' ->
  advisorCalls tr = List.length (CouncilOrchestrator.selectedAdvisors this) /\
  countEvents agent_start (events tr)
  = List.length (CouncilOrchestrator.selectedAdvisors this) /\
  moderatorCalls tr <= (if 1 <=? round then 1 else 0) + closes o.
Proof.
  intros HR.
  destruct HR as [st1 c trT HT Hc|st1 c trT HT Hc Hr|st1 c trT e trA nA HT Hc Hr HA
                 |st1 c trT v trA nA HT Hc Hr HA Hv
                 |st1 c trT v trA nA e HT Hc Hr HA Hv HF
                 |st1 c trT v trA nA answer HT Hc Hr HA Hv HF];
    destruct (Turns_calls _ _ _ _ _ _ _ HT) as (T1 & T2 & T3);
    try analysis_trace;
    count_calls; eval_counts; cbn [closes];
    repeat split; try destruct (1 <=? round) eqn:E; try apply Nat.leb_gt in E; lia.
Qed.

Lemma LoopRun_calls remaining round st n o trs n' :
  LoopRun llm this remaining round st n o trs n' ->
  advisorCalls (concat trs)
  = List.length trs * List.length (CouncilOrchestrator.selectedAdvisors this) /\
  countEvents agent_start (events (concat trs))
  = List.length trs * List.length (CouncilOrchestrator.selectedAdvisors this) /\
  moderatorCalls (concat trs) + (if (round =? 0) && (0 <? remaining) then 1 else 0)
  <= remaining + closes o.
Proof.
  induction 1 as [round st n
                 |remaining round st n st1 tr n1 o trs n2 HR _ (I1 & I2 & I3)
                 |remaining round st n st1 answer tr n1 HR
                 |remaining round st n e tr n1 HR];
    [rewrite andb_false_r; by repeat split|..];
    destruct (RoundRun_calls _ _ _ _ _ _ HR) as (R1 & R2 & R3);
    cbn [concat List.length]; rewrite ?app_nil_r;
    count_calls; cbn [closes] in *;
    (split; [lia|]); (split; [lia|]);
    destruct round as [|round]; cbn [Nat.eqb Nat.leb andb Nat.ltb] in *; lia.
Qed.

Lemma conclusion_calls o n :
  advisorCalls (trace (conclusion llm this o n)) = 0 /\
  countEvents agent_start (events (trace (conclusion llm this o n))) = 0 /\
  moderatorCalls (trace (conclusion llm this o n)) + 2 * closes o <= 2.
Proof.
  unfold conclusion. destruct o as [[st|st answer]|e]; [|by repeat split..].
  destruct (concludeDebate_run llm this st n)
    as (o & trA & tail & n' & -> & HtrA & Htail).
  unfold trace; cbn [fst snd closes].
  destruct HtrA as [->| ->];
    destruct Htail as [(e & _ & [->|(v & ->)])|(v & answer & _ & ->)];
    eval_counts; repeat split; lia.
Qed.

(** The calls of a debate: every round started asks every selected
    advisor; the moderator is asked at most once for every round after
    the first and twice when the debate ends. *)
Lemma runCouncilDebate_calls userQuestion conversationHistory n :
  let tr := trace (runCouncilDebate llm this userQuestion conversationHistory n) in
  roundsStarted (events tr) <= CouncilOrchestrator.maxRounds this /\
  advisorCalls tr
  = roundsStarted (events tr) * List.length (CouncilOrchestrator.selectedAdvisors this) /\
  countEvents agent_start (events tr)
  = roundsStarted (events tr) * List.length (CouncilOrchestrator.selectedAdvisors this) /\
  (1 <= CouncilOrchestrator.maxRounds this ->
   moderatorCalls tr <= CouncilOrchestrator.maxRounds this + 1).
Proof.
  destruct (runCouncilDebate_run llm this userQuestion conversationHistory n)
    as (st0 & trP & nP & o & trs & nL & HP & HL & ->).
  destruct (prepareDebate_run llm this userQuestion n)
    as (st0' & trP' & nP' & E & Hpre & _).
  rewrite HP in E. injection E as <- <- <-.
  destruct (isPrelude_quiet _ Hpre) as (_ & _ & P3 & _).
  destruct (LoopRun_guarded _ _ _ _ _ _ _ _ _ HL) as (L1 & _).
  destruct (conclusion_guarded llm this o nL 0) as (_ & _ & C3 & _).
  pose proof (LoopRun_length _ _ _ _ _ _ _ _ _ HL) as Hlen.
  destruct (LoopRun_calls _ _ _ _ _ _ _ HL) as (A1 & A2 & A3).
  destruct (conclusion_calls o nL) as (K1 & K2 & K3).
  assert (Hreq : requests trP = []).
  { apply requests_none. eapply Forall_impl; [exact Hpre|].
    intros [e|r|q]; simpl; tauto. }
  assert (Hstart : countEvents agent_start (events trP) = 0).
  { pose proof (isPrelude_quiet _ Hpre) as (_ & _ & _ & _ & _ & Hn).
    apply countEvents_none. eapply Forall_impl; [exact Hn|].
    intros e [Ha _] Ht. apply Ha. by left. }
  cbv zeta. unfold prefixed.
  set (tc := trace (conclusion llm this o nL)) in *. clearbody tc.
  unfold trace; cbn [fst snd].
  rewrite <- startWeight_rounds, !totalWeight_app, P3, L1, C3.
  rewrite <- !app_assoc, !advisorCalls_app, !moderatorCalls_app,
    !events_app, !countEvents_app.
  rewrite A1, A2, K1, K2, Hstart.
  unfold advisorCalls at 1, moderatorCalls at 1. rewrite Hreq. simpl.
  split; [lia|]. split; [lia|]. split; [lia|].
  intros HM. destruct (CouncilOrchestrator.maxRounds this) as [|M]; [lia|].
  simpl in A3. lia.
Qed.

End Calls.

(** X4. Every round that a debate starts asks every selected advisor
    once, whatever happens to the turns before: the number of requests
    made for advisors and the number of [agent_start] events are both
    the number of rounds started times the number of selected advisors,
    and no more than [maxRounds] rounds are started. *)
Theorem every_round_asks_every_advisor llm this userQuestion conversationHistory n :
  let tr := trace (runCouncilDebate llm this userQuestion conversationHistory n) in
  let selected := List.length (CouncilOrchestrator.selectedAdvisors this) in
  advisorCalls tr = roundsStarted (events tr) * selected /\
  countEvents agent_start (events tr) = roundsStarted (events tr) * selected /\
  advisorCalls tr <= CouncilOrchestrator.maxRounds this * selected.
Proof.
  intros tr selected.
  destruct (runCouncilDebate_calls llm this userQuestion conversationHistory n)
    as (H0 & H1 & H2 & _).
  fold tr in H0, H1, H2. fold selected in H1, H2.
  split; [exact H1|]. split; [exact H2|]. rewrite H1. nia.
Qed.

Lemma new_maxRounds config envTavilyKey :
  1 <= CouncilOrchestrator.maxRounds (CouncilOrchestrator.new config envTavilyKey) <= 3.
Proof.
  unfold CouncilOrchestrator.new; simpl.
  destruct (config ≫= cfg_mode) as [[]|]; simpl; lia.
Qed.

(** X5. The calls of a debate are bounded by its configuration. With
    [maxRounds] rounds (1, 2 or 3) and [k] selected advisors, the
    moderator is asked at most [maxRounds + 1] times (the consensus
    checks of the rounds after the first, the analysis after the last
    round and the synthesis), and the completion service at most
    [maxRounds * (k + 1) + 1] times in all. *)
Theorem debate_calls_are_bounded
    llm config envTavilyKey userQuestion conversationHistory n :
  let this := CouncilOrchestrator.new config envTavilyKey in
  let tr := trace (runCouncilDebate llm this userQuestion conversationHistory n) in
  let selected := List.length (CouncilOrchestrator.selectedAdvisors this) in
  moderatorCalls tr <= CouncilOrchestrator.maxRounds this + 1 /\
  List.length (requests tr) <= CouncilOrchestrator.maxRounds this * (selected + 1) + 1.
Proof.
  intros this tr selected.
  destruct (runCouncilDebate_calls llm this userQuestion conversationHistory n)
    as (H0 & H1 & _ & H3).
  fold tr in H0, H1, H3. fold selected in H1.
  pose proof (new_maxRounds config envTavilyKey) as [HM _]. fold this in HM.
  specialize (H3 HM). split; [exact H3|].
  rewrite calls_split, H1. nia.
Qed.

(** ** What a turn records *)

Lemma streamedText_chunks a chunks closing :
  type closing <> agent_response ->
  streamedText
    (event status None (Some (personaName (advisorKey a) +++ " is thinking..."))
     :: event agent_start (Some a) None
     :: map (fun c => event agent_response (Some a) (Some c)) chunks ++ [closing])
  = fold_left String.append chunks EmptyString.
Proof.
  intros Hclosing. unfold streamedText. f_equal. cbn [omap list_omap].
  rewrite !bool_decide_eq_false_2 by discriminate.
  rewrite omap_app. cbn [omap list_omap].
  rewrite bool_decide_eq_false_2 by exact Hclosing. rewrite app_nil_r.
  induction chunks as [|c chunks IH]; [reflexivity|].
  cbn [map omap list_omap]. rewrite bool_decide_eq_true_2 by reflexivity.
  simpl. by f_equal.
Qed.

(** X12. The response that a successful turn records for the advisor is
    the text that was streamed to the client during the turn: the chunks
    of the turn's [agent_response] events put together, in order. It is
    not empty, and it is appended to the responses the advisor had. *)
Theorem recorded_response_is_what_was_streamed llm this a st k n st' tr n' :
  advisorTurn llm this a (st, k) n = (Ok (st', S k), tr, n') ->
  exists responses,
    agentResponses st !! a = Some responses /\
    agentResponses st' !! a = Some (responses ++ [streamedText (events tr)]) /\
    streamedText (events tr) <> EmptyString.
Proof.
  rewrite advisorTurn_eq. intros [= <- Hk <- _].
  destruct (turnEnd llm this a st n) as [response| |caught] eqn:He;
    simpl in Hk; try lia.
  assert (Htext : streamedText (events (turnTrace llm this a st n)) = response).
  { assert (Hev : events (turnTrace llm this a st n)
              = event status None
                  (Some (personaName (advisorKey a) +++ " is thinking..."))
                :: event agent_start (Some a) None
                :: map (fun c => event agent_response (Some a) (Some c))
                     (deltas (items (turnReply llm this a st n)))
                ++ [turnClosing a (turnEnd llm this a st n)]).
    { unfold turnTrace, turnOpening. simpl.
      by rewrite events_app, events_chunkEvents. }
    rewrite Hev, He, streamedText_chunks by discriminate.
    by apply turnEnd_Succeeded in He as (_ & -> & _). }
  apply turnEnd_Succeeded in He as (_ & _ & Ht & responses & Hl).
  exists responses. rewrite Htext. simpl. rewrite lookup_insert_eq, Hl.
  split; [reflexivity|]. split; [reflexivity|].
  intros ->. discriminate.
Qed.

Lemma recorded_response_is_what_was_streamed_witness :
  let st := sampleState [naval; elon; larry] [] in
  exists responses,
    agentResponses st !! naval = Some responses /\
    agentResponses sampleTurnState !! naval
    = Some (responses ++ [streamedText (events (trace sampleTurn))]) /\
    streamedText (events (trace sampleTurn)) <> EmptyString.
Proof.
  intros st.
  apply (recorded_response_is_what_was_streamed talkativeLlm
           (sampleCouncil standard [naval; elon; larry]) naval st 0 0
           sampleTurnState (trace sampleTurn) 1).
  vm_compute. reflexivity.
Defined.

(** ** What a prompt shows *)

Section Shown.

Variable this : CouncilOrchestrator.t.

Lemma context_ext s1 s2 (l : list AdvisorName) acc :
  Forall (fun b => spoken s1 b = spoken s2 b) l ->
  fold_left
    (fun context advisor =>
       match agentResponses s1 !! advisor with
       | Some (r :: rs) =>
           context +++ "**" +++ personaName (advisorKey advisor) +++ "**: "
             +++ List.last (r :: rs) EmptyString +++ Js.NL +++ Js.NL
       | _ => context
       end) l acc
  = fold_left
      (fun context advisor =>
         match agentResponses s2 !! advisor with
         | Some (r :: rs) =>
             context +++ "**" +++ personaName (advisorKey advisor) +++ "**: "
               +++ List.last (r :: rs) EmptyString +++ Js.NL +++ Js.NL
         | _ => context
         end) l acc.
Proof.
  intros H. revert acc. induction H as [|b l Hb _ IH]; intros acc; [reflexivity|].
  cbn [fold_left]. rewrite <- IH. f_equal.
  unfold spoken in Hb.
  destruct (agentResponses s1 !! b) as [[|r1 rs1]|];
    destruct (agentResponses s2 !! b) as [[|r2 rs2]|];
    try reflexivity; try discriminate.
  assert (E : List.last (r1 :: rs1) EmptyString = List.last (r2 :: rs2) EmptyString)
    by congruence.
  by rewrite E.
Qed.

End Shown.

(** X15. The context that [buildAdvisorContext] writes for an advisor is
    determined by the latest responses of the other selected advisors:
    two states that agree on them give the same context. So the
    advisor's own responses, the earlier responses of the others and
    whatever the state holds for advisors that are not selected have no
    part in it. *)
Theorem context_is_the_latest_of_the_others this s1 s2 a :
  (forall b, b ∈ CouncilOrchestrator.selectedAdvisors this -> b <> a ->
             spoken s1 b = spoken s2 b) ->
  buildAdvisorContext this s1 a = buildAdvisorContext this s2 a.
Proof.
  intros H. unfold buildAdvisorContext. apply context_ext.
  apply Forall_forall. intros b Hb.
  apply list_elem_of_filter in Hb as [Hne Hin]. by apply H.
Qed.

Lemma context_is_the_latest_of_the_others_witness :
  let this := sampleCouncil standard [naval; elon; larry] in
  let s1 := sampleState [naval; elon; larry] [elon; larry] in
  let s2 := sampleState [naval; elon; larry] [naval; elon; larry] in
  agentResponses s1 !! naval <> agentResponses s2 !! naval /\
  buildAdvisorContext this s1 naval = buildAdvisorContext this s2 naval.
Proof.
  intros this s1 s2. split; [vm_compute; discriminate|].
  apply (context_is_the_latest_of_the_others this s1 s2 naval).
  intros b _ Hb. destruct b; [contradiction | vm_compute; reflexivity..].
Defined.

(** ** New sessions *)

Lemma inserted_lookup (l : list AdvisorName) (m : AgentResponses) a :
  fold_left (fun acc advisor => <[advisor := []]> acc) l m !! a
  = if decide (a ∈ l) then Some [] else m !! a.
Proof.
  revert m. induction l as [|b l IH]; intros m.
  - destruct (decide (a ∈ [])) as [Hin|_]; [|reflexivity].
    by apply elem_of_nil in Hin.
  - cbn [fold_left]. rewrite IH.
    destruct (decide (a ∈ l)) as [Hin|Hout];
      destruct (decide (a ∈ b :: l)) as [Hin'|Hout']; try reflexivity.
    + exfalso. apply Hout'. apply elem_of_cons; by right.
    + apply elem_of_cons in Hin' as [->|?]; [|contradiction].
      apply lookup_insert_eq.
    + apply lookup_insert_ne. intros ->. apply Hout', elem_of_cons; by left.
Qed.

(** X11. A new session holds a list of responses, empty, for each of the
    selected advisors and for no other advisor; so it has no response at
    all, and the consensus analyzer asked about it answers without a
    call. *)
Theorem new_session_lists_the_selected llm this userQuestion n :
  let state := createInitialState this userQuestion in
  (forall a, agentResponses state !! a
             = if decide (a ∈ CouncilOrchestrator.selectedAdvisors this)
               then Some [] else None) /\
  totalResponses (agentResponses state) = 0 /\
  analyzeConsensus llm this state n = (Ok noConsensus, [], n).
Proof.
  intros state.
  assert (Hl : forall a, agentResponses state !! a
             = if decide (a ∈ CouncilOrchestrator.selectedAdvisors this)
               then Some [] else None).
  { intros a. unfold state, createInitialState; simpl. apply inserted_lookup. }
  split; [exact Hl|]. split.
  - unfold totalResponses, ADVISOR_NAMES. simpl. rewrite !Hl.
    repeat destruct (decide _); reflexivity.
  - rewrite analyzeConsensus_eq.
    assert (Hlatest : forall a, latestResponse state a = EmptyString).
    { intros a. unfold latestResponse. rewrite Hl. by destruct (decide _). }
    assert (E : latestResponses this state = []).
    { unfold latestResponses.
      generalize (CouncilOrchestrator.selectedAdvisors this). intros l.
      induction l as [|b l IH]; [reflexivity|].
      cbn [map]. rewrite filter_cons_False; [exact IH|].
      simpl. rewrite Hlatest. simpl. lia. }
    by rewrite E.
Qed.

(** ** Witnesses of properties proved above *)

Lemma reply_without_labels_parses_to_defaults_witness :
  parseConsensus "The advisors talk past each other." = noConsensus.
Proof.
  apply (reply_without_labels_parses_to_defaults "The advisors talk past each other.");
    reflexivity.
Defined.

Lemma later_prompts_show_latest_responses_witness :
  let this := sampleCouncil standard [naval; elon; larry] in
  let state := sampleState [naval; elon; larry] [naval; larry] in
  Js.includes (advisorPrompt this elon state)
    ("**" +++ personaName (advisorKey naval) +++ "**: "
     +++ List.last ["Raise them."] EmptyString +++ Js.NL +++ Js.NL) = true.
Proof.
  intros this state.
  apply (later_prompts_show_latest_responses this state elon naval "Raise them." []).
  - simpl. lia.
  - apply elem_of_cons; by left.
  - discriminate.
  - vm_compute. reflexivity.
Defined.

Lemma next_prompt_shows_fresh_response_witness :
  let this := sampleCouncil standard [naval; elon; larry] in
  let state := sampleState [naval; elon; larry] [] in
  Js.includes
    (req_prompt (advisorRequest this elon
                   (afterTurn naval state (turnEnd talkativeLlm this naval state 0)) true))
    ("**" +++ personaName (advisorKey naval) +++ "**: " +++ "Yes, point 0"
     +++ Js.NL +++ Js.NL)
  = true.
Proof.
  intros this state.
  apply (next_prompt_shows_fresh_response this talkativeLlm state 0 naval elon
           "Yes, point 0").
  - vm_compute. reflexivity.
  - simpl. lia.
  - apply elem_of_cons; by left.
  - discriminate.
Defined.

(** * The security utilities *)

(** ** Secure comparison *)

Lemma charCodeOf_inj x y : charCodeOf x = charCodeOf y -> x = y.
Proof.
  unfold charCodeOf. intros H. apply N2Z.inj in H.
  rewrite <- (ascii_N_embedding x), <- (ascii_N_embedding y). by rewrite H.
Qed.

Lemma secureCompareFrom_zero a b result :
  String.length a = String.length b ->
  secureCompareFrom a b result = 0%Z <-> result = 0%Z /\ a = b.
Proof.
  revert b result. induction a as [|x a IH]; intros [|y b] result Hlen;
    try discriminate Hlen.
  - simpl. intuition.
  - simpl in *. injection Hlen as Hlen. rewrite (IH b _ Hlen).
    rewrite Z.lor_eq_0_iff, Z.lxor_eq_0_iff. split.
    + intros [[Hr Hxy] ->]. apply charCodeOf_inj in Hxy. by subst.
    + intros [Hr [= -> ->]]. by repeat split.
Qed.

(** X20. [secureCompare] is equality of strings: it returns [true]
    exactly when its two arguments are the same string. *)
Theorem secureCompare_is_equality a b : secureCompare a b = true <-> a = b.
Proof.
  unfold secureCompare.
  destruct (String.length a =? String.length b) eqn:Hlen; simpl.
  - apply Nat.eqb_eq in Hlen. rewrite Z.eqb_eq.
    rewrite (secureCompareFrom_zero a b 0 Hlen). intuition.
  - apply Nat.eqb_neq in Hlen. split; [discriminate|].
    intros ->. contradiction.
Qed.

(** ** Input sanitization *)

Lemma take_length n s : String.length (Js.take n s) <= n.
Proof.
  revert s. induction n as [|n IH]; intros [|c s]; simpl; try lia.
  specialize (IH s). lia.
Qed.

Lemma take_chars n s c :
  In c (list_ascii_of_string (Js.take n s)) -> In c (list_ascii_of_string s).
Proof.
  revert s. induction n as [|n IH]; intros [|d s]; simpl; try tauto.
  intros [->|H]; [by left | right; by apply IH].
Qed.

Lemma trimStart_chars s c :
  In c (list_ascii_of_string (Js.trimStart s)) -> In c (list_ascii_of_string s).
Proof.
  induction s as [|d s IH]; simpl; [tauto|].
  destruct (Js.isWhiteSpace d); simpl; [intros H; right; by apply IH | tauto].
Qed.

Lemma trimEnd_chars s c :
  In c (list_ascii_of_string (Js.trimEnd s)) -> In c (list_ascii_of_string s).
Proof.
  induction s as [|d s IH]; simpl; [tauto|].
  destruct (Js.trimEnd s) as [|e t].
  - destruct (Js.isWhiteSpace d); simpl; tauto.
  - simpl in *. intros [->|H]; [by left | right; by apply IH].
Qed.

Lemma removeAngleBrackets_chars s c :
  In c (list_ascii_of_string (removeAngleBrackets s)) ->
  In c (list_ascii_of_string s) /\ c <> "<"%char /\ c <> ">"%char.
Proof.
  induction s as [|d s IH]; simpl; [tauto|].
  destruct (Ascii.eqb d "<") eqn:E1; simpl.
  { intros H. destruct (IH H) as (? & ? & ?). tauto. }
  destruct (Ascii.eqb d ">") eqn:E2; simpl.
  { intros H. destruct (IH H) as (? & ? & ?). tauto. }
  apply Ascii.eqb_neq in E1, E2.
  intros [->|H]; [tauto|]. destruct (IH H) as (? & ? & ?). tauto.
Qed.

Lemma trimStart_head s c t :
  Js.trimStart s = String c t -> Js.isWhiteSpace c = false.
Proof.
  induction s as [|d s IH]; simpl; [discriminate|].
  destruct (Js.isWhiteSpace d) eqn:E; [exact IH|].
  intros [= -> _]. exact E.
Qed.

Lemma trimEnd_head s c t :
  Js.trimEnd s = String c t -> exists t', s = String c t'.
Proof.
  destruct s as [|d s]; simpl; [discriminate|].
  destruct (Js.trimEnd s).
  - destruct (Js.isWhiteSpace d); [discriminate|]. intros [= -> _]. eauto.
  - intros [= -> _]. eauto.
Qed.

(** X21. What [sanitizeInput] returns has no angle bracket and at most
    10000 characters, all of them characters of the input, and it does
    not start with white space. *)
Theorem sanitizeInput_is_safe input :
  (forall c, In c (list_ascii_of_string (sanitizeInput input)) ->
             In c (list_ascii_of_string input) /\ c <> "<"%char /\ c <> ">"%char) /\
  (N.of_nat (String.length (sanitizeInput input)) <= 10000)%N /\
  (forall c rest, sanitizeInput input = String c rest -> Js.isWhiteSpace c = false).
Proof.
  unfold sanitizeInput. split; [|split].
  - intros c H. apply take_chars in H. unfold Js.trim in H.
    apply trimEnd_chars, trimStart_chars in H.
    by apply removeAngleBrackets_chars.
  - pose proof (take_length (N.to_nat 10000)
                  (Js.trim (removeAngleBrackets input))) as H.
    lia.
  - intros c rest H.
    destruct (Js.trim (removeAngleBrackets input)) as [|d t] eqn:E.
    { by destruct (N.to_nat 10000). }
    assert (d = c) as ->.
    { destruct (N.to_nat 10000); [discriminate|]. simpl in H. congruence. }
    unfold Js.trim in E. apply trimEnd_head in E as (t' & E).
    by apply trimStart_head in E.
Qed.

(** ** Rate limiting *)

Lemma rateLimitKey_inj a b : "ratelimit:" +++ a = "ratelimit:" +++ b -> a = b.
Proof. intros H. cbn [String.append] in H. by injection H. Qed.

Section RateLimit.

Variables (identifier : string) (maxRequests : Z).

(** A request inside the window of the client is counted. *)
Lemma checkRateLimit_counted now sweep windowMs store k reset :
  store !! ("ratelimit:" +++ identifier) = Some {| count := k; resetAt := reset |} ->
  (now <= reset)%Z ->
  exists store',
    checkRateLimit now sweep identifier maxRequests windowMs store
    = ({| allowed := (k + 1 <=? maxRequests)%Z;
          remaining := Z.max 0 (maxRequests - (k + 1));
          limitResetAt := reset |}, store') /\
    store' !! ("ratelimit:" +++ identifier)
    = Some {| count := k + 1; resetAt := reset |}.
Proof.
  intros Hl Hnow. unfold checkRateLimit.
  set (swept := if sweep then filter _ store else store).
  assert (Hs : swept !! ("ratelimit:" +++ identifier)
               = Some {| count := k; resetAt := reset |}).
  { unfold swept. destruct sweep; [|exact Hl].
    apply map_lookup_filter_Some. split; [exact Hl|]. simpl. lia. }
  rewrite Hs. simpl.
  destruct (reset <? now)%Z eqn:E; [apply Z.ltb_lt in E; lia|].
  rewrite Hs. simpl. eexists. split; [reflexivity|].
  apply lookup_insert_eq.
Qed.

(** A request of another client leaves the window of the client as it
    is, as long as the window has not ended. *)
Lemma checkRateLimit_other now sweep other maxOther windowMs store entry :
  other <> identifier ->
  store !! ("ratelimit:" +++ identifier) = Some entry ->
  (now <= resetAt entry)%Z ->
  (checkRateLimit now sweep other maxOther windowMs store).2
    !! ("ratelimit:" +++ identifier) = Some entry.
Proof.
  intros Hne Hl Hnow. unfold checkRateLimit.
  set (swept := if sweep then filter _ store else store).
  assert (Hs : swept !! ("ratelimit:" +++ identifier) = Some entry).
  { unfold swept. destruct sweep; [|exact Hl].
    apply map_lookup_filter_Some. split; [exact Hl|]. simpl. lia. }
  assert (Hk : "ratelimit:" +++ other <> "ratelimit:" +++ identifier).
  { intros H. by apply rateLimitKey_inj in H. }
  set (opened := match swept !! ("ratelimit:" +++ other) with
                 | Some e => if (resetAt e <? now)%Z then _ else swept
                 | None => _
                 end).
  assert (Ho : opened !! ("ratelimit:" +++ identifier) = Some entry).
  { unfold opened. destruct (swept !! ("ratelimit:" +++ other)) as [e|].
    - destruct (resetAt e <? now)%Z; [|exact Hs].
      by rewrite lookup_insert_ne.
    - by rewrite lookup_insert_ne. }
  destruct (opened !! ("ratelimit:" +++ other)); simpl; [|exact Ho].
  by rewrite lookup_insert_ne.
Qed.

(** The first request after the window of the client ended, or of a
    client without a window, opens a window. *)
Lemma checkRateLimit_opens now sweep windowMs store :
  match store !! ("ratelimit:" +++ identifier) with
  | Some entry => (resetAt entry < now)%Z
  | None => True
  end ->
  exists store',
    checkRateLimit now sweep identifier maxRequests windowMs store
    = ({| allowed := (1 <=? maxRequests)%Z;
          remaining := Z.max 0 (maxRequests - 1);
          limitResetAt := now + windowMs |}, store') /\
    store' !! ("ratelimit:" +++ identifier)
    = Some {| count := 1; resetAt := now + windowMs |}.
Proof.
  intros Hl. unfold checkRateLimit.
  set (swept := if sweep then filter _ store else store).
  assert (Hs : match swept !! ("ratelimit:" +++ identifier) with
               | Some entry => (resetAt entry < now)%Z
               | None => True
               end).
  { unfold swept. destruct sweep; [|exact Hl].
    destruct (filter _ store !! ("ratelimit:" +++ identifier)) as [e|] eqn:E;
      [|exact I].
    apply map_lookup_filter_Some in E as [E _]. by rewrite E in Hl. }
  destruct (swept !! ("ratelimit:" +++ identifier)) as [e|].
  - apply Z.ltb_lt in Hs. rewrite Hs, lookup_insert_eq. simpl.
    eexists. split; [reflexivity|]. apply lookup_insert_eq.
  - rewrite lookup_insert_eq. simpl.
    eexists. split; [reflexivity|]. apply lookup_insert_eq.
Qed.

Lemma answers_in_window reset calls store k :
  store !! ("ratelimit:" +++ identifier)
  = Some {| count := Z.of_nat k; resetAt := reset |} ->
  Forall (fun c => (call_now c <= reset)%Z /\
                   (call_identifier c = identifier ->
                    call_maxRequests c = maxRequests)) calls ->
  answersTo identifier calls store
  = map (nthAnswer maxRequests reset)
      (seq (S k) (List.length (filter (fun c => call_identifier c = identifier) calls))).
Proof.
  intros Hl Hcalls. revert store k Hl.
  induction Hcalls as [|c calls [Hnow Hmax] _ IH]; intros store k Hl; [reflexivity|].
  cbn [answersTo].
  destruct (String.eqb (call_identifier c) identifier) eqn:E.
  - apply String.eqb_eq in E. rewrite E, (Hmax E).
    destruct (checkRateLimit_counted (call_now c) (call_sweep c) (call_windowMs c)
                store (Z.of_nat k) reset Hl Hnow) as (store' & -> & Hl').
    rewrite filter_cons_True by exact E. cbn [List.length seq map].
    replace (Z.of_nat k + 1)%Z with (Z.of_nat (S k)) in Hl' |- * by lia.
    f_equal. by apply IH.
  - apply String.eqb_neq in E.
    pose proof (checkRateLimit_other (call_now c) (call_sweep c) (call_identifier c)
                  (call_maxRequests c) (call_windowMs c) store _ E Hl Hnow) as Hl'.
    destruct (checkRateLimit _ _ _ _ _ store) as [answer store'].
    rewrite filter_cons_False by exact E. by apply IH.
Qed.

Lemma allowed_in_window reset first n :
  (Z.of_nat (List.length
               (filter (fun a => allowed a = true)
                  (map (nthAnswer maxRequests reset) (seq first n))))
   <= Z.max 0 (maxRequests - Z.of_nat first + 1))%Z.
Proof.
  revert first. induction n as [|n IH]; intros first; [simpl; lia|].
  cbn [seq map]. specialize (IH (S first)).
  destruct (Z.of_nat first <=? maxRequests)%Z eqn:E.
  - rewrite filter_cons_True by exact E. apply Z.leb_le in E.
    cbn [List.length]. lia.
  - rewrite filter_cons_False by (simpl; by rewrite E).
    apply Z.leb_gt in E. lia.
Qed.

End RateLimit.

(** X19. From the request that opens the window of a client until the
    window ends, the [k]-th request of the client is allowed exactly
    when [k] is at most [maxRequests], and is told that
    [maxRequests - k] requests remain (0 when there are none) and when
    the window ends. So no more than [maxRequests] requests of the
    client are allowed in the window. The requests of other clients
    made in between and the sweeps of the store change nothing of it. *)
Theorem window_allows_the_first_requests
    store identifier maxRequests windowMs now sweep calls :
  match store !! ("ratelimit:" +++ identifier) with
  | Some entry => (resetAt entry < now)%Z
  | None => True
  end ->
  Forall (fun c => (call_now c <= now + windowMs)%Z /\
                   (call_identifier c = identifier ->
                    call_maxRequests c = maxRequests)) calls ->
  let opening :=
    {| call_now := now; call_sweep := sweep; call_identifier := identifier;
       call_maxRequests := maxRequests; call_windowMs := windowMs |} in
  let answers := answersTo identifier (opening :: calls) store in
  answers
  = map (nthAnswer maxRequests (now + windowMs))
      (seq 1 (S (List.length
                   (filter (fun c => call_identifier c = identifier) calls)))) /\
  (Z.of_nat (List.length (filter (fun a => allowed a = true) answers))
   <= Z.max 0 maxRequests)%Z.
Proof.
  intros Hstore Hcalls opening answers.
  assert (E : answers
    = map (nthAnswer maxRequests (now + windowMs))
        (seq 1 (S (List.length
                     (filter (fun c => call_identifier c = identifier) calls))))).
  { unfold answers, opening. cbn [answersTo call_now call_sweep call_identifier
                                    call_maxRequests call_windowMs].
    destruct (checkRateLimit_opens identifier maxRequests now sweep windowMs store Hstore)
      as (store' & -> & Hl).
    rewrite String.eqb_refl. cbn [seq map]. f_equal.
    exact (answers_in_window identifier maxRequests (now + windowMs) calls store' 1
             Hl Hcalls). }
  split; [exact E|]. rewrite E.
  pose proof (allowed_in_window maxRequests (now + windowMs) 1
                (S (List.length
                      (filter (fun c => call_identifier c = identifier) calls)))).
  lia.
Qed.

Lemma window_allows_the_first_requests_witness :
  let answers :=
    answersTo "ip:10.0.0.1"
      ({| call_now := 1000; call_sweep := true; call_identifier := "ip:10.0.0.1";
          call_maxRequests := 10; call_windowMs := 60 * 1000 |} :: sampleCalls)
      (<["ratelimit:ip:10.0.0.1" := {| count := 7; resetAt := 999 |}]> ∅) in
  answers
  = map (nthAnswer 10 (1000 + 60 * 1000))
      (seq 1 (S (List.length
                   (filter (fun c => call_identifier c = "ip:10.0.0.1") sampleCalls)))) /\
  (Z.of_nat (List.length (filter (fun a => allowed a = true) answers))
   <= Z.max 0 10)%Z.
Proof.
  apply (window_allows_the_first_requests
           (<["ratelimit:ip:10.0.0.1" := {| count := 7; resetAt := 999 |}]> ∅)
           "ip:10.0.0.1" 10 (60 * 1000) 1000 true sampleCalls).
  - vm_compute. reflexivity.
  - unfold sampleCalls. simpl.
    repeat (constructor; [split; [vm_compute; discriminate | reflexivity]|]).
    constructor.
Defined.

(** * The cost estimate *)


(** X23. The estimate grows with the debate: for at least one advisor,
    more advisors, a deeper mode or research never lower the estimated
    input and output tokens. *)
Theorem estimated_tokens_grow
    (mode mode' : DebateMode) (advisorCount advisorCount' : Z)
    (research research' : bool) :
  (1 <= advisorCount <= advisorCount')%Z ->
  estimatedRounds mode <= estimatedRounds mode' ->
  (research = true -> research' = true) ->
  (estimatedInputTokens mode advisorCount research
   <= estimatedInputTokens mode' advisorCount' research')%Z /\
  (estimatedOutputTokens mode advisorCount
   <= estimatedOutputTokens mode' advisorCount')%Z.
Proof.
  intros Hk Hr Hres.
  assert (Hsq : (advisorCount * advisorCount - advisorCount
                 <= advisorCount' * advisorCount' - advisorCount')%Z) by nia.
  assert (Hnn : (0 <= advisorCount * advisorCount - advisorCount)%Z) by nia.
  assert (Hp : research = true -> research' = false -> False)
    by (intros H1 H2; specialize (Hres H1); congruence).
  unfold estimatedInputTokens, estimatedOutputTokens,
    AVG_TOKENS.userQuestion, AVG_TOKENS.advisorResponse, AVG_TOKENS.researchContext,
    AVG_TOKENS.moderatorAnalysis, AVG_TOKENS.finalAnswer.
  destruct research, research'; try (exfalso; by apply Hp);
    destruct mode, mode'; cbn [estimatedRounds seq fold_left Nat.eqb] in *; try lia;
    cbn [Z.of_nat Pos.of_succ_nat Pos.succ]; split; lia.
Qed.

Lemma estimated_tokens_grow_witness :
  (estimatedInputTokens quick 2 false <= estimatedInputTokens deep 5 true)%Z /\
  (estimatedOutputTokens quick 2 <= estimatedOutputTokens deep 5)%Z.
Proof.
  apply (estimated_tokens_grow quick deep 2 5 false true).
  - lia.
  - simpl. lia.
  - discriminate.
Defined.

(** ** How a debate ends *)

Section Endings.

Variable llm : Oracle.
Variable this : CouncilOrchestrator.t.

Lemma Turns_no_phase l st k n st' k' tr :
  Turns llm this l st k n st' k' tr ->
  countEvents consensus_check (events tr) = 0 /\
  ~ In maxRoundsReached (events tr).
Proof.
  intros HT. pose proof (Turns_kinds _ _ _ _ _ _ _ _ _ HT) as Hk. split.
  - apply countEvents_none. eapply Forall_impl; [exact Hk|].
    intros e He. by destruct (isTurnEvent_no_phase _ He) as (_ & H & _).
  - intros Hin. rewrite Forall_forall in Hk.
    apply list_elem_of_In, Hk, isTurnEvent_no_phase in Hin as (H & _).
    by apply H.
Qed.

(** An iteration that ends normally checks the consensus once, unless it
    is the first, and does not announce the end of the rounds. *)
Lemma RoundRun_checks round st n step tr n' :
  RoundRun llm this round st n (Ok step) tr n' ->
  countEvents consensus_check (events tr) = (if 1 <=? round then 1 else 0) /\
  ~ In maxRoundsReached (events tr).
Proof.
  intros HR.
  inversion HR as [|st1 c trT HT Hc Hr| |st1 c trT v trA nA HT Hc Hr HA Hv|
                  |st1 c trT v trA nA answer HT Hc Hr HA Hv HF]; subst;
    destruct (Turns_no_phase _ _ _ _ _ _ _ HT) as (T1 & T2);
    try (apply Nat.leb_le in Hr as Hr'; rewrite Hr');
    try (apply Nat.leb_gt in Hr as Hr'; rewrite Hr');
    try analysis_trace;
    rewrite !events_app, !countEvents_app, T1;
    (split; [reflexivity|]);
    rewrite ?in_app_iff; unfold maxRoundsReached, roundStart, event; simpl;
    intros Hin;
    repeat match goal with H : _ \/ _ |- _ => destruct H as [H|H] end;
    try (by apply T2); try discriminate; try contradiction.
Qed.

Lemma LoopRun_checks remaining round st n step trs n' :
  LoopRun llm this remaining round st n (Ok step) trs n' ->
  countEvents consensus_check (events (concat trs))
    + (if (round =? 0) && (0 <? List.length trs) then 1 else 0)
  = List.length trs /\
  ~ In maxRoundsReached (events (concat trs)) /\
  match step with
  | Continue st' =>
      List.length trs = remaining /\ consensusReached st' = consensusReached st
  | Return st' _ => consensusReached st' = true /\ 2 <= round + List.length trs
  end.
Proof.
  remember (Ok step) as o eqn:Eo. intros HL. revert step Eo.
  induction HL as [round st n
                  |remaining round st n st1 tr n1 o trs n2 HR _ IH
                  |remaining round st n st1 answer1 tr n1 HR
                  |remaining round st n e tr n1 HR]; intros step Eo; try discriminate.
  - injection Eo as <-. simpl. rewrite andb_false_r.
    split; [reflexivity|]. split; [intros []|]. by split.
  - destruct (IH step Eo) as (I1 & I2 & I3).
    destruct (RoundRun_checks _ _ _ _ _ _ HR) as (R1 & R2).
    destruct (RoundRun_continue _ _ _ _ _ _ _ _ HR) as (_ & _ & R3 & _).
    cbn [concat List.length]. rewrite events_app, countEvents_app, R1.
    split; [|split].
    + destruct round as [|round]; cbn [Nat.eqb Nat.leb andb Nat.ltb] in *; lia.
    + rewrite in_app_iff. tauto.
    + destruct step; [destruct I3; split; [lia | congruence] | split; [tauto | lia]].
  - injection Eo as <-.
    destruct (RoundRun_checks _ _ _ _ _ _ HR) as (R1 & R2).
    destruct (RoundRun_return _ _ _ _ _ _ _ _ _ HR) as (_ & _ & _ & _ & Hc & Hr & _).
    cbn [concat List.length]. rewrite app_nil_r, R1.
    apply Nat.leb_le in Hr as Hr'. rewrite Hr'.
    split; [|split; [exact R2 | split; [exact Hc | lia]]].
    destruct round; [lia | reflexivity].
Qed.

End Endings.

(** X24. The consensus flag of the state that a debate returns tells how
    the debate ended. When it is set, the debate ended inside the round
    loop, in its second round or later, and the end of the rounds was
    never announced. When it is not set, all [maxRounds] rounds were run
    and the end of the rounds was announced before the synthesis,
    whatever the analysis made for the synthesis says. Either way one
    [consensus_check] event was emitted for each round after the
    first. *)
Theorem consensus_flag_tells_how_the_debate_ended
    llm this userQuestion conversationHistory n state answer :
  let run := runCouncilDebate llm this userQuestion conversationHistory n in
  outcome run = Ok (state, answer) ->
  countEvents consensus_check (events (trace run)) = currentRound state - 1 /\
  if consensusReached state
  then 2 <= currentRound state <= CouncilOrchestrator.maxRounds this /\
       ~ In maxRoundsReached (events (trace run))
  else currentRound state = CouncilOrchestrator.maxRounds this /\
       In maxRoundsReached (events (trace run)).
Proof.
  intros run. unfold run.
  destruct (runCouncilDebate_run llm this userQuestion conversationHistory n)
    as (st0 & trP & nP & o & trs & nL & HP & HL & ->).
  destruct (prepareDebate_run llm this userQuestion n)
    as (st0' & trP' & nP' & E & Hpre & P1 & _ & P2 & _).
  rewrite HP in E. injection E as <- <- <-.
  destruct (isPrelude_quiet _ Hpre) as (Hnocheck & _ & _ & _ & _ & Hnarr).
  pose proof (no_check_count _ Hnocheck) as Hc0.
  assert (Hpm : ~ In maxRoundsReached (events trP)).
  { assert (Hk : Forall (fun e => type e <> moderator_analysis) (events trP)).
    { apply Forall_events. eapply Forall_impl; [exact Hpre|].
      intros [e|r|q]; simpl; intuition congruence. }
    intros Hin. rewrite Forall_forall in Hk.
    by apply list_elem_of_In, Hk in Hin. }
  pose proof (LoopRun_length _ _ _ _ _ _ _ _ _ HL) as Hlen.
  unfold prefixed, outcome, trace; cbn [fst snd].
  destruct o as [step|e]; [|discriminate].
  pose proof (LoopRun_rounds _ _ _ _ _ _ _ _ _ HL) as Hrounds. rewrite P1 in Hrounds.
  destruct (LoopRun_checks llm this _ _ _ _ _ _ _ HL) as (L1 & L2 & L3).
  unfold conclusion. destruct step as [st|st answer'].
  - destruct L3 as [L3 L4]. rewrite P2 in L4.
    destruct (concludeDebate_run llm this st nL)
      as (o & trA & tail & n' & -> & HtrA & Htail).
    cbn [fst snd]. intros Hout.
    destruct Htail as [(e & -> & _)|(v & answer' & -> & ->)]; [discriminate|].
    injection Hout as <- <-. cbn [currentRound consensusReached set_finalAnswer].
    simpl in Hrounds. rewrite L4, !events_app, !countEvents_app, Hc0.
    split.
    + assert (Htail : countEvents consensus_check
                (events (Emitted maxRoundsReached
                           :: trA ++ [Requested (finalRequest this st v);
                                      Emitted (event final_answer None (Some answer'))]))
              = 0) by (destruct HtrA as [->| ->]; reflexivity).
      rewrite Htail. cbn [Nat.eqb andb] in L1.
      destruct (0 <? List.length trs) eqn:E0;
        [|apply Nat.ltb_ge in E0]; lia.
    + split; [lia|]. rewrite !in_app_iff. right. by left.
  - destruct L3 as [L3 L4]. cbn [fst snd]. intros [= <- <-].
    simpl in Hrounds. rewrite L3, app_nil_r, !events_app, !countEvents_app, Hc0.
    split.
    + cbn [Nat.eqb andb] in L1.
      destruct (0 <? List.length trs) eqn:E0;
        [|apply Nat.ltb_ge in E0]; lia.
    + split; [lia|]. rewrite in_app_iff. tauto.
Qed.

Lemma consensus_flag_tells_how_the_debate_ended_witness :
  consensusReached sampleDebateState = true /\
  countEvents consensus_check (events (trace sampleDebate))
  = currentRound sampleDebateState - 1 /\
  if consensusReached sampleDebateState
  then 2 <= currentRound sampleDebateState
       <= CouncilOrchestrator.maxRounds (sampleCouncil standard [naval; elon; larry]) /\
       ~ In maxRoundsReached (events (trace sampleDebate))
  else currentRound sampleDebateState
       = CouncilOrchestrator.maxRounds (sampleCouncil standard [naval; elon; larry]) /\
       In maxRoundsReached (events (trace sampleDebate)).
Proof.
  split; [vm_compute; reflexivity|].
  apply (consensus_flag_tells_how_the_debate_ended overconfidentLlm
           (sampleCouncil standard [naval; elon; larry])
           "Should we raise prices?" EmptyString 0
           sampleDebateState sampleDebateAnswer).
  vm_compute. reflexivity.
Defined.


(** * Reading the verdict of the moderator *)

(** ** Numbers in decimal *)

Lemma parseDigits_uint d acc :
  Js.parseDigits acc (NilEmpty.string_of_uint d)
  = N.of_nat (Nat.of_uint_acc d (N.to_nat acc)).
Proof.
  revert acc. induction d as [|d IH|d IH|d IH|d IH|d IH|d IH|d IH|d IH|d IH|d IH];
    intros acc; cbn [NilEmpty.string_of_uint Js.parseDigits Nat.of_uint_acc];
    [by rewrite N2Nat.id|..];
    rewrite IH; do 2 f_equal; rewrite Nat.tail_mul_spec;
    change (Js.digitValue _) with 0%N + change (Js.digitValue _) with 1%N
    + change (Js.digitValue _) with 2%N + change (Js.digitValue _) with 3%N
    + change (Js.digitValue _) with 4%N + change (Js.digitValue _) with 5%N
    + change (Js.digitValue _) with 6%N + change (Js.digitValue _) with 7%N
    + change (Js.digitValue _) with 8%N + change (Js.digitValue _) with 9%N;
    lia.
Qed.

(** The decimal writing of a number: its digits, at least one. *)
Lemma numToString_uint n :
  exists d,
    d <> Decimal.Nil /\
    Js.numToString n = NilEmpty.string_of_uint d /\
    Nat.of_uint d = n.
Proof.
  unfold Js.numToString.
  pose proof (DecimalNat.Unsigned.of_to n) as Hn.
  destruct (Nat.to_uint n) as [|d|d|d|d|d|d|d|d|d|d] eqn:E;
    [exists (Decimal.D0 Decimal.Nil); split; [discriminate|]; split; [reflexivity|];
     by rewrite <- Hn
    |eexists; split; [|split; [reflexivity | exact Hn]]; discriminate..].
Qed.

Lemma parseInt_numToString n : Js.parseInt (Js.numToString n) = N.of_nat n.
Proof.
  destruct (numToString_uint n) as (d & _ & -> & <-).
  unfold Js.parseInt. by rewrite parseDigits_uint.
Qed.

Lemma append_cons c s t : String c s +++ t = String c (s +++ t).
Proof. reflexivity. Qed.

Lemma digitRun_cons c s :
  Js.digitRun (String c s) = if Js.isDigit c then String c (Js.digitRun s) else EmptyString.
Proof. reflexivity. Qed.

Lemma digitRun_uint d rest :
  Js.digitRun rest = EmptyString ->
  Js.digitRun (NilEmpty.string_of_uint d +++ rest) = NilEmpty.string_of_uint d.
Proof.
  intros Hrest.
  induction d as [|d IH|d IH|d IH|d IH|d IH|d IH|d IH|d IH|d IH|d IH];
    cbn [NilEmpty.string_of_uint];
    [exact Hrest|..];
    rewrite append_cons, digitRun_cons, IH; reflexivity.
Qed.

Lemma skipWhiteSpace_uint d rest :
  d <> Decimal.Nil ->
  Js.skipWhiteSpace (NilEmpty.string_of_uint d +++ rest)
  = NilEmpty.string_of_uint d +++ rest.
Proof. intros Hd. destruct d; [contradiction | reflexivity..]. Qed.

Lemma truthy_uint d : d <> Decimal.Nil -> Js.truthy (NilEmpty.string_of_uint d) = true.
Proof. intros Hd. destruct d; [contradiction | reflexivity..]. Qed.

(** ** Matches *)

Lemma append_nil_l s : EmptyString +++ s = s.
Proof. reflexivity. Qed.

Lemma search_here {A} (at_pos : string -> option A) s a :
  at_pos s = Some a -> Js.search at_pos s = Some a.
Proof. intros H. destruct s; simpl; by rewrite H. Qed.

Lemma search_skip_char {A} (at_pos : string -> option A) c p s :
  at_pos (String c (p +++ s)) = None ->
  Js.search at_pos (String c p +++ s) = Js.search at_pos (p +++ s).
Proof. intros H. rewrite append_cons. cbn [Js.search]. by rewrite H. Qed.

Lemma afterLiteral_append p s :
  Js.afterLiteral Ascii.eqb p (p +++ s) = Some s.
Proof.
  induction p as [|c p IH]; [reflexivity|].
  rewrite append_cons. cbn [Js.afterLiteral]. by rewrite Ascii.eqb_refl.
Qed.


(** ** Sections of a reply *)


Lemma includes_char_cons a s c :
  Js.includes (String a s) (String c EmptyString)
  = Ascii.eqb c a || Js.includes s (String c EmptyString).
Proof.
  cbn [Js.includes]. unfold Js.startsWith. cbn [Js.startsWithBy].
  by rewrite andb_true_r.
Qed.



Lemma startsWith_nil_cons b p : Js.startsWith EmptyString (String b p) = false.
Proof. reflexivity. Qed.









Lemma uint_no_colon d : Js.includes (NilEmpty.string_of_uint d) ":" = false.
Proof.
  induction d as [|d IH|d IH|d IH|d IH|d IH|d IH|d IH|d IH|d IH|d IH];
    cbn [NilEmpty.string_of_uint]; [reflexivity|..];
    by rewrite includes_char_cons, IH.
Qed.




Ltac skip_literal :=
  repeat first [rewrite search_skip_char by reflexivity | rewrite append_nil_l].



(** ** The head of a reply *)

Lemma reply_head (yes : bool) (level : nat) (rest : string) :
  let reply :=
    "CONSENSUS: " +++ (if yes then "YES" else "NO") +++ Js.NL
    +++ "AGREEMENT_LEVEL: " +++ Js.numToString level +++ Js.NL +++ rest in
  consensusMatch reply = Some (if yes then "YES" else "NO") /\
  agreementLevelMatch reply = Some (Js.numToString level).
Proof.
  intros reply. split.
  - unfold reply. by destruct yes.
  - destruct (numToString_uint level) as (d & Hd & Hs & _).
    unfold reply, agreementLevelMatch. rewrite Hs. unfold Js.NL.
    destruct yes; skip_literal;
      apply search_here;
      change ("AGREEMENT_LEVEL: " +++ ?x) with ("AGREEMENT_LEVEL:" +++ (" " +++ x));
      rewrite afterLiteral_append;
      change (Js.skipWhiteSpace (" " +++ ?x)) with (Js.skipWhiteSpace x);
      rewrite (skipWhiteSpace_uint d _ Hd), digitRun_uint by reflexivity;
      by rewrite (truthy_uint d Hd).
Qed.

(** X17. The head of a reply in the format that the analysis prompt
    asks for is read back as written: when the reply starts with the
    line [CONSENSUS: YES] or [CONSENSUS: NO] followed by the line
    [AGREEMENT_LEVEL: n] with [n] at most 100, whatever comes after, the
    verdict has the consensus flag of the first line and the agreement
    level [n / 100]. *)
Theorem verdict_head_is_read_back (yes : bool) (level : nat) (rest : string) :
  level <= 100 ->
  let reply :=
    "CONSENSUS: " +++ (if yes then "YES" else "NO") +++ Js.NL
    +++ "AGREEMENT_LEVEL: " +++ Js.numToString level +++ Js.NL +++ rest in
  ConsensusAnalysis.consensusReached (parseConsensus reply) = yes /\
  ConsensusAnalysis.agreementLevel (parseConsensus reply) = (Z.of_nat level # 100)%Q.
Proof.
  intros _ reply. destruct (reply_head yes level rest) as (E1 & E2).
  fold reply in E1, E2.
  unfold parseConsensus. cbn [ConsensusAnalysis.consensusReached
                              ConsensusAnalysis.agreementLevel].
  rewrite E1, E2, parseInt_numToString, nat_N_Z.
  split; [by destruct yes | reflexivity].
Qed.

Lemma verdict_head_is_read_back_witness :
  let reply :=
    "CONSENSUS: " +++ "NO" +++ Js.NL
    +++ "AGREEMENT_LEVEL: " +++ Js.numToString 35 +++ Js.NL
    +++ "The advisors differ on the timing. CONSENSUS: YES" in
  ConsensusAnalysis.consensusReached (parseConsensus reply) = false /\
  ConsensusAnalysis.agreementLevel (parseConsensus reply) = (Z.of_nat 35 # 100)%Q.
Proof.
  apply (verdict_head_is_read_back false 35
           "The advisors differ on the timing. CONSENSUS: YES").
  lia.
Defined.

(** ** Lines and items *)















(** * The store of the client *)

Lemma handleStream_app a b s :
  handleStream (a ++ b) s = handleStream b (handleStream a s).
Proof. apply fold_left_app. Qed.

Lemma onLastMessage_snoc update messages lastMessage :
  onLastMessage update (messages ++ [lastMessage])
  = messages ++ [update lastMessage].
Proof.
  induction messages as [|m messages IH]; [reflexivity|].
  cbn [app onLastMessage]. fold (onLastMessage update (messages ++ [lastMessage])).
  rewrite IH. by destruct messages.
Qed.

(** ** The messages that the events add *)

Lemma finishedResponses_app b l1 l2 :
  finishedResponses b (l1 ++ l2) = finishedResponses b l1 ++ finishedResponses b l2.
Proof. apply omap_app. Qed.

Lemma stillStreaming_app l1 l2 :
  stillStreaming (l1 ++ l2) = stillStreaming l1 + stillStreaming l2.
Proof. unfold stillStreaming. by rewrite filter_app, length_app. Qed.

Lemma finishedResponses_notices b added :
  Forall isNotice added -> finishedResponses b added = [].
Proof.
  induction 1 as [|m added [Ht _] _ IH]; [reflexivity|].
  unfold finishedResponses in *. cbn [omap list_omap]. rewrite IH.
  by rewrite (bool_decide_eq_false_2 _ Ht).
Qed.

Lemma stillStreaming_notices added :
  Forall isNotice added -> stillStreaming added = 0.
Proof.
  induction 1 as [|m added [_ Hs] _ IH]; [reflexivity|].
  unfold stillStreaming in *. rewrite filter_cons_False; [exact IH|].
  by rewrite Hs.
Qed.

(** An event that is not of an advisor's turn adds notices only. *)
Lemma narration_event e s :
  ~ isAgentEvent e ->
  exists added,
    DebateStore.messages (handleStreamEvent e s) = DebateStore.messages s ++ added /\
    Forall isNotice added.
Proof.
  intros H. unfold handleStreamEvent.
  destruct (type e) eqn:Et;
    try (exfalso; apply H; unfold isAgentEvent; tauto);
    repeat match goal with
      | |- context [truthyContent e] => destruct (truthyContent e) as [content|]
      | |- context [Js.includes ?c ?p] => destruct (Js.includes c p)
      | |- context [roundMatch ?c] => destruct (roundMatch c)
      | |- context [data e] => destruct (data e) as [[| [|source rest]]|]
      end;
    first [ exists []; split; [by rewrite app_nil_r | constructor]
          | eexists [_]; split; [reflexivity|];
            constructor; [by split | constructor] ].
Qed.

Lemma Shows_app evs1 evs2 r0 r1 r2 :
  Shows evs1 r0 r1 -> Shows evs2 r1 r2 -> Shows (evs1 ++ evs2) r0 r2.
Proof.
  intros H1 H2 s. destruct (H1 s) as (added1 & M1 & F1 & S1).
  destruct (H2 (handleStream evs1 s)) as (added2 & M2 & F2 & S2).
  exists (added1 ++ added2). rewrite handleStream_app, M2, M1, app_assoc.
  split; [reflexivity|]. split.
  - intros b. by rewrite F2, F1, finishedResponses_app, app_assoc.
  - by rewrite stillStreaming_app, countEvents_app, S1, S2.
Qed.

Lemma Shows_narration evs r :
  Forall (fun e => ~ isAgentEvent e /\ type e <> error) evs -> Shows evs r r.
Proof.
  induction 1 as [|e evs [He Hn] _ IH]; intros s.
  - exists []. split; [by rewrite app_nil_r|].
    split; [intros b; by rewrite app_nil_r | reflexivity].
  - destruct (narration_event e s He) as (added1 & M1 & N1).
    destruct (IH (handleStreamEvent e s)) as (added2 & M2 & F2 & S2).
    exists (added1 ++ added2).
    change (handleStream (e :: evs) s) with (handleStream evs (handleStreamEvent e s)).
    rewrite M2, M1, app_assoc. split; [reflexivity|]. split.
    + intros b. by rewrite finishedResponses_app, finishedResponses_notices, <- F2.
    + rewrite stillStreaming_app, stillStreaming_notices, S2 by done.
      unfold countEvents. by rewrite filter_cons_False.
Qed.

(** The chunks of a turn fill the message of the advisor. *)
Lemma chunks_shown a chunks : forall s messages content,
  DebateStore.messages s = messages ++ [agentMessage a content true] ->
  DebateStore.messages
    (handleStream (map (fun c => event agent_response (Some a) (Some c)) chunks) s)
  = messages ++ [agentMessage a (fold_left String.append chunks content) true].
Proof.
  induction chunks as [|c chunks IH]; intros s messages content Hs; [exact Hs|].
  cbn [map].
  change (handleStream (?e :: ?evs) s) with (handleStream evs (handleStreamEvent e s)).
  apply IH. unfold handleStreamEvent, truthyContent. cbn [type agent text event].
  destruct c as [|ch c]; cbn [Js.truthy].
  - by rewrite append_empty.
  - unfold set_messages. cbn [DebateStore.messages]. rewrite Hs, onLastMessage_snoc.
    unfold appendContent, agentMessage. cbn.
    by rewrite !bool_decide_eq_true_2.
Qed.

Lemma countEvents_chunks a chunks :
  countEvents error (map (fun c => event agent_response (Some a) (Some c)) chunks) = 0.
Proof.
  apply countEvents_none. apply Forall_forall. intros e He.
  apply list_elem_of_In, in_map_iff in He as (c & <- & _). discriminate.
Qed.

Ltac decide_bools :=
  repeat first [ rewrite bool_decide_eq_true_2 by congruence
               | rewrite bool_decide_eq_false_2 by congruence ].

Section ClientOfADebate.

Variable llm : Oracle.
Variable this : CouncilOrchestrator.t.

Lemma events_turnTrace a st n :
  events (turnTrace llm this a st n)
  = event status None (Some (personaName (advisorKey a) +++ " is thinking..."))
    :: event agent_start (Some a) None
    :: map (fun c => event agent_response (Some a) (Some c))
           (deltas (items (turnReply llm this a st n)))
    ++ [turnClosing a (turnEnd llm this a st n)].
Proof.
  unfold turnTrace, turnOpening. simpl. rewrite events_app, events_chunkEvents.
  reflexivity.
Qed.

(** The messages of a turn. *)
Lemma turn_messages a st n s :
  let full := fullText (items (turnReply llm this a st n)) in
  DebateStore.messages (handleStream (events (turnTrace llm this a st n)) s)
  = DebateStore.messages s
    ++ match turnEnd llm this a st n with
       | Failed caught =>
           [ agentMessage a full true;
             plainMessage MessageType.error
               (advisorId a +++ " failed to respond: " +++ messageOr "Unknown error" caught) ]
       | _ => [agentMessage a full false]
       end.
Proof.
  intros full. rewrite events_turnTrace.
  change (?e1 :: ?e2 :: ?l ++ [?c]) with ([e1; e2] ++ l ++ [c]).
  rewrite !handleStream_app.
  set (s2 := handleStream [_; _] s).
  assert (H2 : DebateStore.messages s2 = DebateStore.messages s ++ [agentMessage a EmptyString true]).
  { unfold s2. cbn [handleStream fold_left].
    unfold handleStreamEvent at 2. cbn [type event].
    by destruct (truthyContent _). }
  pose proof (chunks_shown a (deltas (items (turnReply llm this a st n))) s2 _ _ H2) as H3.
  fold (fullText (items (turnReply llm this a st n))) in H3. fold full in H3.
  set (s3 := handleStream (map _ _) s2) in *.
  cbn [handleStream fold_left].
  destruct (turnEnd llm this a st n) as [response| |caught]; cbn [turnClosing].
  - unfold handleStreamEvent. cbn [type event]. unfold set_messages.
    cbn [DebateStore.messages]. by rewrite H3, onLastMessage_snoc.
  - unfold handleStreamEvent. cbn [type event]. unfold set_messages.
    cbn [DebateStore.messages]. by rewrite H3, onLastMessage_snoc.
  - unfold handleStreamEvent, advisorNotice, truthyContent. cbn [type event text].
    assert (Ht : Js.truthy (advisorId a +++ " failed to respond: "
                            +++ messageOr "Unknown error" caught) = true)
      by (by destruct a).
    rewrite Ht. unfold addMessage, set_messages. cbn [DebateStore.messages].
    by rewrite H3, <- app_assoc.
Qed.

Lemma turnEnd_Empty a st n :
  turnEnd llm this a st n = Empty ->
  Js.truthy (fullText (items (turnReply llm this a st n))) = false.
Proof.
  unfold turnEnd. destruct (failure _); [discriminate|].
  destruct (Js.truthy _); [|reflexivity].
  by destruct (agentResponses st !! a).
Qed.

Lemma turn_shows a st n :
  Shows (events (turnTrace llm this a st n))
        (agentResponses st)
        (agentResponses (afterTurn a st (turnEnd llm this a st n))).
Proof.
  intros s. eexists. split; [apply turn_messages|].
  assert (Hcount : countEvents error (events (turnTrace llm this a st n))
                   = countEvents error [turnClosing a (turnEnd llm this a st n)]).
  { rewrite events_turnTrace.
    change (?e1 :: ?e2 :: ?l ++ [?c]) with ([e1; e2] ++ l ++ [c]).
    by rewrite !countEvents_app, countEvents_chunks. }
  rewrite Hcount.
  destruct (turnEnd llm this a st n) as [response| |caught] eqn:He.
  - apply turnEnd_Succeeded in He as (_ & <- & Ht & responses & Hl).
    split; [|reflexivity]. intros b. cbn [afterTurn agentResponses set_agentResponses].
    unfold finishedResponses. cbn. rewrite Ht.
    destruct (decide (a = b)) as [->|Hne].
    + rewrite lookup_insert_eq. by decide_bools.
    + rewrite lookup_insert_ne by done. decide_bools. by rewrite app_nil_r.
  - apply turnEnd_Empty in He. split; [|reflexivity]. intros b.
    unfold finishedResponses. cbn. rewrite He, andb_false_r. by rewrite app_nil_r.
  - split.
    + intros b. unfold finishedResponses. cbn. decide_bools.
      rewrite andb_false_r. by rewrite app_nil_r.
    + unfold stillStreaming, countEvents. cbn [turnClosing advisorNotice].
      rewrite !filter_cons_True, filter_cons_False by (cbn; congruence).
      by rewrite filter_cons_True.
Qed.

Lemma Turns_shows l st k n st' k' tr :
  Turns llm this l st k n st' k' tr ->
  Shows (events tr) (agentResponses st) (agentResponses st').
Proof.
  induction 1 as [|a rest st k n st' k' tr _ IH].
  - by apply Shows_narration.
  - rewrite events_app. eapply Shows_app; [apply turn_shows | exact IH].
Qed.

Ltac narration :=
  apply Shows_narration;
  repeat (constructor; [unfold isAgentEvent; cbn; intuition discriminate|]);
  constructor.

Lemma RoundRun_shows round st n step tr n' :
  RoundRun llm this round st n (Ok step) tr n' ->
  Shows (events tr) (agentResponses st) (agentResponses (stepState step)).
Proof.
  intros HR.
  inversion HR as [|st1 c trT HT Hc Hr| |st1 c trT v trA nA HT Hc Hr HA Hv|
                  |st1 c trT v trA nA answer HT Hc Hr HA Hv HF]; subst;
    apply Turns_shows in HT; cbn [agentResponses set_currentRound] in HT;
    try analysis_trace;
    rewrite !events_app;
    (eapply Shows_app; [narration|]);
    first [ exact HT
          | eapply Shows_app; [exact HT|];
            cbn [stepState agentResponses set_finalAnswer set_consensusReached];
            rewrite <- ?events_app; narration ].
Qed.

Lemma LoopRun_shows remaining round st n step trs n' :
  LoopRun llm this remaining round st n (Ok step) trs n' ->
  Shows (events (concat trs)) (agentResponses st) (agentResponses (stepState step)).
Proof.
  remember (Ok step) as o eqn:Eo. intros HL. revert step Eo.
  induction HL as [round st n
                  |remaining round st n st1 tr n1 o trs n2 HR _ IH
                  |remaining round st n st1 answer1 tr n1 HR
                  |remaining round st n e tr n1 HR]; intros step Eo; try discriminate.
  - injection Eo as <-. by apply Shows_narration.
  - cbn [concat]. rewrite events_app.
    eapply Shows_app; [exact (RoundRun_shows _ _ _ _ _ _ HR) | by apply IH].
  - injection Eo as <-. cbn [concat]. rewrite app_nil_r.
    exact (RoundRun_shows _ _ _ _ _ _ HR).
Qed.

Lemma conclusion_shows step n state answer :
  outcome (conclusion llm this (Ok step) n) = Ok (state, answer) ->
  Shows (events (trace (conclusion llm this (Ok step) n)))
        (agentResponses (stepState step)) (agentResponses state).
Proof.
  unfold conclusion. destruct step as [st|st answer'].
  - destruct (concludeDebate_run llm this st n) as (o & trA & tail & n1 & -> & HtrA & Hend).
    unfold outcome, trace. cbn [fst snd].
    destruct Hend as [(e & -> & _)|(v & answer' & -> & ->)]; [discriminate|].
    intros [= <- _]. cbn [stepState agentResponses set_finalAnswer].
    destruct HtrA as [-> | ->]; narration.
  - intros [= <- _]. by apply Shows_narration.
Qed.

Lemma debate_shows userQuestion conversationHistory n state answer :
  let run := runCouncilDebate llm this userQuestion conversationHistory n in
  outcome run = Ok (state, answer) ->
  Shows (events (trace run)) ∅ (agentResponses state).
Proof.
  intros run. unfold run.
  destruct (runCouncilDebate_run llm this userQuestion conversationHistory n)
    as (st0 & trP & nP & o & trs & nL & HP & HL & ->).
  destruct (prepareDebate_run llm this userQuestion n)
    as (st0' & trP' & nP' & E & Hpre & _ & _ & _ & _ & Hr).
  rewrite HP in E. injection E as <- <- <-.
  unfold prefixed, outcome, trace. cbn [fst snd].
  destruct o as [step|e]; [|discriminate].
  intros Hout. rewrite !events_app, <- app_assoc.
  apply Shows_app with (r1 := agentResponses st0).
  { intros s.
    assert (Hn : Forall (fun e => ~ isAgentEvent e /\ type e <> error) (events trP)).
    { apply Forall_events. eapply Forall_impl; [exact Hpre|].
      intros [e|r|q]; simpl; [|tauto..]. unfold isAgentEvent. intuition congruence. }
    destruct (Shows_narration _ (agentResponses st0) Hn s) as (added & M & F & S).
    exists added. split; [exact M|]. split; [|exact S].
    intros b. specialize (F b).
    rewrite <- (app_nil_r (default [] (agentResponses st0 !! b))) in F at 1.
    apply app_inv_head in F. rewrite <- F, Hr, lookup_empty.
    unfold createInitialState. cbn [agentResponses].
    rewrite inserted_lookup. by destruct (decide _). }
  eapply Shows_app; [exact (LoopRun_shows _ _ _ _ _ _ _ HL)|].
  by apply (conclusion_shows step nL state answer).
Qed.

End ClientOfADebate.

(** ** The round counter of the store *)

Lemma round_kept e s :
  keepsRound e ->
  DebateStore.currentRound (handleStreamEvent e s) = DebateStore.currentRound s.
Proof.
  intros H. unfold handleStreamEvent.
  destruct (decide (type e = moderator_analysis)) as [Et|Et].
  - rewrite Et. destruct H as [H|(content & Ht & Hi)]; [contradiction|].
    unfold truthyContent. rewrite Ht. destruct (Js.truthy content); [|reflexivity].
    by rewrite Hi.
  - destruct (type e); try contradiction;
      repeat match goal with
        | |- context [truthyContent e] => destruct (truthyContent e) as [content|]
        | |- context [agent e] => destruct (agent e)
        | |- context [data e] => destruct (data e) as [[| [|source rest]]|]
        end;
      reflexivity.
Qed.

Lemma rounds_kept evs : forall s,
  Forall keepsRound evs ->
  DebateStore.currentRound (handleStream evs s) = DebateStore.currentRound s.
Proof.
  induction evs as [|e evs IH]; intros s H; [reflexivity|].
  apply Forall_cons in H as [He H].
  change (handleStream (e :: evs) s) with (handleStream evs (handleStreamEvent e s)).
  by rewrite IH, round_kept.
Qed.

Lemma roundMatch_start k :
  roundMatch ("Starting Round " +++ Js.numToString k +++ "...")
  = Some (Js.numToString k).
Proof.
  unfold roundMatch.
  do 9 (rewrite search_skip_char by reflexivity).
  apply search_here. rewrite afterLiteral_append.
  destruct (numToString_uint k) as (d & Hd & -> & _).
  rewrite digitRun_uint by reflexivity.
  by rewrite truthy_uint.
Qed.

Lemma includes_roundStart k :
  Js.includes ("Starting Round " +++ Js.numToString k +++ "...") "Round" = true.
Proof.
  exact (includes_app_r ("Round" +++ (" " +++ Js.numToString k +++ "..."))
           "Starting " "Round" (includes_self _ _)).
Qed.

Lemma roundStart_shown k s :
  DebateStore.currentRound (handleStreamEvent (roundStart k) s) = N.of_nat k.
Proof.
  unfold handleStreamEvent, roundStart, truthyContent. cbn [type event text].
  change (Js.truthy ("Starting Round " +++ ?x)) with true. cbv iota.
  by rewrite includes_roundStart, roundMatch_start, parseInt_numToString.
Qed.

Lemma turn_event_keepsRound e : isTurnEvent e -> keepsRound e.
Proof. intros H. left. by destruct (isTurnEvent_no_phase _ H) as (H1 & _). Qed.

Section RoundOfADebate.

Variable llm : Oracle.
Variable this : CouncilOrchestrator.t.

Ltac keeps_round :=
  repeat (constructor;
          [first [ left; discriminate
                 | right; eexists; split; [reflexivity | vm_compute; reflexivity] ]|]);
  constructor.

(** Every iteration of the round loop sets the counter to its number. *)
Lemma RoundRun_round round st n o tr n' s :
  RoundRun llm this round st n o tr n' ->
  DebateStore.currentRound (handleStream (events tr) s) = N.of_nat (round + 1).
Proof.
  intros HR.
  assert (Hopen : forall rest,
            Forall keepsRound (events rest) ->
            DebateStore.currentRound
              (handleStream (events (roundOpening this round ++ rest)) s)
            = N.of_nat (round + 1)).
  { intros rest Hrest. rewrite events_app, handleStream_app, rounds_kept by exact Hrest.
    unfold roundOpening, events. cbn [omap list_omap emittedEvent].
    change (handleStream [?e1; ?e2] s)
      with (handleStreamEvent e2 (handleStreamEvent e1 s)).
    apply roundStart_shown. }
  inversion HR as [st1 c trT HT Hc
                  |st1 c trT HT Hc Hr
                  |st1 c trT e trA nA HT Hc Hr HA
                  |st1 c trT v trA nA HT Hc Hr HA Hv
                  |st1 c trT v trA nA e HT Hc Hr HA Hv HF
                  |st1 c trT v trA nA answer HT Hc Hr HA Hv HF]; subst;
    apply Turns_kinds in HT;
    try analysis_trace;
    apply Hopen; rewrite ?events_app;
    repeat (apply Forall_app; split);
    first [ eapply Forall_impl; [exact HT | exact turn_event_keepsRound]
          | keeps_round ].
Qed.

Lemma LoopRun_round remaining round st n o trs n' s :
  LoopRun llm this remaining round st n o trs n' ->
  trs <> [] ->
  DebateStore.currentRound (handleStream (events (concat trs)) s)
  = N.of_nat (round + List.length trs).
Proof.
  intros HL. revert s.
  induction HL as [round st n
                  |remaining round st n st1 tr n1 o trs n2 HR HL IH
                  |remaining round st n st1 answer1 tr n1 HR
                  |remaining round st n e tr n1 HR]; intros s Hne.
  - contradiction.
  - cbn [concat List.length]. rewrite events_app, handleStream_app.
    destruct trs as [|tr' trs].
    + cbn [concat events omap list_omap handleStream fold_left List.length].
      exact (RoundRun_round _ _ _ _ _ _ _ HR).
    + rewrite IH by discriminate. f_equal. cbn [List.length]. lia.
  - cbn [concat List.length]. rewrite app_nil_r.
    exact (RoundRun_round _ _ _ _ _ _ _ HR).
  - cbn [concat List.length]. rewrite app_nil_r.
    exact (RoundRun_round _ _ _ _ _ _ _ HR).
Qed.

Lemma LoopRun_starts remaining round st n o trs n' :
  LoopRun llm this (S remaining) round st n o trs n' -> trs <> [].
Proof. inversion 1; discriminate. Qed.

Lemma conclusion_keepsRound o n :
  Forall keepsRound (events (trace (conclusion llm this o n))).
Proof.
  unfold conclusion. destruct o as [[st|st answer]|e]; [|constructor..].
  destruct (concludeDebate_run llm this st n) as (o & trA & tail & n1 & -> & HtrA & Hend).
  unfold trace. cbn [fst snd].
  destruct HtrA as [-> | ->];
    destruct Hend as [(e & _ & [->|(v & ->)])|(v & answer & _ & ->)];
    unfold maxRoundsReached; keeps_round.
Qed.

(** The counter after the stream of a debate that runs at least one
    round. *)
Lemma debate_round userQuestion conversationHistory n s tail :
  1 <= CouncilOrchestrator.maxRounds this ->
  Forall keepsRound tail ->
  roundsStarted tail = 0 ->
  DebateStore.currentRound
    (handleStream (events (trace (runCouncilDebate llm this userQuestion
                                    conversationHistory n)) ++ tail) s)
  = N.of_nat (roundsStarted
                (events (trace (runCouncilDebate llm this userQuestion
                                  conversationHistory n)) ++ tail)).
Proof.
  intros Hmax Htail Hstarted.
  destruct (runCouncilDebate_run llm this userQuestion conversationHistory n)
    as (st0 & trP & nP & o & trs & nL & HP & HL & ->).
  destruct (prepareDebate_run llm this userQuestion n)
    as (st0' & trP' & nP' & E & Hpre & _).
  rewrite HP in E. injection E as <- <- <-.
  destruct (isPrelude_quiet _ Hpre) as (_ & _ & P3 & _).
  destruct (LoopRun_guarded _ _ _ _ _ _ _ _ _ HL) as (L1 & _).
  destruct (conclusion_guarded llm this o nL 0) as (_ & _ & C3 & _).
  destruct (CouncilOrchestrator.maxRounds this) as [|remaining] eqn:Em; [lia|].
  pose proof (LoopRun_starts _ _ _ _ _ _ _ HL) as Hne.
  unfold prefixed, trace in C3 |- *. cbn [fst snd] in C3 |- *.
  set (trC := snd (fst (conclusion llm this o nL))) in *.
  assert (Hrounds : roundsStarted (events ((trP ++ concat trs) ++ trC) ++ tail)
                    = List.length trs).
  { unfold roundsStarted in *. rewrite filter_app, length_app, Hstarted.
    fold (roundsStarted (events ((trP ++ concat trs) ++ trC))).
    rewrite <- startWeight_rounds, !totalWeight_app, P3, L1, C3. lia. }
  rewrite Hrounds, !events_app, !handleStream_app.
  rewrite rounds_kept by exact Htail.
  rewrite rounds_kept by apply conclusion_keepsRound.
  by rewrite (LoopRun_round _ _ _ _ _ _ _ _ HL Hne).
Qed.

End RoundOfADebate.

(** ** The research on display *)

Lemma sourcesShown_app l1 l2 : sourcesShown (l1 ++ l2) = sourcesShown l1 ++ sourcesShown l2.
Proof. apply omap_app. Qed.

Lemma sourcesShown_onLast update messages :
  (forall m, DebateStore.sources (update m) = DebateStore.sources m) ->
  sourcesShown (onLastMessage update messages) = sourcesShown messages.
Proof.
  intros H. induction messages as [|m messages IH]; [reflexivity|].
  destruct messages as [|m' messages].
  - unfold sourcesShown. cbn [onLastMessage omap list_omap]. by rewrite H.
  - change (onLastMessage update (m :: m' :: messages))
      with (m :: onLastMessage update (m' :: messages)).
    unfold sourcesShown in *. cbn [omap list_omap] in *. by rewrite IH.
Qed.

Lemma appendContent_sources a c m :
  DebateStore.sources (appendContent a c m) = DebateStore.sources m.
Proof. unfold appendContent. by destruct (_ && _). Qed.

Lemma stopStreaming_sources m :
  DebateStore.sources (stopStreaming m) = DebateStore.sources m.
Proof. unfold stopStreaming. by destruct (bool_decide _). Qed.

(** The events of the rounds and of the end of a debate leave the
    research of the store as it is. *)
Lemma research_kept e s :
  type e <> research_start -> type e <> research_complete ->
  type e <> research_results ->
  DebateStore.isResearching (handleStreamEvent e s) = DebateStore.isResearching s /\
  sourcesShown (DebateStore.messages (handleStreamEvent e s))
  = sourcesShown (DebateStore.messages s).
Proof.
  intros H1 H2 H3. unfold handleStreamEvent.
  destruct (type e); try contradiction;
    repeat match goal with
      | |- context [truthyContent e] => destruct (truthyContent e) as [content|]
      | |- context [agent e] => destruct (agent e)
      | |- context [Js.includes ?c ?p] => destruct (Js.includes c p)
      | |- context [roundMatch ?c] => destruct (roundMatch c)
      end;
    (split; [reflexivity|]);
    unfold addMessage, set_messages; cbn [DebateStore.messages setCurrentRound];
    first [ reflexivity
          | by rewrite sourcesShown_app, app_nil_r
          | apply sourcesShown_onLast; intros m;
            first [apply appendContent_sources | apply stopStreaming_sources] ].
Qed.

Lemma research_kept_all tr : forall s,
  Forall isRoundObs tr ->
  DebateStore.isResearching (handleStream (events tr) s) = DebateStore.isResearching s /\
  sourcesShown (DebateStore.messages (handleStream (events tr) s))
  = sourcesShown (DebateStore.messages s).
Proof.
  induction tr as [|o tr IH]; intros s H; [by split|].
  apply Forall_cons in H as [Ho H].
  destruct o as [e|r|q]; [|by apply IH|contradiction].
  change (events (Emitted e :: tr)) with (e :: events tr).
  change (handleStream (e :: events tr) s)
    with (handleStream (events tr) (handleStreamEvent e s)).
  destruct (IH (handleStreamEvent e s) H) as (I1 & I2).
  cbn in Ho.
  destruct (research_kept e s) as (K1 & K2); [tauto..|].
  split; congruence.
Qed.

Section ResearchOfADebate.

Variable llm : Oracle.
Variable this : CouncilOrchestrator.t.

Lemma RoundRun_research round st n step tr n' :
  RoundRun llm this round st n (Ok step) tr n' ->
  researchResults (stepState step) = researchResults st.
Proof.
  intros HR.
  inversion HR as [|st1 c trT HT Hc Hr| |st1 c trT v trA nA HT Hc Hr HA Hv|
                  |st1 c trT v trA nA answer HT Hc Hr HA Hv HF]; subst;
    by destruct (Turns_frame _ _ _ _ _ _ _ _ _ HT) as (_ & _ & _ & _ & _ & _ & _ & E).
Qed.

Lemma LoopRun_research remaining round st n step trs n' :
  LoopRun llm this remaining round st n (Ok step) trs n' ->
  researchResults (stepState step) = researchResults st.
Proof.
  remember (Ok step) as o eqn:Eo. intros HL. revert step Eo.
  induction HL as [round st n
                  |remaining round st n st1 tr n1 o trs n2 HR _ IH
                  |remaining round st n st1 answer1 tr n1 HR
                  |remaining round st n e tr n1 HR]; intros step Eo; try discriminate.
  - by injection Eo as <-.
  - rewrite (IH step Eo). exact (RoundRun_research _ _ _ _ _ _ HR).
  - injection Eo as <-. exact (RoundRun_research _ _ _ _ _ _ HR).
Qed.

(** The research results of the state that a debate returns are those
    of the preparation. *)
Lemma debate_research userQuestion conversationHistory n state answer :
  outcome (runCouncilDebate llm this userQuestion conversationHistory n)
  = Ok (state, answer) ->
  exists st0 trP nP,
    prepareDebate llm this userQuestion n = (Ok st0, trP, nP) /\
    researchResults state = researchResults st0.
Proof.
  destruct (runCouncilDebate_run llm this userQuestion conversationHistory n)
    as (st0 & trP & nP & o & trs & nL & HP & HL & ->).
  unfold prefixed, outcome. cbn [fst]. intros Hout.
  exists st0, trP, nP. split; [exact HP|].
  destruct o as [step|e]; [|discriminate].
  rewrite <- (LoopRun_research _ _ _ _ _ _ _ HL).
  unfold conclusion in Hout. destruct step as [st|st answer'].
  - destruct (concludeDebate_run llm this st nL)
      as (o & trA & tail & n' & Econ & _ & Hend).
    rewrite Econ in Hout. cbn [fst] in Hout.
    destruct Hend as [(e & -> & _)|(v & answer' & -> & _)]; [discriminate|].
    by injection Hout as <- _.
  - simpl in Hout. by injection Hout as <- _.
Qed.

(** The preparation of a debate on display. *)
Lemma prelude_shown userQuestion n st0 trP nP s :
  prepareDebate llm this userQuestion n = (Ok st0, trP, nP) ->
  let s' := handleStream (events trP) s in
  DebateStore.isResearching s'
  = match searches trP with [] => DebateStore.isResearching s | _ => false end /\
  sourcesShown (DebateStore.messages s')
  = sourcesShown (DebateStore.messages s)
    ++ match researchResults st0 with Some results => [results] | None => [] end.
Proof.
  pose proof (prepareDebate_eq llm this userQuestion n) as E. cbv zeta in E.
  rewrite E. clear E.
  destruct (shouldActivateResearch this userQuestion);
    [destruct (CouncilOrchestrator.enableResearch this);
     [destruct (researchFound llm n userQuestion) as [|r results]|]|];
    intros [= <- <- <-]; cbn [researchResults set_researchResults createInitialState];
    (split; [reflexivity|]);
    cbn -[sourcesShown]; unfold addMessage, set_messages;
    cbn [DebateStore.messages setResearch setCurrentStatus];
    rewrite ?sourcesShown_app; by rewrite ?app_nil_r.
Qed.

End ResearchOfADebate.

(** ** The end of the stream *)

Lemma production_message_truthy caught :
  Js.truthy (getSafeErrorMessage false caught) = true.
Proof.
  unfold getSafeErrorMessage. destruct caught as [message|]; [|reflexivity].
  repeat match goal with |- context [if ?b then _ else _] => destruct b end;
    reflexivity.
Qed.

(** The stream of a request without its closing event. *)
Lemma stream_closing llm env d :
  exists evs,
    responseStream llm env d
    = evs ++ [match outcome (runCouncilDebate llm (orchestratorFor env d)
                               (question d) (conversationHistory d) 0) with
              | Ok (_, answer) => event final_answer None (Some answer)
              | Throw caught => fatalEvent env caught
              end].
Proof.
  unfold responseStream. rewrite debateTask_eq. cbv zeta.
  set (this := orchestratorFor env d). clearbody this.
  destruct (runCouncilDebate_run llm this (question d) (conversationHistory d) 0)
    as (st0 & trP & nP & o & trs & nL & _ & HL & ->).
  unfold prefixed, outcome, trace; cbn [fst snd].
  destruct o as [[st|st answer]|e]; unfold conclusion.
  - destruct (concludeDebate_run llm this st nL)
      as (o & trA & tail & n' & -> & _ & Htail).
    cbn [fst snd].
    destruct Htail as [(e & -> & _)|(v & answer & -> & ->)].
    + eexists. rewrite events_app. reflexivity.
    + exists (events ((trP ++ concat trs)
                      ++ Emitted maxRoundsReached :: trA
                      ++ [Requested (finalRequest this st v)])).
      rewrite app_nil_r, !events_app.
      change (Emitted maxRoundsReached :: ?l) with ([Emitted maxRoundsReached] ++ l).
      rewrite !events_app. cbn [events omap list_omap emittedEvent].
      by rewrite ?app_nil_r, <- ?app_assoc.
  - destruct (LoopRun_return _ _ _ _ _ _ _ _ _ _ HL) as (tr0 & -> & _).
    exists (events (trP ++ tr0)). cbn [fst snd].
    rewrite !app_nil_r, !events_app. by rewrite <- app_assoc.
  - eexists. cbn [fst snd]. rewrite app_nil_r, events_app. reflexivity.
Qed.

Lemma responseStream_returned llm env d state answer :
  let run := runCouncilDebate llm (orchestratorFor env d)
               (question d) (conversationHistory d) 0 in
  outcome run = Ok (state, answer) ->
  responseStream llm env d = events (trace run).
Proof.
  intros run Hout. unfold responseStream. rewrite debateTask_eq. cbv zeta.
  fold run. rewrite Hout. unfold trace at 1. cbn [fst snd]. by rewrite app_nil_r.
Qed.

(** * The client and the server *)

(** X26. The responses on display are the responses of the session. When
    the store of the client has handled the stream of a debate that
    returns, it holds the messages it held before and after them the
    messages of the debate; among these the complete, non-empty messages
    of an advisor are, in order, the responses that the returned state
    records for that advisor; and a message is still marked as streaming
    for each error event of the stream, that is, for each turn that
    failed. *)
Theorem store_shows_the_recorded_responses llm env d store state answer :
  let run := runCouncilDebate llm (orchestratorFor env d)
               (question d) (conversationHistory d) 0 in
  let stream := responseStream llm env d in
  outcome run = Ok (state, answer) ->
  exists added,
    DebateStore.messages (handleStream stream store)
    = DebateStore.messages store ++ added /\
    (forall advisor,
       finishedResponses advisor added = default [] (agentResponses state !! advisor)) /\
    stillStreaming added = countEvents error stream.
Proof.
  intros run stream Hout. unfold stream.
  rewrite (responseStream_returned llm env d state answer Hout). fold run.
  destruct (debate_shows llm (orchestratorFor env d) (question d) (conversationHistory d)
              0 state answer Hout store) as (added & M & F & S).
  exists added. split; [exact M|]. split; [|exact S].
  intros advisor. by rewrite F, lookup_empty.
Qed.

Lemma store_shows_the_recorded_responses_witness :
  outcome flakyDebate = Ok (flakyDebateState, flakyDebateAnswer) /\
  exists added,
    DebateStore.messages
      (handleStream (responseStream flakyLlm sampleEnv
                       (sampleRequest standard [naval; elon; larry])) sampleStore)
    = DebateStore.messages sampleStore ++ added /\
    (forall advisor,
       finishedResponses advisor added
       = default [] (agentResponses flakyDebateState !! advisor)) /\
    stillStreaming added
    = countEvents error (responseStream flakyLlm sampleEnv
                           (sampleRequest standard [naval; elon; larry])).
Proof.
  split; [vm_compute; reflexivity|].
  apply (store_shows_the_recorded_responses flakyLlm sampleEnv
           (sampleRequest standard [naval; elon; larry]) sampleStore
           flakyDebateState flakyDebateAnswer).
  vm_compute. reflexivity.
Defined.

(** X27. The round on display is the round of the session. After the
    store has handled the stream of a request, whatever it held before
    and whether the debate returned or threw, its [currentRound] is the
    number of rounds that the debate started; when the debate returns,
    this is the [currentRound] of the returned state. *)
Theorem store_round_is_the_session_round llm env d store :
  let run := runCouncilDebate llm (orchestratorFor env d)
               (question d) (conversationHistory d) 0 in
  let stream := responseStream llm env d in
  DebateStore.currentRound (handleStream stream store)
  = N.of_nat (roundsStarted stream) /\
  match outcome run with
  | Ok (state, _) =>
      DebateStore.currentRound (handleStream stream store)
      = N.of_nat (currentRound state)
  | Throw _ => True
  end.
Proof.
  intros run stream.
  assert (Hmax : 1 <= CouncilOrchestrator.maxRounds (orchestratorFor env d))
    by apply new_maxRounds.
  assert (H : DebateStore.currentRound (handleStream stream store)
              = N.of_nat (roundsStarted stream)).
  { assert (Es : stream
                 = events (trace run)
                   ++ events match outcome run with
                             | Ok _ => []
                             | Throw caught => [Emitted (fatalEvent env caught)]
                             end).
    { unfold stream, responseStream. rewrite debateTask_eq. cbv zeta.
      unfold trace at 1. cbn [fst snd]. by rewrite events_app. }
    rewrite Es. apply debate_round; [exact Hmax| |].
    - destruct (outcome run); [constructor|].
      constructor; [left; discriminate | constructor].
    - by destruct (outcome run). }
  split; [exact H|].
  destruct (outcome run) as [[state answer]|caught] eqn:Hout; [|exact I].
  rewrite H. f_equal. unfold stream.
  rewrite (responseStream_returned llm env d state answer Hout).
  symmetry. by eapply debate_rounds.
Qed.

(** X28. The research on display is the research of the session. When
    the store has handled the stream of a debate that returns, it lists
    the sources it listed before and, when the returned state has
    research results, those results after them, and nothing else; and
    its [isResearching] flag is off if a search was made, and as it was
    otherwise. *)
Theorem store_lists_the_sources_of_the_session llm env d store state answer :
  let run := runCouncilDebate llm (orchestratorFor env d)
               (question d) (conversationHistory d) 0 in
  let store' := handleStream (responseStream llm env d) store in
  outcome run = Ok (state, answer) ->
  sourcesShown (DebateStore.messages store')
  = sourcesShown (DebateStore.messages store)
    ++ match researchResults state with Some results => [results] | None => [] end /\
  DebateStore.isResearching store'
  = match searches (trace run) with
    | [] => DebateStore.isResearching store
    | _ => false
    end.
Proof.
  intros run store' Hout. unfold store'.
  rewrite (responseStream_returned llm env d state answer Hout). fold run.
  destruct (debate_research llm (orchestratorFor env d) (question d)
              (conversationHistory d) 0 state answer Hout)
    as (st0 & trP & nP & HP & ->).
  destruct (runCouncilDebate_obs llm (orchestratorFor env d) (question d)
              (conversationHistory d) 0) as (st0' & trP' & nP' & rest & HP' & Htr & Hrest).
  rewrite HP in HP'. injection HP' as <- <- <-.
  unfold run. rewrite Htr, events_app, handleStream_app, searches_app.
  rewrite (isRoundObs_searches _ Hrest), app_nil_r.
  destruct (research_kept_all rest (handleStream (events trP) store) Hrest) as (-> & ->).
  destruct (prelude_shown _ _ _ _ _ _ _ store HP) as (K1 & K2).
  by split.
Qed.

Lemma store_lists_the_sources_of_the_session_witness :
  outcome flakyDebate = Ok (flakyDebateState, flakyDebateAnswer) /\
  let store' := handleStream (responseStream flakyLlm sampleEnv
                                (sampleRequest standard [naval; elon; larry]))
                  sampleStore in
  sourcesShown (DebateStore.messages store')
  = sourcesShown (DebateStore.messages sampleStore)
    ++ match researchResults flakyDebateState with
       | Some results => [results]
       | None => []
       end /\
  DebateStore.isResearching store'
  = match searches (trace flakyDebate) with
    | [] => DebateStore.isResearching sampleStore
    | _ => false
    end.
Proof.
  split; [vm_compute; reflexivity|].
  apply (store_lists_the_sources_of_the_session flakyLlm sampleEnv
           (sampleRequest standard [naval; elon; larry]) sampleStore
           flakyDebateState flakyDebateAnswer).
  vm_compute. reflexivity.
Defined.

(** X29. The display ends on the answer or on the error. When the store
    has handled the stream of a request, its last message is the [final]
    message with the answer if the debate returned an answer that is not
    empty, and the [error] message with the text of
    [getSafeErrorMessage] if the debate threw and that text is not
    empty, which it never is in production. *)
Theorem store_ends_on_answer_or_error llm env d store :
  let run := runCouncilDebate llm (orchestratorFor env d)
               (question d) (conversationHistory d) 0 in
  let store' := handleStream (responseStream llm env d) store in
  match outcome run with
  | Ok (_, answer) =>
      Js.truthy answer = true ->
      last (DebateStore.messages store') = Some (plainMessage MessageType.final answer)
  | Throw caught =>
      let message := getSafeErrorMessage (NODE_ENV_development env) caught in
      (NODE_ENV_development env = false -> Js.truthy message = true) /\
      (Js.truthy message = true ->
       last (DebateStore.messages store') = Some (plainMessage MessageType.error message))
  end.
Proof.
  intros run store'. unfold store'.
  destruct (stream_closing llm env d) as (evs & ->). fold run.
  rewrite handleStream_app.
  change (handleStream [?e] ?s) with (handleStreamEvent e s).
  destruct (outcome run) as [[state answer]|caught].
  - intros Ht. unfold handleStreamEvent, truthyContent. cbn [type event text].
    rewrite Ht. unfold addMessage, set_messages. cbn [DebateStore.messages].
    apply last_snoc.
  - cbv zeta. split.
    + intros ->. apply production_message_truthy.
    + intros Ht. unfold handleStreamEvent, fatalEvent, truthyContent.
      cbn [type event text]. rewrite Ht.
      unfold addMessage, set_messages. cbn [DebateStore.messages].
      apply last_snoc.
Qed.

Lemma store_ends_on_answer_or_error_witness :
  Js.truthy flakyDebateAnswer = true /\
  last (DebateStore.messages
          (handleStream (responseStream flakyLlm sampleEnv
                           (sampleRequest standard [naval; elon; larry])) sampleStore))
  = Some (plainMessage MessageType.final flakyDebateAnswer).
Proof.
  split; [vm_compute; reflexivity|].
  pose proof (store_ends_on_answer_or_error flakyLlm sampleEnv
                (sampleRequest standard [naval; elon; larry]) sampleStore) as H.
  cbv zeta in H.
  change (runCouncilDebate flakyLlm _ _ _ 0) with flakyDebate in H.
  assert (E : outcome flakyDebate = Ok (flakyDebateState, flakyDebateAnswer))
    by (vm_compute; reflexivity).
  rewrite E in H. apply H. vm_compute. reflexivity.
Defined.
